(** * The text-extraction and localization pipeline

    A shallow embedding of [app/lib/textExtractor.ts] (the extractor, the
    context classifier, the translation client, the persisting loop and the
    orchestrator) and of the localization store ([LocalizationDB] and the
    functions behind it), followed by the properties of the pipeline.

    The source file of the pipeline holds the module twice; the version
    embedded is the first one (the second adds demo props to what the
    orchestrator returns).  What the second half adds is embedded in the
    module [V2]; the hook [useTranslations] that ends the file and the naming
    of a component in [Editor.tsx] have modules of their own.

    Conventions.
    - A JavaScript string is the list of its UTF-16 code units ([list N]).
    - Asynchronous functions are computations in the monad [M]: they read and
      change a [World] (the module-level [db], [localStorage], the requests
      sent so far) and end in a value or in a thrown error.
    - What the runtime decides (the answer of [fetch], [Date.now()], what
      other tasks do to the store while this one is suspended at an [await])
      is an argument of the function that meets it. *)

From Stdlib Require Import ZArith NArith DecimalN List Bool Ascii String
  Permutation.
From stdpp Require Import base decidable option list gmap.

Local Open Scope N_scope.

(** ** JavaScript strings *)

Abbreviation jsstring := (list N).

Fixpoint bytes_of (s : string) : list N :=
  match s with
  | EmptyString => []
  | String a s' => N_of_ascii a :: bytes_of s'
  end.

(** Source literals are written as in the TypeScript files; the file is UTF-8
    and a JavaScript string holds UTF-16 code units. *)
Fixpoint utf16_of_utf8 (l : list N) : jsstring :=
  match l with
  | [] => []
  | b0 :: l1 =>
      if b0 <? 128 then b0 :: utf16_of_utf8 l1
      else if b0 <? 224 then
        match l1 with
        | b1 :: l2 => ((b0 mod 32) * 64 + b1 mod 64) :: utf16_of_utf8 l2
        | _ => []
        end
      else if b0 <? 240 then
        match l1 with
        | b1 :: b2 :: l3 =>
            ((b0 mod 16) * 4096 + (b1 mod 64) * 64 + b2 mod 64)
              :: utf16_of_utf8 l3
        | _ => []
        end
      else
        match l1 with
        | b1 :: b2 :: b3 :: l4 =>
            let cp := (b0 mod 8) * 262144 + (b1 mod 64) * 4096
                      + (b2 mod 64) * 64 + b3 mod 64 - 65536 in
            (55296 + cp / 1024) :: (56320 + cp mod 1024) :: utf16_of_utf8 l4
        | _ => []
        end
  end.

Definition js (s : string) : jsstring := utf16_of_utf8 (bytes_of s).

(** [String.prototype.substring(start, end)] on integer arguments: both are
    clamped to [0, length] and swapped when out of order. *)
Definition substring (s : jsstring) (start end_ : Z) : jsstring :=
  let len := Z.of_nat (length s) in
  let finalStart := Z.min (Z.max start 0) len in
  let finalEnd := Z.min (Z.max end_ 0) len in
  let from := Z.min finalStart finalEnd in
  let to := Z.max finalStart finalEnd in
  take (Z.to_nat (to - from)) (drop (Z.to_nat from) s).

Fixpoint startsWith (pat s : jsstring) : bool :=
  match pat, s with
  | [], _ => true
  | p :: pat', c :: s' => (p =? c) && startsWith pat' s'
  | _ :: _, [] => false
  end.

(** [String.prototype.includes(pat)]. *)
Fixpoint includes (s pat : jsstring) : bool :=
  startsWith pat s ||
  match s with
  | [] => false
  | _ :: s' => includes s' pat
  end.

(** [`${n}`] for a non-negative integer below 1e21: its decimal digits. *)
Fixpoint digits_of_uint (d : Decimal.uint) : jsstring :=
  match d with
  | Decimal.Nil => []
  | Decimal.D0 d' => 48 :: digits_of_uint d'
  | Decimal.D1 d' => 49 :: digits_of_uint d'
  | Decimal.D2 d' => 50 :: digits_of_uint d'
  | Decimal.D3 d' => 51 :: digits_of_uint d'
  | Decimal.D4 d' => 52 :: digits_of_uint d'
  | Decimal.D5 d' => 53 :: digits_of_uint d'
  | Decimal.D6 d' => 54 :: digits_of_uint d'
  | Decimal.D7 d' => 55 :: digits_of_uint d'
  | Decimal.D8 d' => 56 :: digits_of_uint d'
  | Decimal.D9 d' => 57 :: digits_of_uint d'
  end.

Definition numberToString (n : N) : jsstring := digits_of_uint (N.to_uint n).

(** A lower-casing that is right on ASCII text, to run the definitions on
    examples; the functions below take [toLowerCase] as a parameter. *)
Definition asciiLower (s : jsstring) : jsstring :=
  map (fun c => if (65 <=? c) && (c <=? 90) then c + 32 else c) s.

(** ** Regular expressions

    The fragment the source uses: literal characters, character classes, a
    class under a greedy [+], and one capture group.  Matching backtracks the
    way the JavaScript engine does: [+] first takes as many characters as it
    can and gives them back one at a time when the rest fails. *)

Inductive Atom :=
| Chr (c : N)
| Cls (p : N → bool)
| Plus (p : N → bool)
| GroupOpen
| GroupClose.

Fixpoint star {R} (p : N → bool) (k : jsstring → option R) (s : jsstring)
  : option R :=
  match s with
  | c :: s' =>
      if p c then
        match star p k s' with
        | Some r => Some r
        | None => k s
        end
      else k s
  | [] => k []
  end.

(** [matchAtoms r opened captured s] matches [r] at the head of [s]; it
    returns the text of group 1 and what follows the match. *)
Fixpoint matchAtoms (r : list Atom) (opened captured s : jsstring)
  : option (jsstring * jsstring) :=
  match r with
  | [] => Some (captured, s)
  | Chr c :: r' =>
      match s with
      | x :: s' => if x =? c then matchAtoms r' opened captured s' else None
      | [] => None
      end
  | Cls p :: r' =>
      match s with
      | x :: s' => if p x then matchAtoms r' opened captured s' else None
      | [] => None
      end
  | Plus p :: r' =>
      match s with
      | x :: s' => if p x then star p (matchAtoms r' opened captured) s' else None
      | [] => None
      end
  | GroupOpen :: r' => matchAtoms r' s captured s
  | GroupClose :: r' =>
      matchAtoms r' opened (take (length opened - length s)%nat opened) s
  end.

Definition matchAt (r : list Atom) (s : jsstring) := matchAtoms r [] [] s.

Record RegExpMatch := {
  index : nat;
  group1 : jsstring;
}.

(** Leftmost match at or after position [i], [s] being the text from [i] on. *)
Fixpoint searchFrom (r : list Atom) (s : jsstring) (i : nat)
  : option (RegExpMatch * nat) :=
  match matchAt r s with
  | Some (cap, rest) =>
      Some ({| index := i; group1 := cap |}, (i + (length s - length rest))%nat)
  | None =>
      match s with
      | [] => None
      | _ :: s' => searchFrom r s' (S i)
      end
  end.

(** [RegExp.prototype.exec] of a regular expression with the [g] flag: the
    search starts at [lastIndex]; the result comes with the new [lastIndex]
    (the end of the match, or 0 after a failure). *)
Definition exec (r : list Atom) (str : jsstring) (lastIndex : nat)
  : option RegExpMatch * nat :=
  if (length str <? lastIndex)%nat then (None, 0%nat)
  else
    match searchFrom r (drop lastIndex str) lastIndex with
    | Some (m, e) => (Some m, e)
    | None => (None, 0%nat)
    end.

Definition isQuote (c : N) : bool := (c =? 39) || (c =? 34) || (c =? 96).
Definition notQuote (c : N) : bool := negb (isQuote c).

(** The regular expression of [extractLocalizationKeys]: the letter t, an
    opening parenthesis, one of the three quote characters (39, 34, 96), group
    1 made of one or more characters that are none of the three, one of the
    three quote characters again, a closing parenthesis. *)
Definition tCallRegex : list Atom :=
  [Chr 116; Chr 40; Cls isQuote; GroupOpen; Plus notQuote; GroupClose;
   Cls isQuote; Chr 41].

(** ** The data model *)

(** The six texts of one key, [{ en, es, fr, de, ja, zh }]. *)
Record Translations := {
  en : jsstring;
  es : jsstring;
  fr : jsstring;
  de : jsstring;
  ja : jsstring;
  zh : jsstring;
}.

Record ExtractedText := {
  key : jsstring;
  text : jsstring;
  context : option jsstring;
  translations : option Translations;
}.

(** A row of the table [localizations].  The columns [created_at] and
    [updated_at] are filled by the SQL engine from its clock and read by none
    of the functions below; they are left out. *)
Module LocalizationEntry.
Record t := mk {
  id : jsstring;
  key : jsstring;
  en : jsstring;
  es : jsstring;
  fr : jsstring;
  de : jsstring;
  ja : jsstring;
  zh : jsstring;
}.
End LocalizationEntry.

Global Instance LocalizationEntry_eq_dec : EqDecision LocalizationEntry.t.
Proof. solve_decision. Defined.

(** What a loaded database has of the table [components]; its rows hold no
    localization record and are not modelled. *)
Inductive ComponentsTable :=
| ComponentsMissing
| ComponentsWithoutDemoProps
| ComponentsPresent.

Record Database := {
  localizations : list LocalizationEntry.t;
  components : ComponentsTable;
}.

(** The body of one request to [/api/extract-and-translate]. *)
Abbreviation Request := (list (jsstring * option jsstring)).

(** What [fetch] and [response.json()] come to. *)
Inductive FetchOutcome :=
| FetchThrows
| ResponseNotOk
| ResponseJson (success : bool)
               (data_translations : option (gmap jsstring Translations)).

Record World := {
  db : option Database;             (* [let db: Database | null] *)
  localStorage : option Database;   (* the item [localizations_db] *)
  sqlJsLoads : bool;                (* whether [initSqlJs] resolves *)
  requests : list Request;          (* the calls of [fetch], oldest first *)
}.

Inductive Error :=
| JsError (message : jsstring)   (* [new Error(message)], also the engine's *)
| LoadFailure                    (* what [initSqlJs] rejects with *)
| FetchFailure.                  (* what [fetch] or [json()] rejects with *)

Inductive Result (A : Type) :=
| Ok (a : A)
| Throw (e : Error).
Arguments Ok {A} a.
Arguments Throw {A} e.

(** ** Computations: a world is threaded through, a throw ends the rest *)

Definition M (A : Type) : Type := World → Result A * World.

Definition ret {A} (a : A) : M A := fun w => (Ok a, w).

Definition throw {A} (e : Error) : M A := fun w => (Throw e, w).

Definition bind {A B} (m : M A) (f : A → M B) : M B :=
  fun w =>
    match m w with
    | (Ok a, w') => f a w'
    | (Throw e, w') => (Throw e, w')
    end.

(** [try { m } catch (error) { h error }] *)
Definition try_catch {A} (m : M A) (h : Error → M A) : M A :=
  fun w =>
    match m w with
    | (Ok a, w') => (Ok a, w')
    | (Throw e, w') => h e w'
    end.

Definition get_world : M World := fun w => (Ok w, w).
Definition set_db (d : Database) : M unit :=
  fun w => (Ok tt, {| db := Some d; localStorage := localStorage w;
                      sqlJsLoads := sqlJsLoads w; requests := requests w |}).
Definition set_localStorage (d : Database) : M unit :=
  fun w => (Ok tt, {| db := db w; localStorage := Some d;
                      sqlJsLoads := sqlJsLoads w; requests := requests w |}).
Definition log_request (r : Request) : M unit :=
  fun w => (Ok tt, {| db := db w; localStorage := localStorage w;
                      sqlJsLoads := sqlJsLoads w;
                      requests := requests w ++ [r] |}).

Declare Scope m_scope.
Delimit Scope m_scope with M.
Notation "'let*' x ':=' m 'in' k" := (bind m (fun x => k))
  (at level 10, x name, m at level 100, k at level 200) : m_scope.
Notation "m ;;; k" := (bind m (fun _ => k))
  (at level 100, right associativity) : m_scope.
Local Open Scope m_scope.

(** ** The SQL statements of the store

    The table is the list of its rows in insertion order.  Its schema makes
    [id] the primary key and [key] unique: a statement that would break either
    fails as a whole and leaves the table as it was. *)

Abbreviation Table := (list LocalizationEntry.t).

Definition ids (rows : Table) : list jsstring := map LocalizationEntry.id rows.
Definition keys (rows : Table) : list jsstring := map LocalizationEntry.key rows.

Definition constraintFailed (column : string) : Error :=
  JsError (js "UNIQUE constraint failed: localizations." ++ js column).

(** [INSERT INTO localizations (id, key, en, es, fr, de, ja, zh) VALUES ...]
    When both columns clash the engine names [key], the constraint it checks
    first. *)
Definition sqlInsert (e : LocalizationEntry.t) (rows : Table) : Result Table :=
  if bool_decide (LocalizationEntry.key e ∈ keys rows) then
    Throw (constraintFailed "key")
  else if bool_decide (LocalizationEntry.id e ∈ ids rows) then
    Throw (constraintFailed "id")
  else Ok (rows ++ [e]).

Definition setField (field value : jsstring) (r : LocalizationEntry.t)
  : LocalizationEntry.t :=
  let '(LocalizationEntry.mk i k a b c d e f) := r in
  if bool_decide (field = js "key") then LocalizationEntry.mk i value a b c d e f
  else if bool_decide (field = js "en") then LocalizationEntry.mk i k value b c d e f
  else if bool_decide (field = js "es") then LocalizationEntry.mk i k a value c d e f
  else if bool_decide (field = js "fr") then LocalizationEntry.mk i k a b value d e f
  else if bool_decide (field = js "de") then LocalizationEntry.mk i k a b c value e f
  else if bool_decide (field = js "ja") then LocalizationEntry.mk i k a b c d value f
  else if bool_decide (field = js "zh") then LocalizationEntry.mk i k a b c d e value
  else r.

Definition getField (field : jsstring) (r : LocalizationEntry.t) : jsstring :=
  if bool_decide (field = js "key") then LocalizationEntry.key r
  else if bool_decide (field = js "en") then LocalizationEntry.en r
  else if bool_decide (field = js "es") then LocalizationEntry.es r
  else if bool_decide (field = js "fr") then LocalizationEntry.fr r
  else if bool_decide (field = js "de") then LocalizationEntry.de r
  else if bool_decide (field = js "ja") then LocalizationEntry.ja r
  else if bool_decide (field = js "zh") then LocalizationEntry.zh r
  else [].

(** [UPDATE localizations SET field = ?, updated_at = ... WHERE id = ?] *)
Definition sqlUpdate (field value id : jsstring) (rows : Table) : Result Table :=
  let rows' :=
    map (fun r => if bool_decide (LocalizationEntry.id r = id)
                  then setField field value r else r) rows in
  if bool_decide (NoDup (keys rows')) then Ok rows'
  else Throw (constraintFailed "key").

(** [DELETE FROM localizations WHERE id = ?] *)
Definition sqlDelete (id : jsstring) (rows : Table) : Table :=
  filter (fun r => LocalizationEntry.id r ≠ id) rows.

(** The place of a code unit in the order of the UTF-8 bytes, which is the
    order of the characters: the two units of a surrogate pair (a character
    above U+FFFF) come after every other unit. *)
Definition utf8Rank (c : N) : N :=
  if (55296 <=? c) && (c <=? 57343) then c + 8192
  else if 57344 <=? c then c - 2048
  else c.

(** The order of [ORDER BY key]: the engine compares the UTF-8 bytes of the
    two texts. *)
Fixpoint string_le (a b : jsstring) : bool :=
  match a, b with
  | [], _ => true
  | _ :: _, [] => false
  | x :: a', y :: b' =>
      (utf8Rank x <? utf8Rank y) || ((x =? y) && string_le a' b')
  end.

Fixpoint insertByKey (r : LocalizationEntry.t) (rows : Table) : Table :=
  match rows with
  | [] => [r]
  | r' :: rows' =>
      if string_le (LocalizationEntry.key r) (LocalizationEntry.key r')
      then r :: rows
      else r' :: insertByKey r rows'
  end.

(** [SELECT * FROM localizations ORDER BY key] *)
Definition sqlSelectAllOrderByKey (rows : Table) : Table :=
  foldr insertByKey [] rows.

(** ** The store ([database.ts]) *)

Definition isNull {A} (o : option A) : bool :=
  match o with Some _ => false | None => true end.

Definition nullDereference : Error :=
  JsError (js "Cannot read properties of null").

(** [db!.run(statement)] on the table [localizations]. *)
Definition db_run (statement : Table → Result Table) : M unit :=
  let* w := get_world in
  match db w with
  | None => throw nullDereference
  | Some d =>
      match statement (localizations d) with
      | Ok rows => set_db {| localizations := rows; components := components d |}
      | Throw e => throw e
      end
  end.

(** [db!.exec(query)] on the table [localizations]. *)
Definition db_exec {A} (query : Table → A) : M A :=
  let* w := get_world in
  match db w with
  | None => throw nullDereference
  | Some d => ret (query (localizations d))
  end.

Definition setComponents (c : ComponentsTable) : M unit :=
  let* w := get_world in
  match db w with
  | None => throw nullDereference
  | Some d => set_db {| localizations := localizations d; components := c |}
  end.

(** [localStorage.setItem] is taken to succeed (the source swallows its
    failure) and [export] followed by [new SQL.Database] to give the same
    tables back. *)
Definition saveDatabaseToLocalStorage : M unit :=
  let* w := get_world in
  match db w with
  | None => ret tt
  | Some d => set_localStorage d
  end.

Definition initialData : Table := [
  LocalizationEntry.mk (js "1") (js "welcome.title")
    (js "Welcome to our app") (js "Bienvenido a nuestra aplicación")
    (js "Bienvenue dans notre application") (js "Willkommen in unserer App")
    (js "私たちのアプリへようこそ") (js "欢迎使用我们的应用");
  LocalizationEntry.mk (js "2") (js "button.submit")
    (js "Submit") (js "Enviar") (js "Soumettre") (js "Absenden")
    (js "送信") (js "提交");
  LocalizationEntry.mk (js "3") (js "error.validation")
    (js "Please check your input") (js "Por favor verifica tu entrada")
    (js "Veuillez vérifier votre saisie")
    (js "Bitte überprüfen Sie Ihre Eingabe")
    (js "入力内容を確認してください") (js "请检查您的输入");
  LocalizationEntry.mk (js "4") (js "navigation.home")
    (js "Home") (js "Inicio") (js "Accueil") (js "Startseite")
    (js "ホーム") (js "首页");
  LocalizationEntry.mk (js "5") (js "form.email")
    (js "Email Address") (js "Dirección de correo") (js "Adresse e-mail")
    (js "E-Mail-Adresse") (js "メールアドレス") (js "电子邮件地址");
  LocalizationEntry.mk (js "6") (js "click_me")
    (js "Click me") (js "Haz clic aquí") (js "Cliquez-moi") (js "Klick mich")
    (js "クリックしてください") (js "点击我");
  LocalizationEntry.mk (js "7") (js "demo_title")
    (js "Demo Title") (js "Título de demostración") (js "Titre de démo")
    (js "Demo-Titel") (js "デモタイトル") (js "演示标题");
  LocalizationEntry.mk (js "8") (js "demo_description")
    (js "This is a demo description.")
    (js "Esta es una descripción de demostración.")
    (js "Ceci est une description de démo.")
    (js "Dies ist eine Demo-Beschreibung.")
    (js "これはデモの説明です。") (js "这是一个演示描述。");
  LocalizationEntry.mk (js "9") (js "enter_text_here")
    (js "Enter text here...") (js "Ingrese texto aquí...")
    (js "Entrez le texte ici...") (js "Text hier eingeben...")
    (js "ここにテキストを入力...") (js "在此输入文本...");
  LocalizationEntry.mk (js "10") (js "demo_text")
    (js "Demo text") (js "Texto de demostración") (js "Texte de démo")
    (js "Demo-Text") (js "デモテキスト") (js "演示文本");
  LocalizationEntry.mk (js "11") (js "demo_name")
    (js "Demo Name") (js "Nombre de Demostración") (js "Nom de Démo")
    (js "Demo-Name") (js "デモ名") (js "演示名称");
  LocalizationEntry.mk (js "12") (js "demo_value")
    (js "Demo Value") (js "Valor de Demostración") (js "Valeur de Démo")
    (js "Demo-Wert") (js "デモ値") (js "演示值");
  LocalizationEntry.mk (js "13") (js "save_document")
    (js "Save Document") (js "Guardar Documento")
    (js "Enregistrer le Document") (js "Dokument Speichern")
    (js "ドキュメントを保存") (js "保存文档")
].

Fixpoint forEach {A} (l : list A) (body : A → M unit) : M unit :=
  match l with
  | [] => ret tt
  | x :: l' => body x ;;; forEach l' body
  end.

Definition seedInitialData : M unit :=
  let* w := get_world in
  if isNull (db w) then throw (JsError (js "Database not initialized"))
  else forEach initialData (fun entry => db_run (sqlInsert entry)).

Definition initializeDatabase : M unit :=
  let* w := get_world in
  if negb (isNull (db w)) then ret tt
  else
    try_catch
      ((if sqlJsLoads w then ret tt else throw LoadFailure) ;;;
       let* needsComponentsTable :=
         match localStorage w with
         | Some savedDb =>
             set_db savedDb ;;;
             match components savedDb with
             | ComponentsPresent => ret false
             | ComponentsWithoutDemoProps =>
                 setComponents ComponentsPresent ;;;
                 saveDatabaseToLocalStorage ;;;
                 ret false
             | ComponentsMissing => ret true
             end
         | None => ret true
         end in
       let* w1 := get_world in
       (if isNull (db w1) || needsComponentsTable then
          (if isNull (db w1) then
             set_db {| localizations := []; components := ComponentsMissing |} ;;;
             seedInitialData
           else ret tt) ;;;
          (if needsComponentsTable then setComponents ComponentsPresent
           else ret tt)
        else ret tt) ;;;
       saveDatabaseToLocalStorage)
      (fun error => throw error).

Definition ensureInitialized : M unit :=
  let* w := get_world in
  if isNull (db w) then initializeDatabase else ret tt.

Definition getAllLocalizations : M Table :=
  ensureInitialized ;;;
  db_exec sqlSelectAllOrderByKey.

Definition validFields : list jsstring :=
  [js "key"; js "en"; js "es"; js "fr"; js "de"; js "ja"; js "zh"].

Definition InvalidField (field : jsstring) : Error :=
  JsError (js "Invalid field: " ++ field).

Definition updateLocalization (id field value : jsstring) : M unit :=
  ensureInitialized ;;;
  (if negb (bool_decide (field ∈ validFields)) then throw (InvalidField field)
   else ret tt) ;;;
  db_run (sqlUpdate field value id) ;;;
  saveDatabaseToLocalStorage.

Definition createLocalization (entry : LocalizationEntry.t) : M unit :=
  ensureInitialized ;;;
  db_run (sqlInsert entry) ;;;
  saveDatabaseToLocalStorage.

Definition deleteLocalization (id : jsstring) : M unit :=
  ensureInitialized ;;;
  db_run (fun rows => Ok (sqlDelete id rows)) ;;;
  saveDatabaseToLocalStorage.

Definition validLocales : list jsstring :=
  [js "en"; js "es"; js "fr"; js "de"; js "ja"; js "zh"].

Definition InvalidLocale (locale : jsstring) : Error :=
  JsError (js "Invalid locale: " ++ locale).

(** [value || ""] on a string. *)
Definition orEmpty (value : jsstring) : jsstring :=
  match value with
  | [] => []
  | _ :: _ => value
  end.

(** [acc[k] = v] on a plain object, [v] a string: an own property, except
    that assigning a string to [__proto__] changes nothing. *)
Definition objectSet (acc : gmap jsstring jsstring) (k v : jsstring)
  : gmap jsstring jsstring :=
  if bool_decide (k = js "__proto__") then acc else <[k := v]> acc.

(** [SELECT key, locale as translation FROM localizations], reduced to an
    object. *)
Definition sqlSelectTranslations (locale : jsstring) (rows : Table)
  : gmap jsstring jsstring :=
  foldl (fun acc row =>
           objectSet acc (LocalizationEntry.key row)
                     (orEmpty (getField locale row)))
        ∅ rows.

Definition getTranslations (locale : jsstring) : M (gmap jsstring jsstring) :=
  ensureInitialized ;;;
  (if negb (bool_decide (locale ∈ validLocales)) then throw (InvalidLocale locale)
   else ret tt) ;;;
  db_exec (sqlSelectTranslations locale).

(** The class [LocalizationDB]: every method awaits [init] first. *)
Module LocalizationDB.
Definition init : M unit :=
  let* w := get_world in
  if negb (isNull (db w)) then ret tt else initializeDatabase.

Definition getAll : M Table := init ;;; getAllLocalizations.

Definition update (id field value : jsstring) : M unit :=
  init ;;; updateLocalization id field value.

Definition create (entry : LocalizationEntry.t) : M unit :=
  init ;;; createLocalization entry.

Definition delete (id : jsstring) : M unit :=
  init ;;; deleteLocalization id.

Definition getTranslations (locale : jsstring)
  : M (gmap jsstring jsstring) :=
  init ;;; getTranslations locale.
End LocalizationDB.

(** [closeDatabase] and [resetDatabase]: [db.close()] frees the memory of the
    engine; what counts is that [db] is null afterwards and, for the second,
    that the saved item is gone. *)
Definition unset_db : M unit :=
  fun w => (Ok tt, {| db := None; localStorage := localStorage w;
                      sqlJsLoads := sqlJsLoads w; requests := requests w |}).

Definition removeItem : M unit :=
  fun w => (Ok tt, {| db := db w; localStorage := None;
                      sqlJsLoads := sqlJsLoads w; requests := requests w |}).

Definition closeDatabase : M unit :=
  let* w := get_world in
  if negb (isNull (db w)) then unset_db else ret tt.

Definition resetDatabase : M unit :=
  removeItem ;;;
  let* w := get_world in
  if negb (isNull (db w)) then unset_db else ret tt.

(** ** The pipeline ([textExtractor.ts]) *)

(** What another task does to the store while this one waits. *)
Inductive StoreOp :=
| OtherCreate (entry : LocalizationEntry.t)
| OtherUpdate (id field value : jsstring)
| OtherDelete (id : jsstring).

Definition runOther (op : StoreOp) : M unit :=
  try_catch
    match op with
    | OtherCreate entry => LocalizationDB.create entry
    | OtherUpdate id field value => LocalizationDB.update id field value
    | OtherDelete id => LocalizationDB.delete id
    end
    (fun _ => ret tt).

Definition runOthers (ops : list StoreOp) : M unit := forEach ops runOther.

(** What the runtime brings to one turn of the persisting loop: the value of
    [Date.now()], what other tasks do before the turn reads the store, and
    what they do between that read and the insert (the method [create] awaits
    [init] before it runs its statement). *)
Record Turn := {
  now : N;
  before : list StoreOp;
  between : list StoreOp;
}.

(** No other task runs; [clock i] is the time in turn [i]. *)
Definition alone (clock : nat → N) (i : nat) : Turn :=
  {| now := clock i; before := []; between := [] |}.

Definition isWordChar (c : N) : bool :=
  ((97 <=? c) && (c <=? 122)) || ((65 <=? c) && (c <=? 90))
  || ((48 <=? c) && (c <=? 57)) || (c =? 95).

(** The regular expression of [transformComponentCode]: the words
    [export default function], a space, and group 1 made of one or more word
    characters. *)
Definition exportRegex : list Atom :=
  map Chr (js "export default function ") ++ [GroupOpen; Plus isWordChar; GroupClose].

(** [String.prototype.match] of a regular expression without the [g] flag. *)
Definition regexMatch (r : list Atom) (s : jsstring) : option RegExpMatch :=
  fst <$> searchFrom r s 0.

(** [s.replace(pat, replacement)], [pat] a string and [replacement] free of
    dollar signs: the first occurrence is replaced. *)
Fixpoint replaceFirst (s pat replacement : jsstring) : jsstring :=
  if startsWith pat s then replacement ++ drop (length pat) s
  else
    match s with
    | [] => []
    | c :: s' => c :: replaceFirst s' pat replacement
    end.

Section Pipeline.

(** [String.prototype.toLowerCase], which follows the Unicode tables of the
    runtime. *)
Variable toLowerCase : jsstring → jsstring.

Definition determineContext (code : jsstring) (matchIndex : Z) : jsstring :=
  let start := Z.max 0 (matchIndex - 50) in
  let end_ := Z.min (Z.of_nat (length code)) (matchIndex + 50) in
  let context := toLowerCase (substring code start end_) in
  if includes context (js "<button") || includes context (js "onclick")
  then js "button"
  else if includes context (js "placeholder") then js "placeholder"
  else if includes context (js "<h1") || includes context (js "<h2")
          || includes context (js "<h3")
  then js "heading"
  else if includes context (js "<label") then js "label"
  else if includes context (js "<p>") || includes context (js "<span")
  then js "content"
  else js "general".

(** The [while] loop of [extractLocalizationKeys]; [lastIndex] is the
    property of the regular expression.  [None] when the turns run out. *)
Fixpoint extractLoop (turns : nat) (componentCode : jsstring)
    (lastIndex : nat) (extractedTexts : list ExtractedText)
    (usedKeys : gset jsstring) : option (list ExtractedText) :=
  match turns with
  | O => None
  | S turns' =>
      match exec tCallRegex componentCode lastIndex with
      | (None, _) => Some extractedTexts
      | (Some match_, lastIndex') =>
          let key := group1 match_ in
          if bool_decide (key ∈ usedKeys) then
            extractLoop turns' componentCode lastIndex' extractedTexts usedKeys
          else
            extractLoop turns' componentCode lastIndex'
              (extractedTexts ++
                 [{| key := key; text := key;
                     context := Some (determineContext componentCode
                                        (Z.of_nat (index match_)));
                     translations := None |}])
              ({[key]} ∪ usedKeys)
      end
  end.

(** Every match advances [lastIndex], so [length componentCode + 1] turns are
    enough ([extractLoop_enough] below). *)
Definition extractedCalls (componentCode : jsstring) : list ExtractedText :=
  default [] (extractLoop (S (length componentCode)) componentCode 0 [] ∅).

(** The response is taken as the route types it: an object from keys to
    translations.  (For a key that names a property every object inherits,
    such as [constructor], and that the response lacks, the lookup gives that
    property; the insert then throws on its undefined texts and the turn ends
    as it does here for a key without translations: no record, the key left
    out.) *)
Definition translateKeys (outcome : FetchOutcome)
    (extractedTexts : list ExtractedText) : M (list ExtractedText) :=
  try_catch
    (log_request (map (fun e => (key e, context e)) extractedTexts) ;;;
     match outcome with
     | FetchThrows => throw FetchFailure
     | ResponseNotOk => ret extractedTexts
     | ResponseJson true (Some data_translations) =>
         ret (map (fun extracted =>
                     {| key := key extracted; text := text extracted;
                        context := context extracted;
                        translations := data_translations !! key extracted |})
                  extractedTexts)
     | ResponseJson _ _ => ret extractedTexts
     end)
    (fun error => ret extractedTexts).

Definition extractLocalizationKeys (outcome : FetchOutcome)
    (componentCode : jsstring) : M (list ExtractedText) :=
  try_catch
    (let extractedTexts := extractedCalls componentCode in
     if (0 <? length extractedTexts)%nat
     then translateKeys outcome extractedTexts
     else ret extractedTexts)
    (fun error => ret []).

Definition newEntry (componentId : jsstring) (extracted : ExtractedText)
    (translations : Translations) (dateNow : N) : LocalizationEntry.t :=
  {| LocalizationEntry.id :=
       componentId ++ js "_" ++ key extracted ++ js "_" ++ numberToString dateNow;
     LocalizationEntry.key := key extracted;
     LocalizationEntry.en := en translations;
     LocalizationEntry.es := es translations;
     LocalizationEntry.fr := fr translations;
     LocalizationEntry.de := de translations;
     LocalizationEntry.ja := ja translations;
     LocalizationEntry.zh := zh translations |}.

(** One turn of the [for] loop of [processAndSaveExtractedTexts], inside its
    [try]; the result is [savedKeys] after the turn. *)
Definition saveOne (turn : Turn) (componentId : jsstring)
    (extracted : ExtractedText) (savedKeys : list jsstring)
  : M (list jsstring) :=
  runOthers (before turn) ;;;
  let* existingTranslations := LocalizationDB.getAll in
  let existing :=
    find (fun t => bool_decide (LocalizationEntry.key t = key extracted))
         existingTranslations in
  match existing with
  | None =>
      match translations extracted with
      | None => ret savedKeys
      | Some translations =>
          let entry := newEntry componentId extracted translations (now turn) in
          runOthers (between turn) ;;;
          LocalizationDB.create entry ;;;
          ret (savedKeys ++ [key extracted])
      end
  | Some _ => ret (savedKeys ++ [key extracted])
  end.

Fixpoint saveLoop (env : nat → Turn) (componentId : jsstring) (i : nat)
    (extractedTexts : list ExtractedText) (savedKeys : list jsstring)
  : M (list jsstring) :=
  match extractedTexts with
  | [] => ret savedKeys
  | extracted :: rest =>
      let* savedKeys' :=
        try_catch (saveOne (env i) componentId extracted savedKeys)
                  (fun error => ret savedKeys) in
      saveLoop env componentId (S i) rest savedKeys'
  end.

Definition processAndSaveExtractedTexts (env : nat → Turn)
    (extractedTexts : list ExtractedText) (componentId : jsstring)
  : M (list jsstring) :=
  saveLoop env componentId 0 extractedTexts [].

Definition transformComponentCode (componentCode : jsstring)
    (extractedTexts : list ExtractedText) : jsstring :=
  let hasInterface := includes componentCode (js "interface") in
  let hasTProps := includes componentCode (js "t: (key: string) => string") in
  if negb hasInterface || negb hasTProps then
    if negb hasInterface then
      match regexMatch exportRegex componentCode with
      | Some functionMatch =>
          let componentName := group1 functionMatch in
          let interfaceDef :=
            [10] ++ js "interface " ++ componentName ++ js "Props {" ++ [10]
            ++ js "  t: (key: string) => string;" ++ [10] ++ js "}" ++ [10; 10] in
          replaceFirst componentCode
            (js "export default function " ++ componentName)
            (interfaceDef ++ js "export default function " ++ componentName)
      | None => componentCode
      end
    else componentCode
  else componentCode.

Record Processed := {
  transformedCode : jsstring;
  extractedTexts : list ExtractedText;
  savedKeys : list jsstring;
}.

Definition processComponentWithTranslations (outcome : FetchOutcome)
    (env : nat → Turn) (originalComponentCode componentId : jsstring)
  : M Processed :=
  let* extractedTexts := extractLocalizationKeys outcome originalComponentCode in
  let* savedKeys :=
    processAndSaveExtractedTexts env extractedTexts componentId in
  let transformedCode :=
    transformComponentCode originalComponentCode extractedTexts in
  ret {| transformedCode := transformedCode;
         extractedTexts := extractedTexts;
         savedKeys := savedKeys |}.

End Pipeline.

(** ** More of [textExtractor.ts] *)

(** [s.replace(/[...]/g, replacement)] for a class of single characters:
    every character of the class gives way to [replacement], in which [$&]
    stands for the character. *)
Definition replaceEach (class : N → bool) (replacement : N → jsstring)
    (s : jsstring) : jsstring :=
  flat_map (fun c => if class c then replacement c else [c]) s.

(** The class of [escapeRegExp]: full stop, asterisk, plus, question mark,
    caret, dollar, the braces, the parentheses, vertical bar, the square
    brackets and the backslash. *)
Definition regExpSpecials : list N :=
  [46; 42; 43; 63; 94; 36; 123; 125; 40; 41; 124; 91; 93; 92].

Definition escapeRegExp (string : jsstring) : jsstring :=
  replaceEach (fun c => bool_decide (c ∈ regExpSpecials))
              (fun c => [92; c]) string.

(** [JSON.stringify] of a string: the quotation mark and the backslash are
    escaped, so are the control characters and the surrogates that stand
    alone. *)
Definition hexDigit (n : N) : N := if n <? 10 then 48 + n else 87 + n.

Definition unicodeEscape (c : N) : jsstring :=
  [92; 117; hexDigit (c / 4096); hexDigit ((c / 256) mod 16);
   hexDigit ((c / 16) mod 16); hexDigit (c mod 16)].

Definition isHighSurrogate (c : N) : bool := (55296 <=? c) && (c <? 56320).
Definition isLowSurrogate (c : N) : bool := (56320 <=? c) && (c <? 57344).

Definition quoteChar (c : N) : jsstring :=
  if c =? 8 then js "\b" else if c =? 9 then js "\t"
  else if c =? 10 then js "\n" else if c =? 12 then js "\f"
  else if c =? 13 then js "\r" else if c =? 34 then [92; 34]
  else if c =? 92 then [92; 92]
  else if c <? 32 then unicodeEscape c
  else [c].

Fixpoint quoteJSONString (s : jsstring) : jsstring :=
  match s with
  | [] => []
  | c :: s' =>
      if isHighSurrogate c then
        match s' with
        | d :: s'' =>
            if isLowSurrogate d then c :: d :: quoteJSONString s''
            else unicodeEscape c ++ quoteJSONString s'
        | [] => unicodeEscape c
        end
      else if isLowSurrogate c then unicodeEscape c ++ quoteJSONString s'
      else quoteChar c ++ quoteJSONString s'
  end.

(** [JSON.stringify] of an object whose values are strings, its properties
    in the order of their creation. *)
Fixpoint stringifyProperties (properties : list (jsstring * jsstring))
  : jsstring :=
  match properties with
  | [] => []
  | [(k, v)] =>
      [34] ++ quoteJSONString k ++ [34; 58; 34] ++ quoteJSONString v ++ [34]
  | (k, v) :: rest =>
      [34] ++ quoteJSONString k ++ [34; 58; 34] ++ quoteJSONString v ++ [34; 44]
      ++ stringifyProperties rest
  end.

Definition JSON_stringify (properties : list (jsstring * jsstring)) : jsstring :=
  [123] ++ stringifyProperties properties ++ [125].

(** The second half of [textExtractor.ts]: the functions above once more,
    letter for letter, then the demo props and an orchestrator that returns
    them too. *)
Module V2.
Section Pipeline.
Variable toLowerCase : jsstring → jsstring.

Definition determineComponentType (componentCode : jsstring) : jsstring :=
  let code := toLowerCase componentCode in
  if includes code (js "<nav") || includes code (js "navigation")
     || includes code (js "navbar") || includes code (js "menu")
  then js "navigation"
  else if includes code (js "<form") || includes code (js "<input")
          || includes code (js "onsubmit")
  then js "form"
  else if includes code (js "<card") || includes code (js "card")
  then js "card"
  else if includes code (js "<modal") || includes code (js "modal")
  then js "modal"
  else if includes code (js "<button") || includes code (js "button")
  then js "button"
  else js "component".

Definition commonNavKeys : list (jsstring * jsstring) :=
  [(js "nav_home", js "navigation"); (js "nav_about", js "navigation");
   (js "nav_services", js "navigation"); (js "nav_contact", js "navigation")].

Definition navEntry (navKey : jsstring) (translations : Translations)
    (dateNow : N) : LocalizationEntry.t :=
  {| LocalizationEntry.id :=
       js "nav_" ++ navKey ++ js "_" ++ numberToString dateNow;
     LocalizationEntry.key := navKey;
     LocalizationEntry.en := en translations;
     LocalizationEntry.es := es translations;
     LocalizationEntry.fr := fr translations;
     LocalizationEntry.de := de translations;
     LocalizationEntry.ja := ja translations;
     LocalizationEntry.zh := zh translations |}.

(** The [for] loop of [ensureNavigationTranslations]; turn [i] brings the
    value of [Date.now()] and what other tasks do before the insert. *)
Fixpoint navLoop (env : nat → Turn) (i : nat)
    (navKeys : list (jsstring * jsstring))
    (data_translations : gmap jsstring Translations) : M unit :=
  match navKeys with
  | [] => ret tt
  | navKey :: rest =>
      match data_translations !! fst navKey with
      | Some translations =>
          try_catch
            (let newEntry := navEntry (fst navKey) translations (now (env i)) in
             runOthers (before (env i)) ;;;
             LocalizationDB.create newEntry)
            (fun _ => ret tt)
      | None => ret tt
      end ;;;
      navLoop env (S i) rest data_translations
  end.

Definition ensureNavigationTranslations (outcome : FetchOutcome)
    (env : nat → Turn) : M unit :=
  try_catch
    (log_request (map (fun k => (fst k, Some (snd k))) commonNavKeys) ;;;
     match outcome with
     | FetchThrows => throw FetchFailure
     | ResponseNotOk => ret tt
     | ResponseJson true (Some data_translations) =>
         navLoop env 0 commonNavKeys data_translations
     | ResponseJson _ _ => ret tt
     end)
    (fun error => ret tt).

Definition generateDemoProps (outcome : FetchOutcome) (env : nat → Turn)
    (componentCode : jsstring) : M jsstring :=
  let componentType := determineComponentType componentCode in
  let demoProps := [(js "t", js "t")] in
  let* demoProps :=
    if bool_decide (componentType = js "button") then
      ret (demoProps ++
           [(js "onClick", js "() => console.log('Button clicked!')")])
    else if bool_decide (componentType = js "form") then
      ret (demoProps ++
           [(js "onSubmit", js "() => console.log('Form submitted!')")])
    else if bool_decide (componentType = js "navigation") then
      ensureNavigationTranslations outcome env ;;; ret demoProps
    else ret demoProps in
  ret (JSON_stringify demoProps).

Record Processed := {
  transformedCode : jsstring;
  extractedTexts : list ExtractedText;
  savedKeys : list jsstring;
  demoProps : jsstring;
}.

(** The two calls of [fetch] and the two loops of inserts each have their
    own outcome and turns. *)
Definition processComponentWithTranslations (outcome : FetchOutcome)
    (env : nat → Turn) (navOutcome : FetchOutcome) (navEnv : nat → Turn)
    (originalComponentCode componentId : jsstring) : M Processed :=
  let* extractedTexts :=
    extractLocalizationKeys toLowerCase outcome originalComponentCode in
  let* savedKeys :=
    processAndSaveExtractedTexts env extractedTexts componentId in
  let* demoProps := generateDemoProps navOutcome navEnv originalComponentCode in
  let transformedCode :=
    transformComponentCode originalComponentCode extractedTexts in
  ret {| transformedCode := transformedCode;
         extractedTexts := extractedTexts;
         savedKeys := savedKeys;
         demoProps := demoProps |}.

End Pipeline.
End V2.

(** ** The hook [useTranslations] (the last part of [textExtractor.ts]) *)

Module useTranslations.

(** The names that every object inherits from [Object.prototype]; what they
    hold is a function or an object, never a string. *)
Definition objectPrototypeNames : list jsstring :=
  [js "constructor"; js "__defineGetter__"; js "__defineSetter__";
   js "hasOwnProperty"; js "__lookupGetter__"; js "__lookupSetter__";
   js "isPrototypeOf"; js "propertyIsEnumerable"; js "toString";
   js "valueOf"; js "__proto__"; js "toLocaleString"].

(** The effect of the hook, as a change of the state [translations]: what
    the store gives for the locale, or the state as it was when the store
    throws.  The state starts as the empty object. *)
Definition loadTranslations (locale : jsstring)
    (translations : gmap jsstring jsstring) : M (gmap jsstring jsstring) :=
  try_catch (LocalizationDB.getTranslations locale)
            (fun error => ret translations).

(** [translations[key] || key]; [None] stands for what is inherited from
    [Object.prototype], which is no string. *)
Definition t (translations : gmap jsstring jsstring) (key : jsstring)
  : option jsstring :=
  match translations !! key with
  | Some [] => Some key
  | Some value => Some value
  | None =>
      if bool_decide (key ∈ objectPrototypeNames) then None else Some key
  end.

End useTranslations.

(** ** The name of a component ([Editor.tsx]) *)

Module Editor.

Definition isAlphanumeric (c : N) : bool :=
  ((97 <=? c) && (c <=? 122)) || ((65 <=? c) && (c <=? 90))
  || ((48 <=? c) && (c <=? 57)).

(** The class [\s]: white space and line terminators. *)
Definition isWhiteSpace (c : N) : bool :=
  ((9 <=? c) && (c <=? 13)) || (c =? 32) || (c =? 160) || (c =? 5760)
  || ((8192 <=? c) && (c <=? 8202)) || (c =? 8232) || (c =? 8233)
  || (c =? 8239) || (c =? 8287) || (c =? 12288) || (c =? 65279).

(** The characters outside the class of the [replace], which stay. *)
Definition isKept (c : N) : bool := isAlphanumeric c || isWhiteSpace c.

(** [s.split(sep)], [sep] one character. *)
Fixpoint split (sep : N) (s : jsstring) : list jsstring :=
  match s with
  | [] => [[]]
  | c :: s' =>
      if c =? sep then [] :: split sep s'
      else match split sep s' with
           | word :: words => (c :: word) :: words
           | [] => [[c]]
           end
  end.

(** [word.charAt(0).toUpperCase() + word.slice(1)] on a word of letters
    [a-z], [A-Z], digits and white space, where [toUpperCase] changes the
    letters [a-z] only. *)
Definition capitalize (word : jsstring) : jsstring :=
  match word with
  | [] => []
  | c :: rest => (if (97 <=? c) && (c <=? 122) then c - 32 else c) :: rest
  end.

(** The name that [processComponent] gives to a component. *)
Definition componentName (userPrompt : jsstring) : jsstring :=
  concat
    (map capitalize
       (take 3
          (split 32
             (replaceEach (fun c => negb (isKept c)) (fun _ => [])
                          userPrompt))))
  ++ js "Component".

End Editor.

(** ** Words of the specification *)

(** *** Calls in a text *)

(** The text of a call [t(<q>k<q'>)]. *)
Definition tCall (k : jsstring) (q q' : N) : jsstring :=
  [116; 40; q] ++ k ++ [q'; 41].

(** The three quote characters: single quote, double quote, backtick. *)
Definition quoteChars : list N := [39; 34; 96].

(** A literal the extractor takes for a key: not empty, no quote character. *)
Definition plainLiteral (k : jsstring) : Prop :=
  k ≠ [] ∧ Forall (fun c => isQuote c = false) k.

(** At position [p] of [code] stands a call whose literal is [k]. *)
Definition callAt (code : jsstring) (p : nat) (k : jsstring) : Prop :=
  ∃ q q' pre post,
    code = pre ++ tCall k q q' ++ post ∧ length pre = p ∧
    isQuote q = true ∧ isQuote q' = true ∧ plainLiteral k.


(** The calls of [code] from position [from] on, read from left to right:
    each is the leftmost one that starts at or after the end of the one
    before. *)
Inductive CallSites (code : jsstring) : nat → list (nat * jsstring) → Prop :=
| sites_done from :
    (∀ p k, from ≤ p → ¬ callAt code p k)%nat →
    CallSites code from []
| sites_next from p k sites :
    (from ≤ p)%nat →
    callAt code p k →
    (∀ p' k', from ≤ p' → p' < p → ¬ callAt code p' k')%nat →
    CallSites code (p + length (tCall k 39 39)) sites →
    CallSites code from ((p, k) :: sites).

(** The distinct elements of a list in the order of their first occurrence. *)
Fixpoint firstSeen (l : list jsstring) : list jsstring :=
  match l with
  | [] => []
  | k :: l' => k :: filter (fun k' => k' ≠ k) (firstSeen l')
  end.

(** The longest prefix of [s] made of characters in [p], and what follows. *)
Fixpoint run_of (p : N → bool) (s : jsstring) : jsstring :=
  match s with
  | c :: s' => if p c then c :: run_of p s' else []
  | [] => []
  end.

Fixpoint after_run (p : N → bool) (s : jsstring) : jsstring :=
  match s with
  | c :: s' => if p c then after_run p s' else s
  | [] => []
  end.

(** The label that the extractor gives to a call at position [p]. *)
Definition contextAt (toLowerCase : jsstring → jsstring) (code : jsstring)
    (p : nat) : jsstring :=
  determineContext toLowerCase code (Z.of_nat p).

(** What the loop of the extractor appends for the calls [sites] when the
    keys [usedKeys] have been seen, [contextAt p] being the label at [p]. *)
Fixpoint collect (contextAt : nat → jsstring) (usedKeys : gset jsstring)
    (sites : list (nat * jsstring)) : list ExtractedText :=
  match sites with
  | [] => []
  | (p, k) :: sites' =>
      if bool_decide (k ∈ usedKeys) then collect contextAt usedKeys sites'
      else {| key := k; text := k; context := Some (contextAt p);
              translations := None |}
             :: collect contextAt ({[k]} ∪ usedKeys) sites'
  end.

(** *** Labels *)

(** [pat] occurs in [s]. *)
Definition occursIn (pat s : jsstring) : Prop :=
  ∃ pre post, s = pre ++ pat ++ post.

(** The markers of each label, in the order in which they are tried. *)
Definition contextRules : list (list jsstring * jsstring) :=
  [ ([js "<button"; js "onclick"], js "button");
    ([js "placeholder"], js "placeholder");
    ([js "<h1"; js "<h2"; js "<h3"], js "heading");
    ([js "<label"], js "label");
    ([js "<p>"; js "<span"], js "content") ].

Definition contextLabels : list jsstring :=
  [js "button"; js "placeholder"; js "heading"; js "label"; js "content";
   js "general"].

(** [label] is the label of the first rule of [rules] one of whose markers
    occurs in [window], and [general] when there is none. *)
Inductive Classified (window : jsstring)
  : list (list jsstring * jsstring) → jsstring → Prop :=
| classified_general : Classified window [] (js "general")
| classified_here markers label rules :
    Exists (fun m => occursIn m window) markers →
    Classified window ((markers, label) :: rules) label
| classified_later markers label rules label' :
    Forall (fun m => ¬ occursIn m window) markers →
    Classified window rules label' →
    Classified window ((markers, label) :: rules) label'.

(** *** The translation service *)

(** The translations that the service offers for a key. *)
Definition offered (outcome : FetchOutcome) (k : jsstring)
  : option Translations :=
  match outcome with
  | ResponseJson true (Some data_translations) => data_translations !! k
  | _ => None
  end.

(** The service call failed: an exception, or a response that is not ok. *)
Definition failed (outcome : FetchOutcome) : Prop :=
  outcome = FetchThrows ∨ outcome = ResponseNotOk.

(** The references with what the service offers for their keys. *)
Definition withOffers (outcome : FetchOutcome) (l : list ExtractedText)
  : list ExtractedText :=
  map (fun e => {| key := key e; text := text e; context := context e;
                   translations := offered outcome (key e) |}) l.

(** The world after one more request. *)
Definition logged (r : Request) (w : World) : World :=
  {| db := db w; localStorage := localStorage w; sqlJsLoads := sqlJsLoads w;
     requests := requests w ++ [r] |}.

(** *** The records of the store *)

(** The database that [initializeDatabase] opens: the saved one, or a new one
    with the initial rows; either way with the table [components]. *)
Definition initialTables (saved : option Database) : Database :=
  {| localizations := match saved with
                      | Some d => localizations d
                      | None => initialData
                      end;
     components := ComponentsPresent |}.

(** The records of the store: the rows of [db], or before it is opened the
    rows it is opened with. *)
Definition stored (w : World) : Table :=
  match db w with
  | Some d => localizations d
  | None => localizations (initialTables (localStorage w))
  end.

(** The world after [initializeDatabase] has opened the database. *)
Definition opened (w : World) : World :=
  {| db := Some (initialTables (localStorage w));
     localStorage := Some (initialTables (localStorage w));
     sqlJsLoads := sqlJsLoads w;
     requests := requests w |}.

(** The world after a statement has left the rows [rows] and the database has
    been saved. *)
Definition committed (rows : Table) (d : Database) (w : World) : World :=
  {| db := Some {| localizations := rows; components := components d |};
     localStorage := Some {| localizations := rows; components := components d |};
     sqlJsLoads := sqlJsLoads w;
     requests := requests w |}.

(** Whether the store can be read: it is open, or [initSqlJs] resolves. *)
Definition canOpen (w : World) : bool :=
  negb (isNull (db w)) || sqlJsLoads w.

(** The schema's two constraints, on the open database and on the saved one. *)
Definition wellKeyedTable (rows : Table) : Prop :=
  NoDup (ids rows) ∧ NoDup (keys rows).

Definition wellKeyed (w : World) : Prop :=
  (∀ d, db w = Some d → wellKeyedTable (localizations d)) ∧
  (∀ d, localStorage w = Some d → wellKeyedTable (localizations d)).

(** The computation [m] keeps the property [P] of the world, however it
    ends. *)
Definition preserves {A} (P : World → Prop) (m : M A) : Prop :=
  ∀ w, P w → P (snd (m w)).

(** The computation [m] returns: it does not throw. *)
Definition returns {A} (m : M A) : Prop :=
  ∀ w, ∃ a w', m w = (Ok a, w').

(** What the persisting loop comes to on the rows [rows] when no other task
    runs: the manifest and the rows after it. *)
Fixpoint persist (clock : nat → N) (componentId : jsstring) (i : nat)
    (items : list ExtractedText) (saved : list jsstring) (rows : Table)
  : list jsstring * Table :=
  match items with
  | [] => (saved, rows)
  | e :: rest =>
      if bool_decide (key e ∈ keys rows) then
        persist clock componentId (S i) rest (saved ++ [key e]) rows
      else
        match translations e with
        | None => persist clock componentId (S i) rest saved rows
        | Some t =>
            match sqlInsert (newEntry componentId e t (clock i)) rows with
            | Ok rows' =>
                persist clock componentId (S i) rest (saved ++ [key e]) rows'
            | Throw _ => persist clock componentId (S i) rest saved rows
            end
        end
  end.

(** The saved database is the open one, whenever one is open. *)
Definition synced (w : World) : Prop :=
  ∀ d, db w = Some d → localStorage w = Some d.

(** *** The export of a component *)

(** The interface that [transformComponentCode] writes for a component. *)
Definition interfaceFor (componentName : jsstring) : jsstring :=
  [10] ++ js "interface " ++ componentName ++ js "Props {" ++ [10]
  ++ js "  t: (key: string) => string;" ++ [10] ++ js "}" ++ [10; 10].

(** At position [p] of [code] stand the words [export default function], a
    space and the name [name]: one or more word characters, as many as there
    are. *)
Definition exportAt (code : jsstring) (p : nat) (name : jsstring) : Prop :=
  ∃ pre post,
    code = pre ++ js "export default function " ++ name ++ post ∧
    length pre = p ∧ name ≠ [] ∧
    Forall (fun c => isWordChar c = true) name ∧
    (∀ c, head post = Some c → isWordChar c = false).

(** *** Patterns *)

(** The characters that stand for something else than themselves in a
    pattern: caret, dollar, backslash, full stop, asterisk, plus, question
    mark, the parentheses, the square brackets, the braces and the vertical
    bar. *)
Definition syntaxCharacters : list N :=
  [94; 36; 92; 46; 42; 43; 63; 40; 41; 91; 93; 123; 125; 124].

(** How a pattern made of plain characters and of syntax characters behind a
    backslash is read: each stands for itself.  Other patterns are not
    read. *)
Fixpoint readEscaped (pattern : jsstring) : option (list Atom) :=
  match pattern with
  | [] => Some []
  | c :: rest =>
      if c =? 92 then
        match rest with
        | c' :: rest' =>
            if bool_decide (c' ∈ syntaxCharacters)
            then cons (Chr c') <$> readEscaped rest'
            else None
        | [] => None
        end
      else if bool_decide (c ∈ syntaxCharacters) then None
      else cons (Chr c) <$> readEscaped rest
  end.

(** *** Worlds and inputs of the examples *)

(** A browser that has never run the application, and the same after the
    store has been opened once. *)
Definition freshWorld : World :=
  {| db := None; localStorage := None; sqlJsLoads := true; requests := [] |}.

Definition seededWorld : World := opened freshWorld.

(** The worlds that the application can be in: a fresh browser, then any
    calls of the store's methods, runs of the orchestrator (with other tasks
    in between), resets of the database ([resetDatabase]) and reloads of the
    page, in any order. *)
Inductive Reachable (toLowerCase : jsstring → jsstring) : World → Prop :=
| reach_fresh loads :
    Reachable toLowerCase
      {| db := None; localStorage := None; sqlJsLoads := loads; requests := [] |}
| reach_others w ops :
    Reachable toLowerCase w → Reachable toLowerCase (snd (runOthers ops w))
| reach_getAll w :
    Reachable toLowerCase w →
    Reachable toLowerCase (snd (LocalizationDB.getAll w))
| reach_getTranslations w locale :
    Reachable toLowerCase w →
    Reachable toLowerCase (snd (LocalizationDB.getTranslations locale w))
| reach_process w outcome env code componentId :
    Reachable toLowerCase w →
    Reachable toLowerCase
      (snd (processComponentWithTranslations toLowerCase outcome env code
              componentId w))
| reach_reset w loads :
    Reachable toLowerCase w →
    Reachable toLowerCase
      {| db := None; localStorage := None; sqlJsLoads := loads;
         requests := requests w |}
| reach_reload w loads :
    Reachable toLowerCase w →
    Reachable toLowerCase
      {| db := None; localStorage := localStorage w; sqlJsLoads := loads;
         requests := requests w |}.

Definition sampleCode : jsstring :=
  js "<h1>{t('title')}</h1><p>{t(`body`)} {t('title')}</p>".

Definition sampleSites : list (nat * jsstring) :=
  [(5%nat, js "title"); (25%nat, js "body"); (37%nat, js "title")].



Definition noClock : nat → N := fun _ => 0.

Definition sampleTexts (s : string) : Translations :=
  {| en := js s; es := js s; fr := js s; de := js s; ja := js s; zh := js s |}.

Definition sampleOffer : gmap jsstring Translations :=
  {[ js "title" := sampleTexts "Title" ]}.

(** An item whose key has a record among the initial rows. *)
Definition existingItem : ExtractedText :=
  {| key := js "save_document"; text := js "save_document";
     context := Some (js "button"); translations := None |}.

(** A turn in which another task creates the record of [save_btn] between
    this task's reading of the store and its insert. *)
Definition raceItem : ExtractedText :=
  {| key := js "save_btn"; text := js "save_btn";
     context := Some (js "button");
     translations := Some (sampleTexts "Save") |}.

Definition raceTurn : Turn :=
  {| now := 7;
     before := [];
     between := [OtherCreate
                   (LocalizationEntry.mk (js "comp_1_save_btn_6") (js "save_btn")
                      (js "Save") (js "Guardar") (js "Enregistrer")
                      (js "Speichern") (js "保存") (js "保存"))] |}.

(** A record that the initial rows do not have, and the last of the initial
    rows. *)
Definition sampleEntry : LocalizationEntry.t :=
  LocalizationEntry.mk (js "comp_1_greeting_5") (js "greeting")
    (js "Hello") (js "Hola") (js "Bonjour") (js "Hallo")
    (js "こんにちは") (js "你好").

Definition saveDocumentRow : LocalizationEntry.t :=
  LocalizationEntry.mk (js "13") (js "save_document")
    (js "Save Document") (js "Guardar Documento")
    (js "Enregistrer le Document") (js "Dokument Speichern")
    (js "ドキュメントを保存") (js "保存文档").

(** A browser in which the SQL engine cannot be loaded. *)
Definition brokenWorld : World :=
  {| db := None; localStorage := None; sqlJsLoads := false; requests := [] |}.

Definition exportCode : jsstring :=
  js "export default function Hello({ t }) { return <p>{t('hi')}</p>; }".

(** A browser that holds a database saved before the table of the components
    was there. *)
Definition savedByEarlierVersion : World :=
  {| db := None;
     localStorage := Some {| localizations := [saveDocumentRow];
                             components := ComponentsMissing |};
     sqlJsLoads := true; requests := [] |}.

(** ** Strings and the regular expression *)

Lemma run_of_after_run p s : run_of p s ++ after_run p s = s.
Proof.
  induction s as [|c s IH]; simpl; [done|].
  destruct (p c); simpl; [by rewrite IH | done].
Qed.

Lemma run_of_forall p s : Forall (fun c => p c = true) (run_of p s).
Proof.
  induction s as [|c s IH]; simpl; [constructor|].
  destruct (p c) eqn:E; constructor; auto.
Qed.

Lemma after_run_head p s c s' : after_run p s = c :: s' → p c = false.
Proof.
  induction s as [|x s IH]; simpl; [done|].
  destruct (p x) eqn:E; [done|]. intros [= -> _]. done.
Qed.

Lemma run_of_app p a c b :
  Forall (fun x => p x = true) a → p c = false →
  run_of p (a ++ c :: b) = a ∧ after_run p (a ++ c :: b) = c :: b.
Proof.
  intros Ha Hc. induction Ha as [|x a Hx Ha IH]; simpl.
  - by rewrite Hc.
  - rewrite Hx. destruct IH as [-> ->]. done.
Qed.

(** A greedy run of a class, followed by something that cannot start with a
    character of the class, never has to give characters back. *)
Lemma star_after_run {R} p (k : jsstring → option R) s :
  (∀ c s', p c = true → k (c :: s') = None) →
  star p k s = k (after_run p s).
Proof.
  intros Hk. induction s as [|c s IH]; simpl; [done|].
  destruct (p c) eqn:E; [|done].
  rewrite IH. destruct (k (after_run p s)) eqn:K; [done|].
  by apply Hk.
Qed.

Lemma take_capture (x : N) (a b : jsstring) :
  take (length (x :: a ++ b) - length b) (x :: a ++ b) = x :: a.
Proof.
  change (x :: a ++ b) with ((x :: a) ++ b).
  apply take_app_length'. rewrite length_app. lia.
Qed.

Lemma matchAt_tCall_eq s :
  matchAt tCallRegex s =
  match s with
  | c0 :: c1 :: q :: x :: s4 =>
      if (c0 =? 116) && (c1 =? 40) && isQuote q && notQuote x then
        match after_run notQuote s4 with
        | q' :: c2 :: rest =>
            if isQuote q' && (c2 =? 41) then Some (x :: run_of notQuote s4, rest)
            else None
        | _ => None
        end
      else None
  | _ => None
  end.
Proof.
  unfold matchAt, tCallRegex.
  destruct s as [|c0 [|c1 [|q [|x s4]]]]; cbn [matchAtoms]; try done.
  - by destruct (c0 =? 116).
  - destruct (c0 =? 116); [|done]. by destruct (c1 =? 40).
  - destruct (c0 =? 116); [|done]. destruct (c1 =? 40); [|done]. by destruct (isQuote q).
  - destruct (c0 =? 116); [|done]. destruct (c1 =? 40); [|done].
    destruct (isQuote q); [|done]. cbn [andb].
    destruct (notQuote x) eqn:Hx; [|done].
    rewrite star_after_run.
    + pose proof (run_of_after_run notQuote s4) as Hs.
      remember (run_of notQuote s4) as a eqn:Ea.
      remember (after_run notQuote s4) as b eqn:Eb.
      clear Ea Eb. subst s4.
      destruct b as [|q' [|c2 rest]]; cbn [matchAtoms]; try done.
      * by destruct (isQuote q').
      * destruct (isQuote q'); [|done]. cbn [andb]. destruct (c2 =? 41); [|done].
        by rewrite take_capture.
    + intros c s' Hc. cbn [matchAtoms]. unfold notQuote in Hc.
      by destruct (isQuote c).
Qed.

Lemma notQuote_forall k :
  Forall (fun c => notQuote c = true) k ↔ Forall (fun c => isQuote c = false) k.
Proof.
  apply Forall_proper; [|done]. intros c. unfold notQuote.
  destruct (isQuote c); naive_solver.
Qed.

Lemma matchAt_tCall s k rest :
  matchAt tCallRegex s = Some (k, rest) ↔
  ∃ q q', isQuote q = true ∧ isQuote q' = true ∧ plainLiteral k ∧
          s = tCall k q q' ++ rest.
Proof.
  rewrite matchAt_tCall_eq. split.
  - destruct s as [|c0 [|c1 [|q [|x s4]]]]; try done.
    destruct (c0 =? 116) eqn:E0; [|done]. destruct (c1 =? 40) eqn:E1; [|done].
    destruct (isQuote q) eqn:Eq; [|done]. destruct (notQuote x) eqn:Ex; [|done].
    cbn [andb].
    pose proof (run_of_after_run notQuote s4) as Hs.
    pose proof (run_of_forall notQuote s4) as Hf.
    destruct (after_run notQuote s4) as [|q' [|c2 rest']]; try done.
    destruct (isQuote q') eqn:Eq'; [|done]. destruct (c2 =? 41) eqn:E2; [|done].
    cbn [andb]. intros [= <- <-].
    apply N.eqb_eq in E0, E1, E2. subst.
    exists q, q'. split_and!; try done.
    + split; [done|]. apply notQuote_forall. by constructor.
    + unfold tCall. rewrite <- Hs at 1. simpl. by rewrite <- app_assoc.
  - intros (q & q' & Hq & Hq' & [Hne Hk] & ->).
    destruct k as [|x k]; [done|]. apply notQuote_forall in Hk.
    inversion Hk as [|? ? Hx Hk']; subst.
    unfold tCall. simpl. rewrite Hq, Hx. simpl.
    assert (Hq'n : notQuote q' = false) by (unfold notQuote; by rewrite Hq').
    destruct (run_of_app notQuote k q' (41 :: rest) Hk' Hq'n) as [Hr Ha].
    rewrite <- app_assoc. simpl. rewrite Ha, Hr, Hq'. done.
Qed.

Lemma tCall_length k q q' : length (tCall k q q') = (length k + 5)%nat.
Proof. unfold tCall. rewrite !length_app. simpl. lia. Qed.

Lemma callAt_matchAt code p k :
  callAt code p k ↔ ∃ rest, matchAt tCallRegex (drop p code) = Some (k, rest).
Proof.
  split.
  - intros (q & q' & pre & post & -> & <- & Hq & Hq' & Hk).
    exists post. rewrite drop_app_length. apply matchAt_tCall. eauto 10.
  - intros (rest & H). apply matchAt_tCall in H as (q & q' & Hq & Hq' & Hk & H).
    exists q, q', (take p code), rest. split_and!; try done.
    + by rewrite <- H, take_drop.
    + apply length_take_le. destruct (decide (p ≤ length code)%nat); [done|].
      rewrite drop_ge in H by lia. by destruct k.
Qed.

Lemma callAt_bound code p k : callAt code p k → (p + length (tCall k 39 39) ≤ length code)%nat.
Proof.
  intros (q & q' & pre & post & -> & <- & _).
  rewrite !length_app, !tCall_length. lia.
Qed.

Lemma callAt_fun code p k k' : callAt code p k → callAt code p k' → k = k'.
Proof.
  rewrite !callAt_matchAt. intros [r H] [r' H']. congruence.
Qed.

Lemma searchFrom_Some r s i m e :
  searchFrom r s i = Some (m, e) →
  ∃ n rest,
    matchAt r (drop n s) = Some (group1 m, rest) ∧ index m = (i + n)%nat ∧
    e = (i + n + (length (drop n s) - length rest))%nat ∧
    ∀ n', (n' < n)%nat → matchAt r (drop n' s) = None.
Proof.
  revert i. induction s as [|c s IH]; intros i; simpl.
  - destruct (matchAt r []) as [[cap rest]|] eqn:E; [|done].
    intros [= <- <-]. exists 0%nat, rest. simpl. split_and!; auto; lia.
  - destruct (matchAt r (c :: s)) as [[cap rest]|] eqn:E.
    + intros [= <- <-]. exists 0%nat, rest. simpl. split_and!; auto; lia.
    + intros H. apply IH in H as (n & rest & H1 & H2 & H3 & H4).
      exists (S n), rest. simpl. split_and!; auto; try lia.
      intros [|n'] Hn'; simpl; [done|]. apply H4. lia.
Qed.

Lemma searchFrom_None r s i :
  searchFrom r s i = None → ∀ n, matchAt r (drop n s) = None.
Proof.
  revert i. induction s as [|c s IH]; intros i; simpl.
  - destruct (matchAt r []) as [[cap rest]|] eqn:E; [done|].
    intros _ n. by rewrite drop_nil.
  - destruct (matchAt r (c :: s)) as [[cap rest]|] eqn:E; [done|].
    intros H [|n]; simpl; [done|]. by eapply IH.
Qed.

Lemma exec_Some code from m e :
  exec tCallRegex code from = (Some m, e) →
  (from ≤ index m)%nat ∧ callAt code (index m) (group1 m) ∧
  e = (index m + length (tCall (group1 m) 39 39))%nat ∧
  ∀ p' k', (from ≤ p')%nat → (p' < index m)%nat → ¬ callAt code p' k'.
Proof.
  unfold exec. destruct (length code <? from)%nat eqn:Hlt; [done|].
  apply Nat.ltb_ge in Hlt.
  destruct (searchFrom tCallRegex (drop from code) from) as [[m' e']|] eqn:E; [|done].
  intros [= -> ->].
  apply searchFrom_Some in E as (n & rest & H1 & H2 & H3 & H4).
  rewrite drop_drop in H1.
  assert (Hc : callAt code (index m) (group1 m)).
  { apply callAt_matchAt. exists rest. by rewrite H2. }
  split_and!; [lia|done| |].
  - pose proof H1 as H1'. apply matchAt_tCall in H1' as (q & q' & _ & _ & _ & Hd).
    rewrite H3, H2, drop_drop, Hd, length_app, !tCall_length. lia.
  - intros p' k' Hp1 Hp2. rewrite callAt_matchAt. intros [rest' Hm].
    specialize (H4 (p' - from)%nat). rewrite drop_drop in H4.
    replace (from + (p' - from))%nat with p' in H4 by lia.
    rewrite H4 in Hm by lia. done.
Qed.

Lemma exec_None code from e :
  exec tCallRegex code from = (None, e) →
  ∀ p k, (from ≤ p)%nat → ¬ callAt code p k.
Proof.
  unfold exec. destruct (length code <? from)%nat eqn:Hlt.
  - apply Nat.ltb_lt in Hlt. intros _ p k Hp Hc. apply callAt_bound in Hc. lia.
  - destruct (searchFrom tCallRegex (drop from code) from) as [[m' e']|] eqn:E; [done|].
    intros _ p k Hp. rewrite callAt_matchAt. intros [rest Hm].
    pose proof (searchFrom_None _ _ _ E (p - from)%nat) as H.
    rewrite drop_drop in H. replace (from + (p - from))%nat with p in H by lia.
    congruence.
Qed.

Lemma callSites_exist code from : ∃ sites, CallSites code from sites.
Proof.
  remember (S (length code) - from)%nat as n eqn:Hn.
  revert from Hn. induction n as [n IH] using lt_wf_ind. intros from Hn.
  destruct (exec tCallRegex code from) as [[m|] e] eqn:E.
  - apply exec_Some in E as (H1 & H2 & H3 & H4).
    pose proof (callAt_bound _ _ _ H2) as Hb. rewrite tCall_length in *.
    destruct (IH (S (length code) - e)%nat) with (from := e) as [sites Hs]; [lia|done|].
    exists ((index m, group1 m) :: sites). eapply sites_next; eauto.
    rewrite tCall_length. by rewrite <- H3.
  - exists []. apply sites_done. by eapply exec_None.
Qed.

Lemma exec_leftmost code from p k :
  (from ≤ p)%nat → callAt code p k →
  (∀ p' k', from ≤ p' → p' < p → ¬ callAt code p' k')%nat →
  exec tCallRegex code from =
    (Some {| index := p; group1 := k |}, (p + length (tCall k 39 39))%nat).
Proof.
  intros Hp Hc Hleft.
  destruct (exec tCallRegex code from) as [[m|] e] eqn:E.
  - apply exec_Some in E as (H1 & H2 & H3 & H4).
    assert (index m = p) as Hi.
    { destruct (lt_eq_lt_dec (index m) p) as [[Hlt|Heq]|Hgt]; [|done|].
      + exfalso. exact (Hleft _ _ H1 Hlt H2).
      + exfalso. exact (H4 _ _ Hp Hgt Hc). }
    destruct m as [i g]. simpl in *. subst i.
    rewrite (callAt_fun _ _ _ _ H2 Hc) in *. by subst e.
  - exfalso. eapply exec_None; eauto.
Qed.

Lemma callSites_length code from sites :
  CallSites code from sites → (length sites ≤ length code - from)%nat.
Proof.
  induction 1 as [|from p k sites Hp Hc Hleft Hs IH]; simpl; [lia|].
  apply callAt_bound in Hc. rewrite tCall_length in *. lia.
Qed.

Section Extractor.
Variable toLowerCase : jsstring → jsstring.

Lemma extractLoop_sites code from sites :
  CallSites code from sites →
  ∀ turns acc used, (length sites < turns)%nat →
    extractLoop toLowerCase turns code from acc used =
      Some (acc ++ collect (contextAt toLowerCase code) used sites).
Proof.
  induction 1 as [from Hnone|from p k sites Hp Hc Hleft Hs IH];
    intros [|turns] acc used Hlen; simpl in Hlen; try lia; cbn [extractLoop].
  - destruct (exec tCallRegex code from) as [[m|] e] eqn:E.
    + apply exec_Some in E as (H1 & H2 & _). by destruct (Hnone _ _ H1 H2).
    + by rewrite app_nil_r.
  - rewrite (exec_leftmost _ _ _ _ Hp Hc Hleft). cbn [group1 index collect].
    destruct (bool_decide (k ∈ used)).
    + apply IH. lia.
    + rewrite IH by lia. by rewrite <- app_assoc.
Qed.

Lemma extractedCalls_sites code sites :
  CallSites code 0 sites →
  extractedCalls toLowerCase code = collect (contextAt toLowerCase code) ∅ sites.
Proof.
  intros Hs. unfold extractedCalls.
  rewrite (extractLoop_sites _ _ _ Hs).
  - done.
  - apply callSites_length in Hs. lia.
Qed.

(** The loop of the extractor ends before its turns run out. *)
Lemma extractLoop_enough code :
  ∃ l, extractLoop toLowerCase (S (length code)) code 0 [] ∅ = Some l.
Proof.
  destruct (callSites_exist code 0) as [sites Hs].
  eexists. apply (extractLoop_sites _ _ _ Hs).
  apply callSites_length in Hs. lia.
Qed.
End Extractor.

Lemma collect_keys contextAt used sites :
  map key (collect contextAt used sites) =
  filter (fun k => k ∉ used) (firstSeen (map snd sites)).
Proof.
  revert used. induction sites as [|[p k] sites IH]; intros used; simpl; [done|].
  rewrite filter_cons. destruct (bool_decide_reflect (k ∈ used)) as [Hin|Hnin].
  - rewrite decide_False by auto. rewrite IH.
    rewrite list_filter_filter. apply list_filter_iff. intros x.
    split; [intros H; split; [done|by intros ->]|by intros [? _]].
  - rewrite decide_True by done. simpl. f_equal. rewrite IH.
    rewrite list_filter_filter. apply list_filter_iff. intros x.
    rewrite not_elem_of_union, not_elem_of_singleton. tauto.
Qed.

Lemma firstSeen_elem l k : k ∈ firstSeen l ↔ k ∈ l.
Proof.
  induction l as [|x l IH]; simpl; [done|].
  rewrite !elem_of_cons, list_elem_of_filter, IH.
  destruct (decide (k = x)); tauto.
Qed.

Lemma firstSeen_NoDup l : NoDup (firstSeen l).
Proof.
  induction l as [|x l IH]; simpl; [constructor|].
  constructor.
  - rewrite list_elem_of_filter. by intros [H _].
  - by apply NoDup_filter.
Qed.

(** ** The extractor as a whole *)

Lemma collect_plain contextAt used sites e :
  e ∈ collect contextAt used sites → text e = key e ∧ translations e = None.
Proof.
  revert used. induction sites as [|[p k] sites IH]; intros used; simpl.
  - by intros ?%elem_of_nil.
  - destruct (bool_decide (k ∈ used)); [apply IH|].
    intros [->|H]%elem_of_cons; [done|]. by eapply IH.
Qed.

Lemma withOffers_failed outcome l :
  offered outcome = (fun _ => None) →
  Forall (fun e => translations e = None) l →
  withOffers outcome l = l.
Proof.
  intros Ho Hl. unfold withOffers. induction Hl as [|[k t c tr] l He Hl IH]; simpl; [done|].
  rewrite IH. simpl in He. subst tr. by rewrite Ho.
Qed.

Lemma withOffers_key outcome l : map key (withOffers outcome l) = map key l.
Proof. unfold withOffers. rewrite map_map. done. Qed.

Lemma translateKeys_eq outcome l w :
  Forall (fun e => translations e = None) l →
  translateKeys outcome l w =
    (Ok (withOffers outcome l), logged (map (fun e => (key e, context e)) l) w).
Proof.
  intros Hl. unfold translateKeys, try_catch, bind, log_request, logged.
  destruct outcome as [| |[] [tr|]]; simpl; try done;
    rewrite withOffers_failed; done.
Qed.

Section ExtractorResult.
Variable toLowerCase : jsstring → jsstring.

Lemma extractedCalls_plain code :
  Forall (fun e => text e = key e ∧ translations e = None)
         (extractedCalls toLowerCase code).
Proof.
  destruct (callSites_exist code 0) as [sites Hs].
  rewrite (extractedCalls_sites _ _ _ Hs). apply Forall_forall.
  intros e He. by eapply collect_plain.
Qed.

Lemma extractLocalizationKeys_eq outcome code w :
  extractLocalizationKeys toLowerCase outcome code w =
    (Ok (withOffers outcome (extractedCalls toLowerCase code)),
     match extractedCalls toLowerCase code with
     | [] => w
     | l => logged (map (fun e => (key e, context e)) l) w
     end).
Proof.
  unfold extractLocalizationKeys, try_catch.
  pose proof (extractedCalls_plain code) as Hp.
  destruct (extractedCalls toLowerCase code) as [|e l] eqn:E; [done|].
  cbn [length Nat.ltb Nat.leb].
  rewrite translateKeys_eq; [done|].
  eapply Forall_impl; [exact Hp|]. by intros ? [_ ?].
Qed.
End ExtractorResult.

(** ** The store *)

Lemma initializeDatabase_closed w :
  db w = None →
  initializeDatabase w =
    if sqlJsLoads w then (Ok tt, opened w) else (Throw LoadFailure, w).
Proof.
  destruct w as [d ls sq rq]. simpl. intros ->.
  destruct sq; [|done].
  destruct ls as [[rows []]|]; vm_compute; reflexivity.
Qed.

Lemma initializeDatabase_open w d :
  db w = Some d → initializeDatabase w = (Ok tt, w).
Proof. intros H. unfold initializeDatabase, bind, get_world. by rewrite H. Qed.

Lemma ensureInitialized_open w d :
  db w = Some d → ensureInitialized w = (Ok tt, w).
Proof. intros H. unfold ensureInitialized, bind, get_world. by rewrite H. Qed.

Lemma init_open w d : db w = Some d → LocalizationDB.init w = (Ok tt, w).
Proof. intros H. unfold LocalizationDB.init, bind, get_world. by rewrite H. Qed.

Lemma init_closed w :
  db w = None →
  LocalizationDB.init w =
    if sqlJsLoads w then (Ok tt, opened w) else (Throw LoadFailure, w).
Proof.
  intros H. unfold LocalizationDB.init, bind, get_world. rewrite H. simpl.
  by apply initializeDatabase_closed.
Qed.

(** On an open store the guard at the head of every function does nothing,
    and neither does [init] at the head of every method. *)
Ltac on_open H :=
  unfold bind;
  rewrite ?(init_open _ _ H), ?(ensureInitialized_open _ _ H);
  unfold db_run, db_exec, bind, get_world; rewrite ?H.

Ltac saved_after :=
  unfold set_db, saveDatabaseToLocalStorage, bind, get_world, set_localStorage;
  done.

Lemma method_open {A} (body : M A) w d :
  db w = Some d → bind LocalizationDB.init (fun _ => body) w = body w.
Proof. intros H. by on_open H. Qed.

Lemma getAllLocalizations_open w d :
  db w = Some d →
  getAllLocalizations w = (Ok (sqlSelectAllOrderByKey (localizations d)), w).
Proof. intros H. unfold getAllLocalizations. by on_open H. Qed.

Lemma createLocalization_open entry w d :
  db w = Some d →
  createLocalization entry w =
    match sqlInsert entry (localizations d) with
    | Ok rows => (Ok tt, committed rows d w)
    | Throw e => (Throw e, w)
    end.
Proof.
  intros H. unfold createLocalization. on_open H.
  destruct (sqlInsert entry (localizations d)); [saved_after|done].
Qed.

Lemma updateLocalization_open id field value w d :
  db w = Some d →
  updateLocalization id field value w =
    if bool_decide (field ∈ validFields) then
      match sqlUpdate field value id (localizations d) with
      | Ok rows => (Ok tt, committed rows d w)
      | Throw e => (Throw e, w)
      end
    else (Throw (InvalidField field), w).
Proof.
  intros H. unfold updateLocalization. on_open H.
  destruct (bool_decide (field ∈ validFields)); [|done]. cbn [negb ret].
  on_open H.
  destruct (sqlUpdate field value id (localizations d)); [saved_after|done].
Qed.

Lemma deleteLocalization_open id w d :
  db w = Some d →
  deleteLocalization id w =
    (Ok tt, committed (sqlDelete id (localizations d)) d w).
Proof. intros H. unfold deleteLocalization. on_open H. saved_after. Qed.

Lemma getTranslations_open locale w d :
  db w = Some d →
  getTranslations locale w =
    if bool_decide (locale ∈ validLocales)
    then (Ok (sqlSelectTranslations locale (localizations d)), w)
    else (Throw (InvalidLocale locale), w).
Proof.
  intros H. unfold getTranslations. on_open H.
  destruct (bool_decide (locale ∈ validLocales)); [|done]. cbn [negb ret].
  by on_open H.
Qed.

Lemma getAll_open w d :
  db w = Some d →
  LocalizationDB.getAll w = (Ok (sqlSelectAllOrderByKey (localizations d)), w).
Proof.
  intros H. unfold LocalizationDB.getAll.
  by rewrite (method_open _ _ _ H), (getAllLocalizations_open _ _ H).
Qed.

Lemma create_open entry w d :
  db w = Some d →
  LocalizationDB.create entry w =
    match sqlInsert entry (localizations d) with
    | Ok rows => (Ok tt, committed rows d w)
    | Throw e => (Throw e, w)
    end.
Proof.
  intros H. unfold LocalizationDB.create.
  by rewrite (method_open _ _ _ H), (createLocalization_open _ _ _ H).
Qed.

Lemma update_open id field value w d :
  db w = Some d →
  LocalizationDB.update id field value w =
    if bool_decide (field ∈ validFields) then
      match sqlUpdate field value id (localizations d) with
      | Ok rows => (Ok tt, committed rows d w)
      | Throw e => (Throw e, w)
      end
    else (Throw (InvalidField field), w).
Proof.
  intros H. unfold LocalizationDB.update.
  by rewrite (method_open _ _ _ H), (updateLocalization_open _ _ _ _ _ H).
Qed.

Lemma delete_open id w d :
  db w = Some d →
  LocalizationDB.delete id w =
    (Ok tt, committed (sqlDelete id (localizations d)) d w).
Proof.
  intros H. unfold LocalizationDB.delete.
  by rewrite (method_open _ _ _ H), (deleteLocalization_open _ _ _ H).
Qed.

(** A method called on a store that is not open yet opens it and goes on as
    on the open store, or fails with what [initSqlJs] rejects with. *)
Lemma opened_db w : db (opened w) = Some (initialTables (localStorage w)).
Proof. done. Qed.

Lemma method_closed {A} (body : M A) w :
  db w = None →
  bind LocalizationDB.init (fun _ => body) w =
    if sqlJsLoads w then bind LocalizationDB.init (fun _ => body) (opened w)
    else (Throw LoadFailure, w).
Proof.
  intros H. unfold bind at 1. rewrite (init_closed _ H).
  destruct (sqlJsLoads w); [|done].
  unfold bind. by rewrite (init_open _ _ (opened_db w)).
Qed.

(** ** Reading the store in key order *)

Lemma elem_of_keys k rows :
  k ∈ keys rows ↔ ∃ r, r ∈ rows ∧ LocalizationEntry.key r = k.
Proof.
  unfold keys. rewrite list_elem_of_In, in_map_iff.
  split; intros (r & H1 & H2); exists r; by rewrite ?list_elem_of_In in *.
Qed.

Lemma keys_app rows rows' : keys (rows ++ rows') = keys rows ++ keys rows'.
Proof. apply map_app. Qed.

Lemma insertByKey_elem r r' rows :
  r' ∈ insertByKey r rows ↔ r' = r ∨ r' ∈ rows.
Proof.
  induction rows as [|x rows IH]; simpl.
  - rewrite list_elem_of_singleton, elem_of_nil. tauto.
  - destruct (string_le _ _).
    + by rewrite !elem_of_cons.
    + rewrite !elem_of_cons, IH. tauto.
Qed.

Lemma sqlSelectAllOrderByKey_elem r rows :
  r ∈ sqlSelectAllOrderByKey rows ↔ r ∈ rows.
Proof.
  unfold sqlSelectAllOrderByKey. induction rows as [|x rows IH]; simpl; [done|].
  by rewrite insertByKey_elem, elem_of_cons, IH.
Qed.

Lemma find_existing k rows :
  isNull (find (fun t => bool_decide (LocalizationEntry.key t = k))
               (sqlSelectAllOrderByKey rows))
  = negb (bool_decide (k ∈ keys rows)).
Proof.
  destruct (find _ _) as [r|] eqn:E; simpl; symmetry.
  - apply find_some in E as [Hin Hk].
    rewrite <- list_elem_of_In, sqlSelectAllOrderByKey_elem in Hin.
    apply bool_decide_eq_true in Hk. subst k.
    apply negb_false_iff, bool_decide_eq_true.
    apply elem_of_keys. eauto.
  - apply negb_true_iff, bool_decide_eq_false. intros Hin.
    apply elem_of_keys in Hin as (r & Hr & <-).
    rewrite <- sqlSelectAllOrderByKey_elem, list_elem_of_In in Hr.
    eapply find_none in E; [|exact Hr]. simpl in E.
    by apply bool_decide_eq_false in E.
Qed.

(** ** The persisting loop when no other task runs *)

Section Persisting.
Variable clock : nat → N.
Variable componentId : jsstring.

Lemma saveOne_alone i e saved w d :
  db w = Some d →
  try_catch (saveOne (alone clock i) componentId e saved)
            (fun _ => ret saved) w =
    if bool_decide (key e ∈ keys (localizations d)) then
      (Ok (saved ++ [key e]), w)
    else
      match translations e with
      | None => (Ok saved, w)
      | Some t =>
          match sqlInsert (newEntry componentId e t (clock i)) (localizations d) with
          | Ok rows' => (Ok (saved ++ [key e]), committed rows' d w)
          | Throw _ => (Ok saved, w)
          end
      end.
Proof.
  intros Hdb. unfold try_catch, saveOne, alone. cbn [before between now].
  unfold runOthers. cbn [forEach]. unfold bind at 1. cbn [ret].
  unfold bind at 1. rewrite (getAll_open _ _ Hdb).
  pose proof (find_existing (key e) (localizations d)) as Hf.
  destruct (find _ _) as [r|]; simpl in Hf;
    destruct (bool_decide (key e ∈ keys (localizations d))); try done.
  destruct (translations e) as [t|]; [|done].
  unfold bind at 1. cbn [ret]. unfold bind at 1.
  rewrite (create_open _ _ _ Hdb).
  by destruct (sqlInsert _ _).
Qed.

Lemma sqlInsert_Ok entry rows rows' :
  sqlInsert entry rows = Ok rows' →
  rows' = rows ++ [entry] ∧ (LocalizationEntry.id entry ∉ ids rows) ∧
  (LocalizationEntry.key entry ∉ keys rows).
Proof.
  unfold sqlInsert.
  destruct (bool_decide_reflect (LocalizationEntry.key entry ∈ keys rows)); [done|].
  destruct (bool_decide_reflect (LocalizationEntry.id entry ∈ ids rows)); [done|].
  by intros [= <-].
Qed.

(** The rows are only ever extended, by rows made from the items, each
    under a key that no earlier row has. *)
Lemma persist_grows items : ∀ i saved rows,
  ∃ added,
    snd (persist clock componentId i items saved rows) = rows ++ added ∧
    NoDup (keys added) ∧
    (∀ r, r ∈ added →
       (LocalizationEntry.key r ∉ keys rows) ∧
       ∃ e t j, e ∈ items ∧ translations e = Some t ∧
                r = newEntry componentId e t (clock j)).
Proof.
  induction items as [|e items IH]; intros i saved rows; simpl.
  - exists []. rewrite app_nil_r. split_and!; [done|constructor|].
    by intros r ?%elem_of_nil.
  - assert (Hskip : ∀ saved', ∃ added,
      snd (persist clock componentId (S i) items saved' rows) = rows ++ added ∧
      NoDup (keys added) ∧
      (∀ r, r ∈ added →
         (LocalizationEntry.key r ∉ keys rows) ∧
         ∃ e0 t j, e0 ∈ e :: items ∧ translations e0 = Some t ∧
                  r = newEntry componentId e0 t (clock j))).
    { intros saved'. destruct (IH (S i) saved' rows) as (added & H1 & H2 & H3).
      exists added. split_and!; [done..|].
      intros r Hr. destruct (H3 r Hr) as (Hk & e0 & t & j & He0 & Ht & ->).
      split; [done|]. exists e0, t, j. rewrite elem_of_cons. auto. }
    destruct (bool_decide (key e ∈ keys rows)); [apply Hskip|].
    destruct (translations e) as [t|] eqn:Et; [|apply Hskip].
    destruct (sqlInsert _ rows) as [rows'|err] eqn:Ei; [|apply Hskip].
    apply sqlInsert_Ok in Ei as (-> & Hid & Hkey).
    destruct (IH (S i) (saved ++ [key e]) (rows ++ [newEntry componentId e t (clock i)]))
      as (added & H1 & H2 & H3).
    exists (newEntry componentId e t (clock i) :: added).
    rewrite H1, <- app_assoc. split_and!; [done| |].
    + change (keys (?x :: ?l)) with (LocalizationEntry.key x :: keys l).
      apply NoDup_cons. split; [|done]. intros Hin.
      apply elem_of_keys in Hin as (r & Hr2 & Hr1).
      destruct (H3 r Hr2) as [Hk _]. apply Hk.
      rewrite keys_app. apply elem_of_app. right.
      rewrite Hr1. apply list_elem_of_singleton. done.
    + intros r [->|Hr]%elem_of_cons.
      * split; [done|]. exists e, t, i. rewrite elem_of_cons. auto.
      * destruct (H3 r Hr) as (Hk & e0 & t0 & j & He0 & Ht & ->).
        split.
        -- intros Hin. apply Hk. rewrite keys_app.
           apply elem_of_app. by left.
        -- exists e0, t0, j. rewrite elem_of_cons. auto.
Qed.

Lemma persist_rows_ne items i saved rows entry :
  snd (persist clock componentId i items saved (rows ++ [entry])) ≠ rows.
Proof.
  destruct (persist_grows items i saved (rows ++ [entry])) as (added & -> & _).
  intros H. apply (f_equal length) in H. rewrite !length_app in H. simpl in H. lia.
Qed.

Lemma saveLoop_alone_open items : ∀ i saved w d,
  db w = Some d →
  saveLoop (alone clock) componentId i items saved w =
    (Ok (fst (persist clock componentId i items saved (localizations d))),
     if bool_decide (snd (persist clock componentId i items saved
                                  (localizations d)) = localizations d)
     then w
     else committed (snd (persist clock componentId i items saved
                                  (localizations d))) d w).
Proof.
  induction items as [|e items IH]; intros i saved w d Hdb.
  - simpl. by rewrite bool_decide_eq_true_2.
  - cbn [saveLoop persist]. unfold bind at 1.
    rewrite (saveOne_alone _ _ _ _ _ Hdb).
    destruct (bool_decide (key e ∈ keys (localizations d)));
      [exact (IH _ _ _ _ Hdb)|].
    destruct (translations e) as [t|]; [|exact (IH _ _ _ _ Hdb)].
    destruct (sqlInsert _ _) as [rows'|err] eqn:Ei; [|exact (IH _ _ _ _ Hdb)].
    apply sqlInsert_Ok in Ei as (-> & _ & _).
    rewrite (IH _ _ (committed _ d w) _ eq_refl). cbn [localizations].
    f_equal.
    rewrite (bool_decide_eq_false_2 (_ = localizations d))
      by apply persist_rows_ne.
    case_bool_decide as Hb; [by rewrite Hb|done].
Qed.
End Persisting.

Section PersistingAnyWorld.
Variable clock : nat → N.
Variable componentId : jsstring.

Lemma getAll_closed w :
  db w = None →
  LocalizationDB.getAll w =
    if sqlJsLoads w then LocalizationDB.getAll (opened w)
    else (Throw LoadFailure, w).
Proof. intros H. by apply method_closed. Qed.

Lemma saveOne_alone_closed i e saved w :
  db w = None →
  saveOne (alone clock i) componentId e saved w =
    if sqlJsLoads w then saveOne (alone clock i) componentId e saved (opened w)
    else (Throw LoadFailure, w).
Proof.
  intros H. unfold saveOne, alone. cbn [before between now].
  unfold runOthers. cbn [forEach]. unfold bind at 1 3. cbn [ret].
  unfold bind at 1 3. rewrite (getAll_closed _ H).
  by destruct (sqlJsLoads w).
Qed.

Lemma saveLoop_alone_stuck items : ∀ i saved w,
  db w = None → sqlJsLoads w = false →
  saveLoop (alone clock) componentId i items saved w = (Ok saved, w).
Proof.
  induction items as [|e items IH]; intros i saved w Hdb Hs; [done|].
  cbn [saveLoop]. unfold bind at 1, try_catch.
  rewrite (saveOne_alone_closed _ _ _ _ Hdb), Hs. cbn [ret].
  by apply IH.
Qed.

Lemma saveLoop_alone_closed items i saved w :
  db w = None → sqlJsLoads w = true → items ≠ [] →
  saveLoop (alone clock) componentId i items saved w =
  saveLoop (alone clock) componentId i items saved (opened w).
Proof.
  intros Hdb Hs Hne. destruct items as [|e items]; [done|].
  cbn [saveLoop]. unfold bind at 1 2, try_catch.
  by rewrite (saveOne_alone_closed _ _ _ _ Hdb), Hs.
Qed.

(** The persisting loop when no other task runs, from any world: it
    returns, and the records afterwards are those of [persist]. *)
Lemma saveLoop_alone items i saved w :
  ∃ w',
    saveLoop (alone clock) componentId i items saved w =
      (Ok (if canOpen w
           then fst (persist clock componentId i items saved (stored w))
           else saved), w') ∧
    stored w' = (if canOpen w
                 then snd (persist clock componentId i items saved (stored w))
                 else stored w) ∧
    canOpen w' = canOpen w ∧ sqlJsLoads w' = sqlJsLoads w ∧
    requests w' = requests w ∧
    (snd (persist clock componentId i items saved (stored w)) = stored w →
     db w ≠ None → w' = w).
Proof.
  unfold canOpen, stored. destruct (db w) as [d|] eqn:Hdb; cbn [isNull negb orb].
  - rewrite (saveLoop_alone_open _ _ _ _ _ _ _ Hdb).
    eexists. split; [done|].
    case_bool_decide as Hb.
    + rewrite Hdb. cbn [isNull negb orb]. by rewrite Hb.
    + cbn [committed db isNull negb orb localizations sqlJsLoads requests].
      split_and!; try done.
  - destruct (sqlJsLoads w) eqn:Hs.
    + destruct items as [|e items].
      * exists w. simpl. rewrite Hdb, Hs. split_and!; done.
      * rewrite (saveLoop_alone_closed _ _ _ _ Hdb Hs) by done.
        rewrite (saveLoop_alone_open _ _ _ _ _ _ _ (opened_db w)).
        eexists. split; [done|].
        case_bool_decide as Hb.
        -- cbn [opened db isNull negb orb sqlJsLoads requests].
           split_and!; try done.
        -- cbn [committed opened db isNull negb orb localizations sqlJsLoads requests].
           split_and!; try done.
    + rewrite (saveLoop_alone_stuck _ _ _ _ Hdb Hs).
      exists w. rewrite Hdb, Hs. split_and!; done.
Qed.

(** ** What [persist] does *)

Lemma persist_saved_prefix items : ∀ i saved rows,
  ∃ more, fst (persist clock componentId i items saved rows) = saved ++ more ∧
          more `sublist_of` map key items.
Proof.
  induction items as [|e items IH]; intros i saved rows; simpl.
  - exists []. by rewrite app_nil_r.
  - assert (Hskip : ∀ rows', ∃ more,
      fst (persist clock componentId (S i) items saved rows') = saved ++ more ∧
      more `sublist_of` key e :: map key items).
    { intros rows'. destruct (IH (S i) saved rows') as (more & -> & Hm).
      exists more. split; [done|]. by apply sublist_cons. }
    assert (Hpush : ∀ rows', ∃ more,
      fst (persist clock componentId (S i) items (saved ++ [key e]) rows')
        = saved ++ more ∧
      more `sublist_of` key e :: map key items).
    { intros rows'. destruct (IH (S i) (saved ++ [key e]) rows') as (more & -> & Hm).
      exists (key e :: more). rewrite <- app_assoc. split; [done|].
      by apply sublist_skip. }
    destruct (bool_decide (key e ∈ keys rows)); [apply Hpush|].
    destruct (translations e) as [t|]; [|apply Hskip].
    destruct (sqlInsert _ rows) as [rows'|err]; [apply Hpush|apply Hskip].
Qed.

(** Nothing is written when every item whose key has no record has no
    translations either; the manifest is then made of the keys that have a
    record. *)
Lemma persist_stable items : ∀ i saved rows,
  (∀ e, e ∈ items → key e ∉ keys rows → translations e = None) →
  persist clock componentId i items saved rows =
    (saved ++ filter (fun k => k ∈ keys rows) (map key items), rows).
Proof.
  induction items as [|e items IH]; intros i saved rows H; simpl.
  - by rewrite app_nil_r.
  - assert (Hrest : ∀ e0, e0 ∈ items → key e0 ∉ keys rows → translations e0 = None).
    { intros e0 He0. apply H. rewrite elem_of_cons. auto. }
    rewrite filter_cons.
    destruct (bool_decide_reflect (key e ∈ keys rows)) as [Hin|Hnin].
    + rewrite decide_True by done. rewrite IH by done. by rewrite <- app_assoc.
    + rewrite decide_False by done.
      rewrite (H e) by (rewrite ?elem_of_cons; auto). by apply IH.
Qed.

(** A key that has a record when the loop starts is in the manifest,
    wherever it stands among the items. *)
Lemma persist_existing items : ∀ i saved rows e,
  e ∈ items → key e ∈ keys rows →
  key e ∈ fst (persist clock componentId i items saved rows).
Proof.
  induction items as [|e0 items IH]; intros i saved rows e He Hk.
  - by apply elem_of_nil in He.
  - apply elem_of_cons in He as [->|He].
    + simpl. rewrite bool_decide_eq_true_2 by done.
      destruct (persist_saved_prefix items (S i) (saved ++ [key e0]) rows)
        as (more & -> & _).
      rewrite !elem_of_app, list_elem_of_singleton. auto.
    + simpl. destruct (bool_decide (key e0 ∈ keys rows)); [by apply IH|].
      destruct (translations e0) as [t|]; [|by apply IH].
      destruct (sqlInsert _ rows) as [rows'|err] eqn:Ei; [|by apply IH].
      apply IH; [done|]. apply sqlInsert_Ok in Ei as (-> & _).
      rewrite keys_app, elem_of_app. auto.
Qed.

(** When the items have distinct keys, the manifest is made of the keys
    that have a record when the loop ends. *)
Lemma persist_manifest items : ∀ i saved rows,
  NoDup (map key items) →
  fst (persist clock componentId i items saved rows) =
    saved ++ filter (fun k => k ∈ keys (snd (persist clock componentId i items saved rows)))
                    (map key items).
Proof.
  induction items as [|e items IH]; intros i saved rows Hnd; simpl.
  - by rewrite app_nil_r.
  - apply NoDup_cons in Hnd as [Hne Hnd].
    assert (Hkeep : ∀ saved' rows', key e ∈ keys rows' →
      key e ∈ keys (snd (persist clock componentId (S i) items saved' rows'))).
    { intros saved' rows' Hin.
      destruct (persist_grows clock componentId items (S i) saved' rows')
        as (added & -> & _).
      rewrite keys_app, elem_of_app. auto. }
    assert (Hout : ∀ saved', key e ∉ keys rows →
      key e ∉ keys (snd (persist clock componentId (S i) items saved' rows))).
    { intros saved' Hnin.
      destruct (persist_grows clock componentId items (S i) saved' rows)
        as (added & -> & _ & Hadd).
      rewrite keys_app, elem_of_app. intros [?|Hin]; [done|].
      apply elem_of_keys in Hin as (r & Hr & Hrk).
      destruct (Hadd r Hr) as (_ & e0 & t & j & He0 & _ & ->).
      simpl in Hrk. apply Hne. rewrite <- Hrk.
      apply list_elem_of_In, in_map, list_elem_of_In. done. }
    destruct (bool_decide_reflect (key e ∈ keys rows)) as [Hin|Hnin].
    + rewrite IH by done. rewrite filter_cons, decide_True by auto.
      by rewrite <- app_assoc.
    + destruct (translations e) as [t|].
      * destruct (sqlInsert _ rows) as [rows'|err] eqn:Ei.
        -- rewrite IH by done. rewrite filter_cons, decide_True; [by rewrite <- app_assoc|].
           apply Hkeep. apply sqlInsert_Ok in Ei as (-> & _).
           rewrite keys_app, elem_of_app. right. simpl.
           apply list_elem_of_singleton. done.
        -- rewrite IH by done. rewrite filter_cons, decide_False by auto. done.
      * rewrite IH by done. rewrite filter_cons, decide_False by auto. done.
Qed.
End PersistingAnyWorld.

(** ** The two constraints of the schema hold whatever runs *)

Lemma preserves_ret {A} P (a : A) : preserves P (ret a).
Proof. by intros w. Qed.

Lemma preserves_throw {A} P e : preserves P (@throw A e).
Proof. by intros w. Qed.

Lemma preserves_get_world P : preserves P get_world.
Proof. by intros w. Qed.

Lemma preserves_bind {A B} P (m : M A) (f : A → M B) :
  preserves P m → (∀ a, preserves P (f a)) → preserves P (bind m f).
Proof.
  intros Hm Hf w Hw. unfold bind. specialize (Hm w Hw).
  destruct (m w) as [[a|e] w1]; simpl in *; [by apply Hf|done].
Qed.

Lemma preserves_try_catch {A} P (m : M A) (h : Error → M A) :
  preserves P m → (∀ e, preserves P (h e)) → preserves P (try_catch m h).
Proof.
  intros Hm Hh w Hw. unfold try_catch. specialize (Hm w Hw).
  destruct (m w) as [[a|e] w1]; simpl in *; [done|by apply Hh].
Qed.

Lemma preserves_forEach {A} P (l : list A) (body : A → M unit) :
  (∀ x, preserves P (body x)) → preserves P (forEach l body).
Proof.
  intros Hb. induction l as [|x l IH]; simpl.
  - apply preserves_ret.
  - apply preserves_bind; auto.
Qed.

Create HintDb keeps.
#[local] Hint Resolve preserves_ret preserves_throw preserves_get_world : keeps.

(** Takes a computation apart along its binds and handlers, leaving the
    calls of the store. *)
Ltac keeps :=
  repeat first
    [ solve [auto with keeps]
    | apply preserves_bind; [|intros ?]
    | apply preserves_try_catch; [|intros ?]
    | apply preserves_forEach; intros ? ].

Lemma NoDup_map_filter {A B} (f : A → B) (P : A → Prop)
    `{∀ x, Decision (P x)} (l : list A) :
  NoDup (map f l) → NoDup (map f (filter P l)).
Proof.
  induction l as [|x l IH]; simpl; [done|].
  rewrite NoDup_cons. intros [Hx Hl]. rewrite filter_cons.
  destruct (decide (P x)); [|auto].
  simpl. apply NoDup_cons. split; [|auto].
  intros Hin. apply Hx.
  apply list_elem_of_In, in_map_iff in Hin as (y & Hy1 & Hy2).
  apply list_elem_of_In, list_elem_of_filter in Hy2 as [_ Hy2].
  rewrite <- Hy1. apply list_elem_of_In, in_map, list_elem_of_In. done.
Qed.

Lemma wellKeyedTable_insert entry rows rows' :
  sqlInsert entry rows = Ok rows' → wellKeyedTable rows → wellKeyedTable rows'.
Proof.
  intros (-> & Hid & Hkey)%sqlInsert_Ok [Hi Hk]. unfold wellKeyedTable, ids.
  rewrite keys_app, map_app. simpl. split.
  - apply NoDup_app. split_and!; [done| |apply NoDup_singleton].
    intros x Hx ->%list_elem_of_singleton. done.
  - apply NoDup_app. split_and!; [done| |apply NoDup_singleton].
    intros x Hx ->%list_elem_of_singleton. done.
Qed.

Lemma setField_id field value r :
  LocalizationEntry.id (setField field value r) = LocalizationEntry.id r.
Proof.
  destruct r. unfold setField. repeat case_bool_decide; done.
Qed.

Lemma wellKeyedTable_update field value id rows rows' :
  sqlUpdate field value id rows = Ok rows' →
  wellKeyedTable rows → wellKeyedTable rows'.
Proof.
  unfold sqlUpdate. case_bool_decide as Hk; [|done]. intros [= <-] [Hi _].
  split; [|done]. unfold ids. rewrite map_map.
  erewrite map_ext; [exact Hi|]. intros r. simpl.
  case_bool_decide; [apply setField_id|done].
Qed.

Lemma wellKeyedTable_delete id rows :
  wellKeyedTable rows → wellKeyedTable (sqlDelete id rows).
Proof. intros [Hi Hk]. split; by apply NoDup_map_filter. Qed.

Lemma initialData_wellKeyed : wellKeyedTable initialData.
Proof.
  split; apply (bool_decide_unpack _); vm_compute; exact I.
Qed.

Lemma wellKeyed_opened w : wellKeyed w → wellKeyed (opened w).
Proof.
  intros [_ Hl].
  assert (wellKeyedTable (localizations (initialTables (localStorage w)))).
  { unfold initialTables. destruct (localStorage w) as [d|] eqn:E; simpl.
    - by apply Hl. - apply initialData_wellKeyed. }
  split; intros d [= <-]; done.
Qed.

Lemma wellKeyed_committed rows d w :
  wellKeyedTable rows → wellKeyed (committed rows d w).
Proof. intros H. split; intros d' [= <-]; done. Qed.

Lemma wellKeyed_open w d : wellKeyed w → db w = Some d → wellKeyedTable (localizations d).
Proof. intros [H _]. apply H. Qed.

(** A method keeps the constraints once it does so on every open store. *)
Lemma preserves_method {A} (body : M A) :
  (∀ w d, db w = Some d → wellKeyed w →
          wellKeyed (snd (bind LocalizationDB.init (fun _ => body) w))) →
  preserves wellKeyed (bind LocalizationDB.init (fun _ => body)).
Proof.
  intros Hopen w Hw. destruct (db w) as [d|] eqn:Hdb; [by eapply Hopen|].
  rewrite (method_closed _ _ Hdb). destruct (sqlJsLoads w); [|done].
  eapply Hopen; [apply opened_db|by apply wellKeyed_opened].
Qed.

Lemma getAll_preserves : preserves wellKeyed LocalizationDB.getAll.
Proof.
  apply preserves_method. intros w d Hdb Hw.
  change (wellKeyed (snd (LocalizationDB.getAll w))).
  by rewrite (getAll_open _ _ Hdb).
Qed.

Lemma create_preserves entry : preserves wellKeyed (LocalizationDB.create entry).
Proof.
  apply preserves_method. intros w d Hdb Hw.
  change (wellKeyed (snd (LocalizationDB.create entry w))).
  rewrite (create_open _ _ _ Hdb).
  destruct (sqlInsert entry (localizations d)) as [rows|e] eqn:E; [|done].
  apply wellKeyed_committed. eapply wellKeyedTable_insert; [exact E|].
  by eapply wellKeyed_open.
Qed.

Lemma update_preserves id field value :
  preserves wellKeyed (LocalizationDB.update id field value).
Proof.
  apply preserves_method. intros w d Hdb Hw.
  change (wellKeyed (snd (LocalizationDB.update id field value w))).
  rewrite (update_open _ _ _ _ _ Hdb).
  destruct (bool_decide _); [|done].
  destruct (sqlUpdate _ _ _ _) as [rows|e] eqn:E; [|done].
  apply wellKeyed_committed. eapply wellKeyedTable_update; [exact E|].
  by eapply wellKeyed_open.
Qed.

Lemma delete_preserves id : preserves wellKeyed (LocalizationDB.delete id).
Proof.
  apply preserves_method. intros w d Hdb Hw.
  change (wellKeyed (snd (LocalizationDB.delete id w))).
  rewrite (delete_open _ _ _ Hdb).
  apply wellKeyed_committed, wellKeyedTable_delete. by eapply wellKeyed_open.
Qed.

#[local] Hint Resolve getAll_preserves create_preserves update_preserves
  delete_preserves : keeps.

Lemma runOthers_preserves ops : preserves wellKeyed (runOthers ops).
Proof. unfold runOthers, runOther. keeps. destruct x; auto with keeps. Qed.

#[local] Hint Resolve runOthers_preserves : keeps.

Section Invariant.
Variable toLowerCase : jsstring → jsstring.

Lemma saveOne_preserves turn componentId e saved :
  preserves wellKeyed (saveOne turn componentId e saved).
Proof.
  unfold saveOne. keeps.
  destruct (find _ _); [keeps|]. destruct (translations e); keeps.
Qed.

#[local] Hint Resolve saveOne_preserves : keeps.

Lemma saveLoop_preserves env componentId items : ∀ i saved,
  preserves wellKeyed (saveLoop env componentId i items saved).
Proof.
  induction items as [|e items IH]; intros i saved; simpl; keeps.
Qed.

Lemma extractLocalizationKeys_preserves outcome code :
  preserves wellKeyed (extractLocalizationKeys toLowerCase outcome code).
Proof.
  intros w Hw. rewrite extractLocalizationKeys_eq. simpl.
  by destruct (extractedCalls toLowerCase code).
Qed.

#[local] Hint Resolve saveLoop_preserves extractLocalizationKeys_preserves : keeps.

Lemma processComponentWithTranslations_preserves outcome env code componentId :
  preserves wellKeyed
    (processComponentWithTranslations toLowerCase outcome env code componentId).
Proof.
  unfold processComponentWithTranslations, processAndSaveExtractedTexts. keeps.
Qed.

(** The persisting loop returns whatever other tasks do and however the
    store fails. *)
Lemma saveLoop_returns env componentId items : ∀ i saved,
  returns (saveLoop env componentId i items saved).
Proof.
  induction items as [|e items IH]; intros i saved w; simpl.
  - by eexists _, _.
  - unfold bind, try_catch.
    destruct (saveOne (env i) componentId e saved w) as [[a|err] w1]; apply IH.
Qed.

Lemma processComponentWithTranslations_returns outcome env code componentId :
  returns (processComponentWithTranslations toLowerCase outcome env code componentId).
Proof.
  intros w. unfold processComponentWithTranslations, bind.
  rewrite extractLocalizationKeys_eq.
  unfold processAndSaveExtractedTexts.
  edestruct saveLoop_returns as (saved & w' & ->). by eexists _, _.
Qed.
End Invariant.

(** ** The context classifier *)

Lemma startsWith_spec pat s : startsWith pat s = true ↔ ∃ post, s = pat ++ post.
Proof.
  revert s. induction pat as [|p pat IH]; intros s; simpl.
  - split; [eauto|done].
  - destruct s as [|c s].
    + split; [done|]. by intros [post ?].
    + rewrite andb_true_iff, N.eqb_eq, IH. split.
      * intros [-> [post ->]]. eauto.
      * intros [post [= -> ->]]. eauto.
Qed.

Lemma includes_spec s pat : includes s pat = true ↔ occursIn pat s.
Proof.
  unfold occursIn. induction s as [|c s IH]; simpl.
  - rewrite orb_false_r, startsWith_spec. split.
    + intros [post H]. by exists [], post.
    + intros (pre & post & H). symmetry in H.
      apply app_eq_nil in H as [-> H]. apply app_eq_nil in H as [-> ->]. by exists [].
  - rewrite orb_true_iff, startsWith_spec, IH. split.
    + intros [[post H]|(pre & post & ->)].
      * by exists [], post.
      * by exists (c :: pre), post.
    + intros ([|x pre] & post & H).
      * left. by exists post.
      * right. injection H as -> ->. by exists pre, post.
Qed.

Lemma includes_not s pat : includes s pat = false ↔ ¬ occursIn pat s.
Proof. rewrite <- includes_spec. by destruct (includes s pat). Qed.

(** The window that [determineContext] cuts out: the characters of [code] at
    the positions from [max 0 (i - 50)] up to, not including,
    [min (length code) (i + 50)]. *)
Lemma window_lookup code (i : Z) (j : nat) :
  let lo := Z.max 0 (i - 50) in
  let hi := Z.min (Z.of_nat (length code)) (i + 50) in
  substring code lo hi !! j =
    if bool_decide (lo + Z.of_nat j < hi)%Z
    then code !! Z.to_nat (lo + Z.of_nat j) else None.
Proof.
  intros lo hi. unfold substring.
  set (len := Z.of_nat (length code)).
  set (fs := Z.min (Z.max lo 0) len). set (fe := Z.min (Z.max hi 0) len).
  case_bool_decide as Hlt.
  - assert (Z.min fs fe = lo) as -> by lia.
    assert (Z.max fs fe = hi) as -> by lia.
    rewrite lookup_take_lt by lia. rewrite lookup_drop. f_equal. lia.
  - apply lookup_ge_None. rewrite length_take, length_drop. lia.
Qed.

Section Classifier.
Variable toLowerCase : jsstring → jsstring.

Lemma Classified_fun window rules label label' :
  Classified window rules label → Classified window rules label' →
  label = label'.
Proof.
  induction 1 as [|ms l rules Hex|ms l rules l2 Hall Hc IH]; inversion 1; subst;
    try done;
    try (exfalso;
         match goal with
         | HE : Exists _ ?ms, HF : Forall _ ?ms |- _ =>
             apply Exists_exists in HE as (m & Hm & Ho);
             rewrite Forall_forall in HF; by apply (HF m)
         end).
  by apply IH.
Qed.

Lemma determineContext_classified code i :
  Classified (toLowerCase (substring code (Z.max 0 (i - 50))
                             (Z.min (Z.of_nat (length code)) (i + 50))))
             contextRules (determineContext toLowerCase code i).
Proof.
  unfold determineContext, contextRules.
  set (w := toLowerCase _).
  destruct (includes w (js "<button")) eqn:E1;
    [apply classified_here, Exists_cons_hd; by apply includes_spec|].
  destruct (includes w (js "onclick")) eqn:E2;
    [apply classified_here, Exists_cons_tl, Exists_cons_hd; by apply includes_spec|].
  cbn [orb]. apply classified_later.
  { repeat constructor; by apply includes_not. }
  destruct (includes w (js "placeholder")) eqn:E3;
    [apply classified_here, Exists_cons_hd; by apply includes_spec|].
  apply classified_later.
  { repeat constructor; by apply includes_not. }
  destruct (includes w (js "<h1")) eqn:E4;
    [apply classified_here, Exists_cons_hd; by apply includes_spec|].
  destruct (includes w (js "<h2")) eqn:E5;
    [apply classified_here, Exists_cons_tl, Exists_cons_hd; by apply includes_spec|].
  destruct (includes w (js "<h3")) eqn:E6;
    [apply classified_here, Exists_cons_tl, Exists_cons_tl, Exists_cons_hd;
     by apply includes_spec|].
  cbn [orb]. apply classified_later.
  { repeat constructor; by apply includes_not. }
  destruct (includes w (js "<label")) eqn:E7;
    [apply classified_here, Exists_cons_hd; by apply includes_spec|].
  apply classified_later.
  { repeat constructor; by apply includes_not. }
  destruct (includes w (js "<p>")) eqn:E8;
    [apply classified_here, Exists_cons_hd; by apply includes_spec|].
  destruct (includes w (js "<span")) eqn:E9;
    [apply classified_here, Exists_cons_tl, Exists_cons_hd; by apply includes_spec|].
  cbn [orb]. apply classified_later.
  { repeat constructor; by apply includes_not. }
  apply classified_general.
Qed.

Lemma determineContext_label code i :
  determineContext toLowerCase code i ∈ contextLabels.
Proof.
  unfold determineContext, contextLabels.
  repeat match goal with
         | |- context [if ?b then _ else _] => destruct b
         end;
    rewrite !elem_of_cons; tauto.
Qed.
End Classifier.

(** ** The properties of the extractor and of the classifier *)

Lemma isQuote_quoteChars c : isQuote c = true ↔ c ∈ quoteChars.
Proof.
  unfold isQuote, quoteChars. rewrite !orb_true_iff, !N.eqb_eq, !elem_of_cons.
  rewrite elem_of_nil. tauto.
Qed.

Lemma plainLiteral_chars k :
  plainLiteral k ↔ k ≠ [] ∧ ∀ q, q ∈ quoteChars → q ∉ k.
Proof.
  unfold plainLiteral. rewrite Forall_forall. split; intros [Hne H]; (split; [done|]).
  - intros q Hq Hin. apply isQuote_quoteChars in Hq. specialize (H q Hin). congruence.
  - intros c Hc. destruct (isQuote c) eqn:E; [|done].
    apply isQuote_quoteChars in E. by destruct (H c E).
Qed.

Lemma callSites_callAt code from sites :
  CallSites code from sites → ∀ p k, (p, k) ∈ sites → callAt code p k.
Proof.
  induction 1 as [|from p k sites Hp Hc Hleft Hs IH]; intros p0 k0.
  - by intros ?%elem_of_nil.
  - intros [[= -> ->]|Hin]%elem_of_cons; [done|by apply IH].
Qed.

Lemma callSites_step code from m e sites :
  exec tCallRegex code from = (Some m, e) →
  CallSites code e sites →
  CallSites code from ((index m, group1 m) :: sites).
Proof.
  intros (H1 & H2 & H3 & H4)%exec_Some Hs.
  eapply sites_next; eauto. by rewrite <- H3.
Qed.

Lemma callSites_stop code from e :
  exec tCallRegex code from = (None, e) → CallSites code from [].
Proof. intros H. apply sites_done. by eapply exec_None. Qed.

Lemma filter_none {A} (P : A → Prop) `{∀ x, Decision (P x)} (l : list A) :
  Forall (fun x => ¬ P x) l → filter P l = [].
Proof.
  induction 1 as [|x l Hx Hl IH]; [done|]. by rewrite filter_cons_False.
Qed.

Lemma filter_all {A} (P : A → Prop) `{∀ x, Decision (P x)} (l : list A) :
  Forall P l → filter P l = l.
Proof.
  induction 1 as [|x l Hx Hl IH]; [done|]. rewrite filter_cons_True by done.
  by rewrite IH.
Qed.


Section ExtractorProperties.
Variable toLowerCase : jsstring → jsstring.

Lemma extract_keys outcome code w sites :
  CallSites code 0 sites →
  ∃ l w', extractLocalizationKeys toLowerCase outcome code w = (Ok l, w') ∧
          map key l = firstSeen (map snd sites).
Proof.
  intros Hs. rewrite extractLocalizationKeys_eq. eexists _, _. split; [done|].
  rewrite withOffers_key, (extractedCalls_sites _ _ _ Hs), collect_keys.
  apply filter_all, Forall_forall. intros k _. set_solver.
Qed.


(** C10: every key that the extractor returns is a non-empty string that
    holds none of the three quote characters; a call with an empty literal,
    in any of the three quoting styles, gives no reference. *)
Theorem extracted_key_plain outcome code w :
  (∃ l w', extractLocalizationKeys toLowerCase outcome code w = (Ok l, w') ∧
           Forall (fun e => key e ≠ [] ∧ ∀ q, q ∈ quoteChars → q ∉ key e) l) ∧
  Forall (fun q => Forall (fun q' =>
     extractLocalizationKeys toLowerCase outcome (tCall [] q q') w = (Ok [], w))
     quoteChars) quoteChars.
Proof.
  split.
  - destruct (callSites_exist code 0) as [sites Hs].
    destruct (extract_keys outcome code w sites Hs) as (l & w' & Hl & Hk).
    exists l, w'. split; [done|]. apply Forall_forall. intros e He.
    apply plainLiteral_chars.
    assert (key e ∈ map snd sites) as Hin.
    { apply firstSeen_elem. rewrite <- Hk.
      apply list_elem_of_In, in_map, list_elem_of_In. done. }
    apply list_elem_of_In, in_map_iff in Hin as ([p k] & Hpk & Hin). simpl in Hpk.
    subst k. apply list_elem_of_In in Hin.
    by destruct (callSites_callAt _ _ _ Hs _ _ Hin) as (? & ? & ? & ? & _ & _ & _ & _ & ?).
  - repeat constructor; rewrite extractLocalizationKeys_eq; reflexivity.
Qed.

(** C8, amended: a call is recognized at the head of a text exactly when
    the text starts with [t(], one of the three quote characters, a literal
    that is not empty and holds no quote character of any of the three
    styles, one of the three quote characters (not necessarily the opening
    one), and [)]; the literal is the captured key, and the extractor run on
    such a call returns that key alone.  The literal is thus read up to the
    first quote character of any style, and the call is recognized only
    when a closing parenthesis follows at once. *)
Theorem call_recognized_iff s k rest outcome w :
  (matchAt tCallRegex s = Some (k, rest) ↔
   ∃ q q', q ∈ quoteChars ∧ q' ∈ quoteChars ∧
           (k ≠ [] ∧ ∀ c, c ∈ quoteChars → c ∉ k) ∧
           s = tCall k q q' ++ rest) ∧
  (∀ q q', q ∈ quoteChars → q' ∈ quoteChars →
           (k ≠ [] ∧ ∀ c, c ∈ quoteChars → c ∉ k) →
     ∃ l w', extractLocalizationKeys toLowerCase outcome (tCall k q q') w
               = (Ok l, w') ∧ map key l = [k]).
Proof.
  split.
  - rewrite matchAt_tCall. split; intros (q & q' & Hq & Hq' & Hk & Hs);
      exists q, q'; rewrite ?isQuote_quoteChars, ?plainLiteral_chars in *; done.
  - intros q q' Hq Hq' Hk.
    apply plainLiteral_chars in Hk. apply isQuote_quoteChars in Hq, Hq'.
    assert (Hs : CallSites (tCall k q q') 0 [(0%nat, k)]).
    { eapply sites_next; [done| |lia|].
      - exists q, q', [], []. by rewrite app_nil_r.
      - apply sites_done. intros p k' Hp Hc. apply callAt_bound in Hc.
        rewrite !tCall_length in *. lia. }
    by destruct (extract_keys outcome _ w _ Hs) as (l & w' & Hl & Hkeys); eauto.
Qed.
End ExtractorProperties.

(** C4: for every source text and every offset, the classifier looks at the
    characters from position [max 0 (offset - 50)] up to position
    [min (length code) (offset + 50)], lower-cased, and returns the label of
    the first rule of [contextRules] one of whose markers occurs there, or
    [general] when no marker occurs; no other label fits, and the result is
    one of the six labels. *)
Theorem determineContext_first_rule (toLowerCase : jsstring → jsstring)
    (code : jsstring) (matchIndex : Z) :
  let lo := Z.max 0 (matchIndex - 50) in
  let hi := Z.min (Z.of_nat (length code)) (matchIndex + 50) in
  ∃ window,
    (∀ j : nat, window !! j =
                if bool_decide (lo + Z.of_nat j < hi)%Z
                then code !! Z.to_nat (lo + Z.of_nat j) else None) ∧
    Classified (toLowerCase window) contextRules
               (determineContext toLowerCase code matchIndex) ∧
    (∀ label, Classified (toLowerCase window) contextRules label →
              label = determineContext toLowerCase code matchIndex) ∧
    determineContext toLowerCase code matchIndex ∈ contextLabels.
Proof.
  intros lo hi. exists (substring code lo hi). split_and!.
  - intros j. apply window_lookup.
  - apply determineContext_classified.
  - intros label Hl. eapply Classified_fun; [exact Hl|].
    apply determineContext_classified.
  - apply determineContext_label.
Qed.


(** C8 as stated fails: were every call [t(<q>lit<q>)] recognized with the
    literal read up to its first quote character of the delimiter's style,
    the call [t('it\'s')], whose literal holds an escaped single quote, would
    give the key made of [it] and the backslash; the extractor finds no call
    there. *)
Lemma literal_not_cut_at_quote :
  ¬ (∀ q lit, q ∈ quoteChars → lit ≠ [] → head lit ≠ Some q →
       map key (extractedCalls asciiLower (tCall lit q q))
       = [run_of (fun c => negb (c =? q)) lit]).
Proof.
  intros H. specialize (H 39 (js "it\'s")).
  assert (H' := H ltac:(by apply list_elem_of_here) ltac:(done) ltac:(done)).
  vm_compute in H'. discriminate H'.
Qed.

(** ** The properties of the store *)

Lemma objectSet_lookup_ne acc k v k' :
  k' ≠ k → objectSet acc k v !! k' = acc !! k'.
Proof.
  intros Hne. unfold objectSet. case_bool_decide; [done|].
  by rewrite lookup_insert_ne.
Qed.

Lemma sqlSelectTranslations_other locale rows : ∀ acc k,
  k ∉ keys rows →
  foldl (fun acc row => objectSet acc (LocalizationEntry.key row)
                          (orEmpty (getField locale row))) acc rows !! k
  = acc !! k.
Proof.
  induction rows as [|r rows IH]; intros acc k Hk; simpl; [done|].
  change (keys (r :: rows)) with (LocalizationEntry.key r :: keys rows) in Hk.
  apply not_elem_of_cons in Hk as [Hne Hk].
  rewrite IH by done. by apply objectSet_lookup_ne.
Qed.

Lemma sqlSelectTranslations_row locale rows : ∀ acc r,
  NoDup (keys rows) → r ∈ rows → LocalizationEntry.key r ≠ js "__proto__" →
  foldl (fun acc row => objectSet acc (LocalizationEntry.key row)
                          (orEmpty (getField locale row))) acc rows
    !! LocalizationEntry.key r
  = Some (orEmpty (getField locale r)).
Proof.
  induction rows as [|x rows IH]; intros acc r Hnd Hin Hp; simpl.
  - by apply elem_of_nil in Hin.
  - change (keys (x :: rows)) with (LocalizationEntry.key x :: keys rows) in Hnd.
    apply NoDup_cons in Hnd as [Hx Hnd].
    apply elem_of_cons in Hin as [->|Hin]; [|by apply IH].
    rewrite sqlSelectTranslations_other by done.
    unfold objectSet. rewrite bool_decide_eq_false_2 by done.
    by rewrite lookup_insert_eq.
Qed.

Lemma sqlSelectTranslations_dom locale rows : ∀ acc k,
  is_Some (foldl (fun acc row => objectSet acc (LocalizationEntry.key row)
                          (orEmpty (getField locale row))) acc rows !! k) →
  is_Some (acc !! k) ∨ k ∈ keys rows.
Proof.
  induction rows as [|r rows IH]; intros acc k; simpl; [auto|].
  intros [H|H]%IH.
  - destruct (decide (k = LocalizationEntry.key r)) as [->|Hne].
    + right. apply list_elem_of_here.
    + left. by rewrite objectSet_lookup_ne in H.
  - right. by apply list_elem_of_further.
Qed.

(** C3, amended: on a database that is already open, [getTranslations]
    returns, for each of the six locales, a mapping whose keys are keys of
    the store and which gives every record's text in that locale (the key
    [__proto__] apart); for every other locale it fails with the error
    [Invalid locale] and [updateLocalization] fails with [Invalid field] for
    every field outside the seven allowed, both leaving the database and
    [localStorage] as they were.  (On a database that is not open yet, both
    first run [initializeDatabase].) *)
Theorem validation_on_open_store w d :
  db w = Some d →
  (∀ locale, locale ∈ validLocales →
     ∃ m, getTranslations locale w = (Ok m, w) ∧
          (∀ k, is_Some (m !! k) → k ∈ keys (localizations d)) ∧
          (NoDup (keys (localizations d)) →
           ∀ r, r ∈ localizations d →
                LocalizationEntry.key r ≠ js "__proto__" →
                m !! LocalizationEntry.key r
                = Some (orEmpty (getField locale r)))) ∧
  (∀ locale, locale ∉ validLocales →
     getTranslations locale w = (Throw (InvalidLocale locale), w)) ∧
  (∀ id field value, field ∉ validFields →
     updateLocalization id field value w = (Throw (InvalidField field), w)).
Proof.
  intros Hdb. split_and!.
  - intros locale Hl. rewrite (getTranslations_open _ _ _ Hdb).
    rewrite bool_decide_eq_true_2 by done. eexists. split; [done|]. split.
    + intros k [H|H]%sqlSelectTranslations_dom; [|done].
      rewrite lookup_empty in H. by destruct H.
    + intros Hnd r Hr Hp. by apply sqlSelectTranslations_row.
  - intros locale Hl. rewrite (getTranslations_open _ _ _ Hdb).
    by rewrite bool_decide_eq_false_2.
  - intros id field value Hf. rewrite (updateLocalization_open _ _ _ _ _ Hdb).
    by rewrite bool_decide_eq_false_2.
Qed.

Lemma validation_on_open_store_witness :
  db seededWorld = Some (initialTables None) ∧
  (∀ locale, locale ∈ validLocales →
     ∃ m, getTranslations locale seededWorld = (Ok m, seededWorld) ∧
          (∀ k, is_Some (m !! k) → k ∈ keys (localizations (initialTables None))) ∧
          (NoDup (keys (localizations (initialTables None))) →
           ∀ r, r ∈ localizations (initialTables None) →
                LocalizationEntry.key r ≠ js "__proto__" →
                m !! LocalizationEntry.key r
                = Some (orEmpty (getField locale r)))) ∧
  (∀ locale, locale ∉ validLocales →
     getTranslations locale seededWorld
     = (Throw (InvalidLocale locale), seededWorld)) ∧
  (∀ id field value, field ∉ validFields →
     updateLocalization id field value seededWorld
     = (Throw (InvalidField field), seededWorld)).
Proof.
  split; [reflexivity|].
  exact (validation_on_open_store seededWorld (initialTables None) eq_refl).
Defined.

(** C3 as stated fails: on a browser where the database is not open yet, a
    call with a locale (or a field) outside the allowed set opens, seeds and
    saves the database before it rejects; and when [initSqlJs] fails the
    error is that failure, not [Invalid locale]. *)
Lemma rejection_after_opening :
  getTranslations (js "xx") freshWorld
    = (Throw (InvalidLocale (js "xx")), seededWorld) ∧
  updateLocalization (js "1") (js "id") (js "x") freshWorld
    = (Throw (InvalidField (js "id")), seededWorld) ∧
  localStorage freshWorld = None ∧
  localStorage seededWorld = Some (initialTables None) ∧
  getTranslations (js "xx")
    {| db := None; localStorage := None; sqlJsLoads := false; requests := [] |}
    = (Throw LoadFailure,
       {| db := None; localStorage := None; sqlJsLoads := false; requests := [] |}).
Proof. split_and!; vm_compute; reflexivity. Qed.

Lemma getTranslations_preserves locale :
  preserves wellKeyed (LocalizationDB.getTranslations locale).
Proof.
  apply preserves_method. intros w d Hdb Hw.
  change (wellKeyed (snd (LocalizationDB.getTranslations locale w))).
  unfold LocalizationDB.getTranslations, bind.
  rewrite (init_open _ _ Hdb), (getTranslations_open _ _ _ Hdb).
  by destruct (bool_decide _).
Qed.

Lemma wellKeyed_stored w : wellKeyed w → wellKeyedTable (stored w).
Proof.
  intros [Hd Hl]. unfold stored. destruct (db w) as [d|]; [by apply Hd|].
  unfold initialTables. destruct (localStorage w) as [d|]; simpl; [by apply Hl|].
  apply initialData_wellKeyed.
Qed.

Section StoreProperties.
Variable toLowerCase : jsstring → jsstring.

Lemma Reachable_wellKeyed w : Reachable toLowerCase w → wellKeyed w.
Proof.
  induction 1 as [loads|w ops _ IH|w _ IH|w locale _ IH
                 |w outcome env code cid _ IH|w loads _ IH|w loads _ IH].
  - split; intros d; discriminate.
  - by apply runOthers_preserves.
  - by apply getAll_preserves.
  - by apply getTranslations_preserves.
  - by apply processComponentWithTranslations_preserves.
  - split; intros d; discriminate.
  - destruct IH as [_ Hl]. split; [intros d; discriminate|done].
Qed.

Lemma stored_logged r w : stored (logged r w) = stored w.
Proof. done. Qed.

(** The orchestrator when no other task runs, from any world. *)
Lemma process_alone outcome clock code componentId w :
  let items := withOffers outcome (extractedCalls toLowerCase code) in
  ∃ w',
    processComponentWithTranslations toLowerCase outcome (alone clock) code
      componentId w =
    (Ok {| transformedCode := transformComponentCode code items;
           extractedTexts := items;
           savedKeys := if canOpen w
                        then fst (persist clock componentId 0 items [] (stored w))
                        else [] |}, w') ∧
    stored w' = (if canOpen w
                 then snd (persist clock componentId 0 items [] (stored w))
                 else stored w) ∧
    canOpen w' = canOpen w.
Proof.
  intros items. unfold processComponentWithTranslations, bind.
  rewrite extractLocalizationKeys_eq. fold items.
  unfold processAndSaveExtractedTexts.
  set (w1 := match extractedCalls toLowerCase code with
             | [] => w
             | e :: l => logged (map (fun e0 => (key e0, context e0)) (e :: l)) w
             end).
  assert (Hs : stored w1 = stored w ∧ canOpen w1 = canOpen w)
    by (subst w1; by destruct (extractedCalls toLowerCase code)).
  destruct Hs as [Hs Hc].
  destruct (saveLoop_alone clock componentId items 0 [] w1)
    as (w' & -> & H1 & H2 & _).
  rewrite Hs, Hc in *. exists w'. split_and!; done.
Qed.

(** C5: in every world that the application can reach, the store holds at
    most one record per key (and per id); a record is inserted only under
    a key that no record has; and a run of the orchestrator, when no other
    task runs, leaves every record that the store had as it was: the
    records afterwards are those before, followed by new records under
    keys that had none. *)
Theorem one_record_per_key :
  (∀ w, Reachable toLowerCase w →
        NoDup (keys (stored w)) ∧ NoDup (ids (stored w))) ∧
  (∀ entry rows rows',
     sqlInsert entry rows = Ok rows' →
     (LocalizationEntry.key entry ∉ keys rows) ∧ rows' = rows ++ [entry]) ∧
  (∀ outcome clock code componentId w,
     ∃ r w' added,
       processComponentWithTranslations toLowerCase outcome (alone clock) code
         componentId w = (Ok r, w') ∧
       stored w' = stored w ++ added ∧
       ∀ row, row ∈ added → LocalizationEntry.key row ∉ keys (stored w)).
Proof.
  split_and!.
  - intros w Hw. apply Reachable_wellKeyed, wellKeyed_stored in Hw as [? ?]. done.
  - intros entry rows rows' (-> & _ & Hk)%sqlInsert_Ok. done.
  - intros outcome clock code cid w.
    destruct (process_alone outcome clock code cid w) as (w' & Hrun & Hst & _).
    destruct (canOpen w).
    + destruct (persist_grows clock cid
                  (withOffers outcome (extractedCalls toLowerCase code)) 0 []
                  (stored w)) as (added & Ha & _ & Hadd).
      eexists _, w', added. split_and!; [exact Hrun|by rewrite Hst|].
      intros row Hrow. by destruct (Hadd row Hrow).
    + eexists _, w', []. rewrite app_nil_r. split_and!; [exact Hrun|done|].
      by intros row ?%elem_of_nil.
Qed.
End StoreProperties.

(** ** The properties of the orchestrator *)

Lemma offered_failed outcome : failed outcome → offered outcome = fun _ => None.
Proof. by intros [-> | ->]. Qed.

Lemma runOthers_returns ops w : ∃ w0, runOthers ops w = (Ok tt, w0).
Proof.
  revert w. induction ops as [|op ops IH]; intros w; simpl.
  - by eexists.
  - unfold runOthers in *. cbn [forEach]. unfold bind at 1, runOther, try_catch.
    destruct (match op with
              | OtherCreate entry => LocalizationDB.create entry
              | OtherUpdate id field value => LocalizationDB.update id field value
              | OtherDelete id => LocalizationDB.delete id
              end w) as [[[]|e] w1]; apply IH.
Qed.

Section OrchestratorProperties.
Variable toLowerCase : jsstring → jsstring.

(** C1, amended: if the translation service call fails (an exception, or
    a response that is not ok), the orchestrator returns normally, whatever
    other tasks do; and, when no other task runs, every extracted text has
    its key as text and no translations, and no record is persisted: the
    records of the store are those before the run, and the manifest holds
    the extracted keys that already had a record (none when the store cannot
    be opened). *)
Theorem failed_translation_keeps_store outcome clock code componentId w :
  failed outcome →
  (∀ env, returns (processComponentWithTranslations toLowerCase outcome env
                     code componentId)) ∧
  ∃ r w',
    processComponentWithTranslations toLowerCase outcome (alone clock) code
      componentId w = (Ok r, w') ∧
    Forall (fun e => text e = key e ∧ translations e = None)
           (extractedTexts r) ∧
    stored w' = stored w ∧
    savedKeys r =
      (if canOpen w
       then filter (fun k => k ∈ keys (stored w)) (map key (extractedTexts r))
       else []).
Proof.
  intros Hf.
  split; [intros env; apply processComponentWithTranslations_returns|].
  destruct (process_alone toLowerCase outcome clock code componentId w)
    as (w' & Hrun & Hst & _).
  rewrite withOffers_failed in Hrun, Hst.
  2,4: by apply offered_failed.
  2,3: eapply Forall_impl; [apply extractedCalls_plain|]; by intros ? [_ ?].
  rewrite persist_stable in Hrun, Hst.
  2,3: intros e He _;
       by destruct (proj1 (Forall_forall _ _)
                      (extractedCalls_plain toLowerCase code) e He).
  eexists _, w'. split; [exact Hrun|]. cbn [extractedTexts savedKeys fst snd] in *.
  split_and!.
  - apply extractedCalls_plain.
  - by destruct (canOpen w).
  - done.
Qed.

(** C6, amended: the orchestrator run twice on the same source text, with
    no other task running, returns both times and leaves at most one record
    per key; and when the translation service offers in the second run
    nothing for the keys that the first run left out of its manifest (in
    particular when the first manifest holds every extracted key), the second
    manifest is the first one and the second run leaves the records of the
    store as the first run left them, so the number of records of each key
    is the same. *)
Theorem rerun_same_manifest outcome1 outcome2 clock1 clock2 code
    componentId1 componentId2 w :
  ∃ r1 w1 r2 w2,
    processComponentWithTranslations toLowerCase outcome1 (alone clock1) code
      componentId1 w = (Ok r1, w1) ∧
    processComponentWithTranslations toLowerCase outcome2 (alone clock2) code
      componentId2 w1 = (Ok r2, w2) ∧
    (wellKeyed w → NoDup (keys (stored w2))) ∧
    ((∀ k, k ∈ map key (extractedTexts r1) → k ∉ savedKeys r1 →
           offered outcome2 k = None) →
     savedKeys r2 = savedKeys r1 ∧
     stored w2 = stored w1 ∧
     ∀ k, length (filter (fun row => LocalizationEntry.key row = k) (stored w2))
          = length (filter (fun row => LocalizationEntry.key row = k) (stored w1))).
Proof.
  destruct (process_alone toLowerCase outcome1 clock1 code componentId1 w)
    as (w1 & Hrun1 & Hst1 & Hc1).
  destruct (process_alone toLowerCase outcome2 clock2 code componentId2 w1)
    as (w2 & Hrun2 & Hst2 & Hc2).
  eexists _, w1, _, w2. split; [exact Hrun1|]. split; [exact Hrun2|]. split.
  { intros Hw.
    apply (processComponentWithTranslations_preserves toLowerCase outcome1
             (alone clock1) code componentId1) in Hw.
    rewrite Hrun1 in Hw. cbn [snd] in Hw.
    apply (processComponentWithTranslations_preserves toLowerCase outcome2
             (alone clock2) code componentId2) in Hw.
    rewrite Hrun2 in Hw. cbn [snd] in Hw.
    by apply wellKeyed_stored in Hw as [_ ?]. }
  cbn [extractedTexts savedKeys]. intros H.
  rewrite Hc1 in *. destruct (canOpen w) eqn:Hopen.
  - rewrite !withOffers_key in H.
    set (items1 := withOffers outcome1 (extractedCalls toLowerCase code)) in *.
    set (items2 := withOffers outcome2 (extractedCalls toLowerCase code)) in *.
    assert (Hnd : NoDup (map key (extractedCalls toLowerCase code))).
    { destruct (callSites_exist code 0) as [sites Hs].
      rewrite (extractedCalls_sites _ _ _ Hs), collect_keys.
      apply NoDup_filter, firstSeen_NoDup. }
    assert (Hk1 : map key items1 = map key (extractedCalls toLowerCase code))
      by apply withOffers_key.
    assert (Hk2 : map key items2 = map key (extractedCalls toLowerCase code))
      by apply withOffers_key.
    assert (Hm1 := persist_manifest clock1 componentId1 items1 0 [] (stored w)).
    rewrite Hk1, <- Hst1 in Hm1. specialize (Hm1 Hnd). simpl in Hm1.
    assert (Hstable : persist clock2 componentId2 0 items2 [] (stored w1) =
              ([] ++ filter (fun k => k ∈ keys (stored w1)) (map key items2),
               stored w1)).
    { apply persist_stable. intros e He Hk.
      unfold items2, withOffers in He.
      apply list_elem_of_In, in_map_iff in He as (e0 & <- & He0). simpl in *.
      apply H.
      - apply list_elem_of_In, in_map, He0.
      - rewrite Hm1. rewrite list_elem_of_filter. tauto. }
    rewrite Hstable in Hst2 |- *. cbn [fst snd] in *.
    rewrite Hk2, Hm1. split_and!; [done|done|].
    intros k. by rewrite Hst2.
  - split_and!; [done|done|]. intros k. by rewrite Hst2.
Qed.
End OrchestratorProperties.

(** C9, amended: [processAndSaveExtractedTexts] returns whatever other tasks
    do and however the store fails; a key whose record exists when the turn
    reads the store goes into the manifest and nothing is written in that
    turn; when no other task runs, every item whose key had a record is in
    the manifest, wherever it stands among the items, and the records that
    were there stay as they were; and a turn in which the store throws (a
    conflict on insert among others) is ended there with the manifest as it
    was (the key is left out), the loop going on with the remaining items. *)
Theorem existing_key_kept_error_caught :
  (∀ env items componentId,
     returns (processAndSaveExtractedTexts env items componentId)) ∧
  (∀ turn componentId e saved w w0 d,
     runOthers (before turn) w = (Ok tt, w0) → db w0 = Some d →
     key e ∈ keys (localizations d) →
     saveOne turn componentId e saved w = (Ok (saved ++ [key e]), w0)) ∧
  (∀ clock items componentId w,
     canOpen w = true →
     ∃ saved w' added,
       processAndSaveExtractedTexts (alone clock) items componentId w
         = (Ok saved, w') ∧
       (∀ e, e ∈ items → key e ∈ keys (stored w) → key e ∈ saved) ∧
       stored w' = stored w ++ added) ∧
  (∀ env componentId i e rest saved w err w1,
     saveOne (env i) componentId e saved w = (Throw err, w1) →
     saveLoop env componentId i (e :: rest) saved w
     = saveLoop env componentId (S i) rest saved w1).
Proof.
  split_and!.
  - intros env items cid. apply saveLoop_returns.
  - intros turn cid e saved w w0 d Hb Hdb Hk.
    unfold saveOne, bind at 1. rewrite Hb. unfold bind at 1.
    rewrite (getAll_open _ _ Hdb).
    pose proof (find_existing (key e) (localizations d)) as Hf.
    rewrite (bool_decide_eq_true_2 _ Hk) in Hf.
    by destruct (find _ _).
  - intros clock items cid w Hopen.
    destruct (saveLoop_alone clock cid items 0 [] w) as (w' & Hrun & Hst & _).
    rewrite Hopen in *.
    destruct (persist_grows clock cid items 0 [] (stored w)) as (added & Ha & _).
    eexists _, w', added. split_and!; [exact Hrun| |by rewrite Hst].
    intros e He Hk. by apply persist_existing.
  - intros env cid i e rest saved w err w1 H.
    cbn [saveLoop]. unfold bind at 1, try_catch. by rewrite H.
Qed.


(** ** Calls as pieces of text *)




(** The text [t('xt(')')] holds the characters of the call [t(')')] from
    position 4 on, inside the literal of the call that starts at 0; read
    from left to right it has the one call, with the key [xt(]. *)
Example overlapping_text :
  callAt (js "t('xt(')')") 4 (js ")") ∧
  CallSites (js "t('xt(')')") 0 [(0%nat, js "xt(")].
Proof.
  split.
  - exists 39, 39, (js "t('x"), []. split_and!; try done.
    split; [done|]. by repeat constructor.
  - apply (callSites_step _ 0 {| index := 0; group1 := js "xt(" |} 8);
      [vm_compute; reflexivity|].
    apply (callSites_stop _ 8 0). vm_compute; reflexivity.
Qed.




Section FirstSeen.
Variable toLowerCase : jsstring → jsstring.


End FirstSeen.


(** ** Writing to the store and reading it back

    A text is the list of its code units, here as everywhere, and the engine
    gives back the text it was given (as it does for well-formed UTF-16
    without the NUL character). *)

Lemma stored_opened w : db w = None → stored (opened w) = stored w.
Proof. intros H. unfold stored, opened; simpl. by rewrite H. Qed.

Lemma method_ready {A} (body : M A) w :
  canOpen w = true →
  ∃ d w0, db w0 = Some d ∧ localizations d = stored w ∧
          bind LocalizationDB.init (fun _ => body) w = body w0 ∧
          (db w ≠ None → w0 = w) ∧
          requests w0 = requests w ∧ sqlJsLoads w0 = sqlJsLoads w ∧
          localStorage w0 = (if isNull (db w) then Some d else localStorage w).
Proof.
  intros Hc. destruct (db w) as [d|] eqn:Hdb.
  - exists d, w. rewrite (method_open _ _ _ Hdb). unfold stored. rewrite Hdb.
    by split_and!.
  - exists (initialTables (localStorage w)), (opened w).
    rewrite (method_closed _ _ Hdb).
    unfold canOpen in Hc. rewrite Hdb in Hc. simpl in Hc. rewrite Hc.
    rewrite (method_open _ _ _ (opened_db w)).
    unfold stored. rewrite Hdb. by split_and!.
Qed.

Lemma stored_committed rows d w : stored (committed rows d w) = rows.
Proof. done. Qed.

Lemma insertByKey_perm r rows : insertByKey r rows ≡ₚ r :: rows.
Proof.
  induction rows as [|r' rows IH]; simpl; [done|].
  destruct (string_le _ _); [done|].
  rewrite IH. apply Permutation_swap.
Qed.

Lemma sqlSelectAllOrderByKey_perm rows : sqlSelectAllOrderByKey rows ≡ₚ rows.
Proof.
  induction rows as [|r rows IH]; simpl; [done|].
  unfold sqlSelectAllOrderByKey in *. simpl. rewrite insertByKey_perm.
  by rewrite IH.
Qed.

Lemma sqlInsert_fresh entry rows :
  LocalizationEntry.id entry ∉ ids rows →
  LocalizationEntry.key entry ∉ keys rows →
  sqlInsert entry rows = Ok (rows ++ [entry]).
Proof.
  intros Hi Hk. unfold sqlInsert.
  rewrite (bool_decide_eq_false_2 _ Hk), (bool_decide_eq_false_2 _ Hi). done.
Qed.

Lemma sqlInsert_taken entry rows :
  LocalizationEntry.id entry ∈ ids rows ∨ LocalizationEntry.key entry ∈ keys rows →
  ∃ column, (column = "id"%string ∨ column = "key"%string) ∧
            sqlInsert entry rows = Throw (constraintFailed column).
Proof.
  intros H. unfold sqlInsert.
  case_bool_decide as Hk; [by exists "key"%string; split; [right|]|].
  case_bool_decide as Hi; [by exists "id"%string; split; [left|]|].
  tauto.
Qed.

(** X1: on a store that can be opened, creating a record whose id and key
    no record has succeeds; the record is then the last of the records, and
    [getAll] returns the records there were and the new one, each once. *)
Theorem create_then_getAll entry w :
  canOpen w = true →
  LocalizationEntry.id entry ∉ ids (stored w) →
  LocalizationEntry.key entry ∉ keys (stored w) →
  ∃ w' rows,
    LocalizationDB.create entry w = (Ok tt, w') ∧
    stored w' = stored w ++ [entry] ∧
    LocalizationDB.getAll w' = (Ok rows, w') ∧
    rows ≡ₚ stored w ++ [entry].
Proof.
  intros Hc Hi Hk.
  destruct (method_ready (createLocalization entry) w Hc)
    as (d & w0 & Hdb & Hrows & Hrun & _).
  unfold LocalizationDB.create. rewrite Hrun.
  rewrite (createLocalization_open _ _ _ Hdb), Hrows.
  rewrite (sqlInsert_fresh _ _ Hi Hk).
  eexists _, _. split; [done|]. split; [done|].
  split; [by apply getAll_open|]. simpl. apply sqlSelectAllOrderByKey_perm.
Qed.

Lemma orEmpty_id v : orEmpty v = v.
Proof. by destruct v. Qed.

Lemma sqlSelectTranslations_snoc locale rows r :
  LocalizationEntry.key r ≠ js "__proto__" →
  sqlSelectTranslations locale (rows ++ [r]) =
    <[LocalizationEntry.key r := getField locale r]>
      (sqlSelectTranslations locale rows).
Proof.
  intros Hk. unfold sqlSelectTranslations. rewrite foldl_app. simpl.
  unfold objectSet at 1. rewrite (bool_decide_eq_false_2 _ Hk).
  by rewrite orEmpty_id.
Qed.

(** X2: after such a create, [getTranslations] of a valid locale gives the
    object it gave before with the key of the new record set to the text of
    that locale (for a key other than [__proto__], which an object never
    takes as a property of its own). *)
Theorem create_then_getTranslations entry locale w :
  canOpen w = true →
  LocalizationEntry.id entry ∉ ids (stored w) →
  LocalizationEntry.key entry ∉ keys (stored w) →
  locale ∈ validLocales →
  LocalizationEntry.key entry ≠ js "__proto__" →
  ∃ w0 w' m,
    LocalizationDB.getTranslations locale w = (Ok m, w0) ∧
    LocalizationDB.create entry w = (Ok tt, w') ∧
    LocalizationDB.getTranslations locale w' =
      (Ok (<[LocalizationEntry.key entry := getField locale entry]> m), w').
Proof.
  intros Hc Hi Hk Hl Hp.
  destruct (method_ready (getTranslations locale) w Hc)
    as (d0 & w0 & Hdb0 & Hrows0 & Hrun0 & _).
  destruct (method_ready (createLocalization entry) w Hc)
    as (d & w1 & Hdb & Hrows & Hrun & _).
  unfold LocalizationDB.getTranslations, LocalizationDB.create.
  rewrite Hrun0, Hrun.
  rewrite (getTranslations_open _ _ _ Hdb0), (bool_decide_eq_true_2 _ Hl), Hrows0.
  rewrite (createLocalization_open _ _ _ Hdb), Hrows.
  rewrite (sqlInsert_fresh _ _ Hi Hk).
  eexists _, _, _. split; [done|]. split; [done|].
  erewrite method_open by done.
  erewrite getTranslations_open by done.
  rewrite (bool_decide_eq_true_2 _ Hl). simpl.
  by rewrite sqlSelectTranslations_snoc.
Qed.

(** X3: creating a record whose id or key a record already has throws the
    engine's UNIQUE constraint error on one of the two columns, and the
    records stay as they were; on an open store nothing at all changes. *)
Theorem create_conflict_keeps_store entry w :
  canOpen w = true →
  LocalizationEntry.id entry ∈ ids (stored w) ∨
  LocalizationEntry.key entry ∈ keys (stored w) →
  ∃ column w',
    (column = "id"%string ∨ column = "key"%string) ∧
    LocalizationDB.create entry w = (Throw (constraintFailed column), w') ∧
    stored w' = stored w ∧ (db w ≠ None → w' = w).
Proof.
  intros Hc Ht.
  destruct (method_ready (createLocalization entry) w Hc)
    as (d & w1 & Hdb & Hrows & Hrun & Hsame & _).
  destruct (sqlInsert_taken entry (stored w) Ht) as (column & Hcol & Hins).
  exists column, w1. split; [done|].
  unfold LocalizationDB.create. rewrite Hrun.
  rewrite (createLocalization_open _ _ _ Hdb), Hrows, Hins.
  split; [done|]. split; [|done]. unfold stored at 1. by rewrite Hdb.
Qed.

Lemma getField_setField field value r :
  field ∈ validFields → getField field (setField field value r) = value.
Proof.
  intros H. destruct r as [i k a b c d e f].
  unfold validFields in H. rewrite !elem_of_cons, elem_of_nil in H.
  destruct H as [->|[->|[->|[->|[->|[->|[->|[]]]]]]]]; reflexivity.
Qed.

Lemma getField_setField_ne field field' value r :
  field' ≠ field → getField field' (setField field value r) = getField field' r.
Proof.
  intros Hne. destruct r as [i k a b c d e f].
  unfold setField.
  repeat (case_bool_decide; [subst field; unfold getField;
    repeat (case_bool_decide; [first [congruence|reflexivity]|]); reflexivity|]).
  reflexivity.
Qed.

Lemma setField_key_ne field value r :
  field ≠ js "key" →
  LocalizationEntry.key (setField field value r) = LocalizationEntry.key r.
Proof.
  intros Hne. destruct r as [i k a b c d e f]. unfold setField.
  rewrite (bool_decide_eq_false_2 _ Hne).
  repeat (case_bool_decide; [done|]). done.
Qed.

Lemma setField_key value r :
  LocalizationEntry.key (setField (js "key") value r) = value.
Proof. by destruct r. Qed.

Lemma update_other_rows field value id (rows : Table) :
  id ∉ ids rows →
  map (fun r => if bool_decide (LocalizationEntry.id r = id)
                then setField field value r else r) rows = rows.
Proof.
  induction rows as [|r rows IH]; simpl; [done|].
  rewrite not_elem_of_cons. intros [Hne Hin].
  rewrite bool_decide_eq_false_2 by done. by rewrite IH.
Qed.

Lemma update_one_row field value (l1 : Table) r l2 :
  NoDup (ids (l1 ++ r :: l2)) →
  map (fun r' => if bool_decide (LocalizationEntry.id r' = LocalizationEntry.id r)
                 then setField field value r' else r') (l1 ++ r :: l2)
  = l1 ++ setField field value r :: l2.
Proof.
  unfold ids. rewrite map_app. simpl. intros Hnd.
  apply NoDup_app in Hnd as (_ & H1 & Hnd).
  apply NoDup_cons in Hnd as [H2 _].
  rewrite map_app. simpl. rewrite bool_decide_eq_true_2 by done.
  rewrite !update_other_rows; [done|done|].
  intros Hin. apply (H1 _ Hin). left.
Qed.

Lemma validLocales_fields locale :
  locale ∈ validLocales → locale ∈ validFields ∧ locale ≠ js "key".
Proof.
  unfold validLocales, validFields. rewrite !elem_of_cons, elem_of_nil.
  intros [->|[->|[->|[->|[->|[->|[]]]]]]]; (split; [tauto|done]).
Qed.

Lemma keys_update field value id rows :
  field ≠ js "key" →
  keys (map (fun r => if bool_decide (LocalizationEntry.id r = id)
                      then setField field value r else r) rows) = keys rows.
Proof.
  intros Hne. unfold keys. rewrite map_map. apply map_ext. intros r.
  case_bool_decide; [by apply setField_key_ne|done].
Qed.

Lemma ids_update field value id rows :
  ids (map (fun r => if bool_decide (LocalizationEntry.id r = id)
                     then setField field value r else r) rows) = ids rows.
Proof.
  unfold ids. rewrite map_map. apply map_ext. intros r.
  case_bool_decide; [by apply setField_id|done].
Qed.

Lemma sqlUpdate_text field value id rows :
  field ≠ js "key" → NoDup (keys rows) →
  sqlUpdate field value id rows =
    Ok (map (fun r => if bool_decide (LocalizationEntry.id r = id)
                      then setField field value r else r) rows).
Proof.
  intros Hne Hnd. unfold sqlUpdate.
  rewrite bool_decide_eq_true_2; [done|]. by rewrite keys_update.
Qed.

Lemma sqlSelectTranslations_app locale rows r :
  sqlSelectTranslations locale (rows ++ [r]) =
    objectSet (sqlSelectTranslations locale rows) (LocalizationEntry.key r)
              (getField locale r).
Proof.
  unfold sqlSelectTranslations. rewrite foldl_app. simpl. by rewrite orEmpty_id.
Qed.

(** The object of [getTranslations] holds for a key the text of the last row
    with that key. *)
Lemma sqlSelectTranslations_lookup locale rows k :
  sqlSelectTranslations locale rows !! k =
    if bool_decide (k = js "__proto__") then None
    else getField locale <$>
           last (filter (fun r => LocalizationEntry.key r = k) rows).
Proof.
  induction rows as [|r rows IH] using rev_ind.
  - simpl. by case_bool_decide.
  - rewrite sqlSelectTranslations_app.
    rewrite filter_app, filter_cons, filter_nil.
    unfold objectSet.
    destruct (decide (LocalizationEntry.key r = js "__proto__")) as [Hp|Hp].
    + rewrite (bool_decide_eq_true_2 _ Hp), IH. case_bool_decide as Hk; [done|].
      rewrite decide_False by congruence. by rewrite app_nil_r.
    + rewrite (bool_decide_eq_false_2 _ Hp).
      destruct (decide (LocalizationEntry.key r = k)) as [<-|Hne].
      * rewrite lookup_insert_eq, bool_decide_eq_false_2 by done.
        by rewrite last_snoc.
      * rewrite lookup_insert_ne by done. rewrite IH. by rewrite app_nil_r.
Qed.

Lemma sqlSelectTranslations_update locale field value id rows :
  field ≠ js "key" → locale ≠ field →
  sqlSelectTranslations locale
    (map (fun r => if bool_decide (LocalizationEntry.id r = id)
                   then setField field value r else r) rows)
  = sqlSelectTranslations locale rows.
Proof.
  intros Hk Hne. unfold sqlSelectTranslations. generalize (∅ : gmap jsstring jsstring).
  induction rows as [|r rows IH]; intros acc; simpl; [done|].
  rewrite IH. f_equal. case_bool_decide; [|done].
  by rewrite setField_key_ne, getField_setField_ne.
Qed.

Lemma filter_key_absent k (rows : Table) :
  k ∉ keys rows → filter (fun r => LocalizationEntry.key r = k) rows = [].
Proof.
  intros Hk. apply filter_none. apply Forall_forall. intros r Hr Heq.
  apply Hk, elem_of_keys. by exists r.
Qed.

Lemma translations_after_update locale value (l1 : Table) r l2 :
  NoDup (keys (l1 ++ r :: l2)) →
  locale ∈ validLocales →
  LocalizationEntry.key r ≠ js "__proto__" →
  sqlSelectTranslations locale (l1 ++ setField locale value r :: l2)
  = <[LocalizationEntry.key r := value]>
      (sqlSelectTranslations locale (l1 ++ r :: l2)).
Proof.
  intros Hnd Hl Hp. destruct (validLocales_fields _ Hl) as [Hf Hk].
  rewrite keys_app in Hnd. simpl in Hnd.
  apply NoDup_app in Hnd as (_ & H1 & Hnd).
  apply NoDup_cons in Hnd as [H2 _].
  assert (LocalizationEntry.key r ∉ keys l1) as H1'.
  { intros Hin. apply (H1 _ Hin). left. }
  apply map_eq. intros k.
  rewrite sqlSelectTranslations_lookup.
  destruct (decide (k = LocalizationEntry.key r)) as [->|Hne].
  - rewrite lookup_insert_eq, bool_decide_eq_false_2 by done.
    rewrite filter_app, filter_cons.
    rewrite decide_True by by apply setField_key_ne.
    rewrite !filter_key_absent by done. simpl.
    by rewrite getField_setField.
  - rewrite lookup_insert_ne by done.
    rewrite sqlSelectTranslations_lookup.
    case_bool_decide; [done|].
    rewrite !filter_app, !filter_cons.
    rewrite setField_key_ne by done.
    by rewrite !decide_False by done.
Qed.

Lemma translations_after_update_hidden locale value (l1 : Table) r l2 :
  locale ∈ validLocales →
  LocalizationEntry.key r = js "__proto__" →
  sqlSelectTranslations locale (l1 ++ setField locale value r :: l2)
  = sqlSelectTranslations locale (l1 ++ r :: l2).
Proof.
  intros Hl Hp. destruct (validLocales_fields _ Hl) as [Hf Hk].
  apply map_eq. intros k. rewrite !sqlSelectTranslations_lookup.
  case_bool_decide as Hkp; [done|].
  rewrite !filter_app, !filter_cons.
  rewrite setField_key_ne by done.
  by rewrite !decide_False by congruence.
Qed.

(** X4: updating the text of one locale of an existing record succeeds;
    [getTranslations] of that locale then gives the object it gave before
    with the record's key set to the new text, or the very object it gave
    before when the key is [__proto__] (a key that the object never shows),
    and gives for every other locale what it gave before. *)
Theorem update_then_getTranslations id locale value r w :
  canOpen w = true → wellKeyedTable (stored w) →
  r ∈ stored w → LocalizationEntry.id r = id →
  locale ∈ validLocales →
  ∃ w0 m w' m',
    LocalizationDB.getTranslations locale w = (Ok m, w0) ∧
    LocalizationDB.update id locale value w = (Ok tt, w') ∧
    LocalizationDB.getTranslations locale w' = (Ok m', w') ∧
    (LocalizationEntry.key r ≠ js "__proto__" →
     m' = <[LocalizationEntry.key r := value]> m) ∧
    (LocalizationEntry.key r = js "__proto__" → m' = m) ∧
    ∀ locale', locale' ≠ locale →
      fst (LocalizationDB.getTranslations locale' w') =
      fst (LocalizationDB.getTranslations locale' w).
Proof.
  intros Hc [Hids Hkeys] Hr <- Hl.
  destruct (validLocales_fields _ Hl) as [Hf Hk].
  destruct (method_ready (getTranslations locale) w Hc)
    as (d0 & w0 & Hdb0 & Hrows0 & Hrun0 & _).
  destruct (method_ready (updateLocalization (LocalizationEntry.id r) locale value)
              w Hc) as (d & w1 & Hdb & Hrows & Hrun & _).
  unfold LocalizationDB.getTranslations at 1, LocalizationDB.update.
  rewrite Hrun0, Hrun.
  rewrite (getTranslations_open _ _ _ Hdb0), (bool_decide_eq_true_2 _ Hl), Hrows0.
  rewrite (updateLocalization_open _ _ _ _ _ Hdb), (bool_decide_eq_true_2 _ Hf).
  rewrite Hrows, sqlUpdate_text by done.
  apply list_elem_of_split in Hr as (l1 & l2 & Hsplit).
  eexists _, _, _, _. split; [done|]. split; [done|]. split; [|split_and!].
  - unfold LocalizationDB.getTranslations. erewrite method_open by done.
    erewrite getTranslations_open by done.
    by rewrite (bool_decide_eq_true_2 _ Hl).
  - intros Hp. simpl. rewrite Hsplit in Hids, Hkeys |- *.
    rewrite update_one_row by done.
    by apply translations_after_update.
  - intros Hp. simpl. rewrite Hsplit in Hids, Hkeys |- *.
    rewrite update_one_row by done.
    by apply translations_after_update_hidden.
  - intros locale' Hne.
    destruct (method_ready (getTranslations locale') w Hc)
      as (d2 & w2 & Hdb2 & Hrows2 & Hrun2 & _).
    unfold LocalizationDB.getTranslations. rewrite Hrun2.
    erewrite method_open by done.
    erewrite !getTranslations_open by done.
    case_bool_decide; [|done]. simpl.
    by rewrite Hrows2, sqlSelectTranslations_update.
Qed.

(** X5: updating a valid field under an id that no record has returns
    without an error and leaves the records as they were. *)
Theorem update_unknown_id id field value w :
  canOpen w = true → NoDup (keys (stored w)) →
  field ∈ validFields → id ∉ ids (stored w) →
  ∃ w', LocalizationDB.update id field value w = (Ok tt, w') ∧
        stored w' = stored w.
Proof.
  intros Hc Hkeys Hf Hid.
  destruct (method_ready (updateLocalization id field value) w Hc)
    as (d & w1 & Hdb & Hrows & Hrun & _).
  unfold LocalizationDB.update. rewrite Hrun.
  rewrite (updateLocalization_open _ _ _ _ _ Hdb), (bool_decide_eq_true_2 _ Hf).
  rewrite Hrows. unfold sqlUpdate. rewrite update_other_rows by done.
  rewrite bool_decide_eq_true_2 by done. by eexists.
Qed.

(** X6: renaming the key of a record to the key of another record throws
    the UNIQUE constraint error on [key] and leaves the records as they were;
    on an open store nothing at all changes. *)
Theorem update_key_conflict id value r w :
  canOpen w = true → NoDup (ids (stored w)) →
  r ∈ stored w → LocalizationEntry.id r = id →
  value ∈ keys (stored w) → value ≠ LocalizationEntry.key r →
  ∃ w', LocalizationDB.update id (js "key") value w
          = (Throw (constraintFailed "key"), w') ∧
        stored w' = stored w ∧ (db w ≠ None → w' = w).
Proof.
  intros Hc Hids Hr <- Hv Hne.
  destruct (method_ready
              (updateLocalization (LocalizationEntry.id r) (js "key") value) w Hc)
    as (d & w1 & Hdb & Hrows & Hrun & Hsame & _).
  unfold LocalizationDB.update. rewrite Hrun.
  rewrite (updateLocalization_open _ _ _ _ _ Hdb).
  rewrite bool_decide_eq_true_2 by apply list_elem_of_here.
  rewrite Hrows. unfold sqlUpdate.
  rewrite bool_decide_eq_false_2.
  { exists w1. split; [done|]. split; [|done]. unfold stored at 1. by rewrite Hdb. }
  apply list_elem_of_split in Hr as (l1 & l2 & Hsplit).
  rewrite Hsplit in Hids, Hv |- *.
  rewrite update_one_row by done.
  rewrite keys_app in Hv |- *. simpl in *. rewrite setField_key.
  intros Hnd. apply NoDup_app in Hnd as (_ & H1 & Hnd).
  apply NoDup_cons in Hnd as [H2 _].
  apply elem_of_app in Hv as [Hv|Hv].
  - apply (H1 _ Hv). left.
  - apply elem_of_cons in Hv as [Hv|Hv]; [done|]. by apply H2.
Qed.

(** X7: [delete] returns without an error whether or not a record has the
    id; afterwards the records are those that had another id, and when no
    record had the id they are the same list. *)
Theorem delete_removes_record id w :
  canOpen w = true →
  ∃ w', LocalizationDB.delete id w = (Ok tt, w') ∧
        (∀ r, r ∈ stored w' ↔ r ∈ stored w ∧ LocalizationEntry.id r ≠ id) ∧
        (id ∉ ids (stored w) → stored w' = stored w).
Proof.
  intros Hc.
  destruct (method_ready (deleteLocalization id) w Hc)
    as (d & w1 & Hdb & Hrows & Hrun & _).
  unfold LocalizationDB.delete. rewrite Hrun.
  rewrite (deleteLocalization_open _ _ _ Hdb), Hrows.
  eexists. split; [done|]. rewrite stored_committed. split.
  - intros r. unfold sqlDelete. rewrite list_elem_of_filter. tauto.
  - intros Hid. unfold sqlDelete. apply filter_all, Forall_forall.
    intros r Hr Heq. apply Hid. unfold ids. rewrite <- Heq.
    apply list_elem_of_fmap. by exists r.
Qed.

(** X8: creating a record with a new id and a new key and deleting it again
    by its id gives back the records there were. *)
Theorem create_then_delete entry w :
  canOpen w = true →
  LocalizationEntry.id entry ∉ ids (stored w) →
  LocalizationEntry.key entry ∉ keys (stored w) →
  ∃ w1 w2,
    LocalizationDB.create entry w = (Ok tt, w1) ∧
    LocalizationDB.delete (LocalizationEntry.id entry) w1 = (Ok tt, w2) ∧
    stored w2 = stored w.
Proof.
  intros Hc Hi Hk.
  destruct (method_ready (createLocalization entry) w Hc)
    as (d & w0 & Hdb & Hrows & Hrun & _).
  unfold LocalizationDB.create, LocalizationDB.delete. rewrite Hrun.
  rewrite (createLocalization_open _ _ _ Hdb), Hrows.
  rewrite (sqlInsert_fresh _ _ Hi Hk).
  eexists _, _. split; [done|].
  erewrite method_open by done. erewrite deleteLocalization_open by done.
  split; [done|]. rewrite stored_committed. simpl localizations.
  unfold sqlDelete.
  rewrite filter_app, filter_cons, filter_nil.
  rewrite decide_False by (intros H; by apply H).
  rewrite app_nil_r. apply filter_all, Forall_forall.
  intros r Hr Heq. apply Hi. unfold ids. rewrite <- Heq.
  apply list_elem_of_fmap. by exists r.
Qed.

(** ** Properties that do not look at the rows *)

Section StoreBlind.
Variable P : World → Prop.
Hypothesis P_opened :
  ∀ w, db w = None → sqlJsLoads w = true → P w → P (opened w).
Hypothesis P_committed :
  ∀ rows d w, db w = Some d → P w → P (committed rows d w).

Lemma method_keeps {A} (body : M A) :
  (∀ w d, db w = Some d → P w → P (snd (body w))) →
  preserves P (bind LocalizationDB.init (fun _ => body)).
Proof.
  intros Hopen w Hw. destruct (db w) as [d|] eqn:Hdb.
  - rewrite (method_open _ _ _ Hdb). by eapply Hopen.
  - rewrite (method_closed _ _ Hdb). destruct (sqlJsLoads w) eqn:Hl; [|done].
    rewrite (method_open _ _ _ (opened_db w)).
    eapply Hopen; [apply opened_db|by apply P_opened].
Qed.

Lemma getAll_keeps : preserves P LocalizationDB.getAll.
Proof.
  apply method_keeps. intros w d Hdb Hw.
  by rewrite (getAllLocalizations_open _ _ Hdb).
Qed.

Lemma getTranslations_keeps locale :
  preserves P (LocalizationDB.getTranslations locale).
Proof.
  apply method_keeps. intros w d Hdb Hw.
  rewrite (getTranslations_open _ _ _ Hdb). by destruct (bool_decide _).
Qed.

Lemma create_keeps entry : preserves P (LocalizationDB.create entry).
Proof.
  apply method_keeps. intros w d Hdb Hw.
  rewrite (createLocalization_open _ _ _ Hdb).
  destruct (sqlInsert _ _); [by apply P_committed|done].
Qed.

Lemma update_keeps id field value :
  preserves P (LocalizationDB.update id field value).
Proof.
  apply method_keeps. intros w d Hdb Hw.
  rewrite (updateLocalization_open _ _ _ _ _ Hdb).
  destruct (bool_decide _); [|done].
  destruct (sqlUpdate _ _ _ _); [by apply P_committed|done].
Qed.

Lemma delete_keeps id : preserves P (LocalizationDB.delete id).
Proof.
  apply method_keeps. intros w d Hdb Hw.
  rewrite (deleteLocalization_open _ _ _ Hdb). by apply P_committed.
Qed.

#[local] Hint Resolve getAll_keeps create_keeps update_keeps delete_keeps
  : keeps.

Lemma runOthers_keeps ops : preserves P (runOthers ops).
Proof. unfold runOthers, runOther. keeps. destruct x; auto with keeps. Qed.

#[local] Hint Resolve runOthers_keeps : keeps.

Lemma saveOne_keeps turn componentId e saved :
  preserves P (saveOne turn componentId e saved).
Proof.
  unfold saveOne. keeps.
  destruct (find _ _); [keeps|]. destruct (translations e); keeps.
Qed.

#[local] Hint Resolve saveOne_keeps : keeps.

Lemma saveLoop_keeps env componentId items : ∀ i saved,
  preserves P (saveLoop env componentId i items saved).
Proof.
  induction items as [|e items IH]; intros i saved; simpl; keeps.
Qed.

End StoreBlind.

(** ** Closing and resetting the database *)

Lemma synced_opened w : synced (opened w).
Proof. by intros d [= <-]. Qed.

Lemma synced_committed rows d w : synced (committed rows d w).
Proof. by intros d' [= <-]. Qed.

Lemma synced_logged r w : synced w → synced (logged r w).
Proof. done. Qed.

Section Durability.
Variable toLowerCase : jsstring → jsstring.

Lemma Reachable_synced w : Reachable toLowerCase w → synced w.
Proof.
  assert (∀ w, db w = None → sqlJsLoads w = true → synced w → synced (opened w))
    as Ho by (intros; apply synced_opened).
  assert (∀ rows d w, db w = Some d → synced w → synced (committed rows d w))
    as Hc by (intros; apply synced_committed).
  induction 1 as [loads|w ops _ IH|w _ IH|w locale _ IH
                 |w outcome env code componentId _ IH|w loads _ IH|w loads _ IH].
  - by intros d.
  - eapply runOthers_keeps; eauto.
  - eapply getAll_keeps; eauto.
  - eapply getTranslations_keeps; eauto.
  - unfold processComponentWithTranslations, processAndSaveExtractedTexts.
    revert w IH. apply preserves_bind.
    + intros w Hw. rewrite extractLocalizationKeys_eq. simpl.
      by destruct (extractedCalls toLowerCase code).
    + intros l. apply preserves_bind; [|intros ?; apply preserves_ret].
      eapply saveLoop_keeps; eauto.
  - by intros d.
  - by intros d.
Qed.

(** X9: in every world the application can reach, closing the database
    loses nothing: [getAll] after [closeDatabase] reopens the saved database
    and returns the rows it returned before ([localStorage] holding what
    [saveDatabaseToLocalStorage] gave it). *)
Theorem closeDatabase_keeps_records w :
  Reachable toLowerCase w → sqlJsLoads w = true →
  ∃ w1 rows w2 w3,
    closeDatabase w = (Ok tt, w1) ∧ db w1 = None ∧
    LocalizationDB.getAll w = (Ok rows, w2) ∧
    LocalizationDB.getAll w1 = (Ok rows, w3) ∧
    stored w3 = stored w.
Proof.
  intros Hr%Reachable_synced Hl.
  destruct w as [[d|] ls sq rq]; simpl in *; subst sq.
  - pose proof (Hr d eq_refl) as Hls. simpl in Hls. subst ls.
    eexists _, _, _, _.
    split; [reflexivity|]. split; [done|].
    split; [by apply getAll_open|].
    rewrite getAll_closed by done. simpl.
    erewrite getAll_open by apply opened_db. done.
  - eexists _, _, _, _. split; [reflexivity|]. split; [done|].
    rewrite !getAll_closed by done. simpl.
    erewrite getAll_open by apply opened_db. done.
Qed.

End Durability.

(** X10: after [resetDatabase] the database is closed and nothing is saved;
    the next [getAll] seeds a new database and returns the thirteen initial
    records, whatever records there were, and saves it. *)
Theorem resetDatabase_restores_seed w :
  sqlJsLoads w = true →
  ∃ w1 w2,
    resetDatabase w = (Ok tt, w1) ∧ db w1 = None ∧ localStorage w1 = None ∧
    LocalizationDB.getAll w1 = (Ok (sqlSelectAllOrderByKey initialData), w2) ∧
    stored w2 = initialData ∧ localStorage w2 = db w2.
Proof.
  intros Hl. destruct w as [d ls sq rq]; simpl in *; subst sq.
  eexists {| db := None; localStorage := None; sqlJsLoads := true;
             requests := rq |}, _.
  split; [by destruct d|]. split; [done|]. split; [done|].
  rewrite getAll_closed by done. simpl.
  erewrite getAll_open by apply opened_db. done.
Qed.

(** ** The identifiers of new records *)

Lemma digits_of_uint_inj d d' : digits_of_uint d = digits_of_uint d' → d = d'.
Proof.
  revert d'. induction d; intros []; simpl; try done;
    intros [= H]; f_equal; auto.
Qed.

Lemma numberToString_inj n n' : numberToString n = numberToString n' → n = n'.
Proof.
  unfold numberToString. intros H%digits_of_uint_inj.
  by apply DecimalN.Unsigned.to_uint_inj.
Qed.

Lemma digits_of_uint_digits d : Forall (fun c => 48 ≤ c ≤ 57) (digits_of_uint d).
Proof. induction d; simpl; constructor; (lia || done). Qed.

Lemma numberToString_no_underscore n : 95 ∉ numberToString n.
Proof.
  intros H. pose proof (digits_of_uint_digits (N.to_uint n)) as Hd.
  rewrite Forall_forall in Hd. apply Hd in H. lia.
Qed.

(** Two texts that end in an underscore and a run without one are equal only
    part by part. *)
Lemma split_at_first (x : N) (l l' m m' : jsstring) :
  x ∉ l → x ∉ l' → l ++ x :: m = l' ++ x :: m' → l = l' ∧ m = m'.
Proof.
  revert l'. induction l as [|c l IH]; intros [|c' l'] Hl Hl'; simpl.
  - by intros [= ->].
  - intros [= -> _]. exfalso. apply Hl'. left.
  - intros [= -> _]. exfalso. apply Hl. left.
  - intros [= -> H]. apply not_elem_of_cons in Hl as [_ Hl].
    apply not_elem_of_cons in Hl' as [_ Hl'].
    destruct (IH _ Hl Hl' H) as [-> ->]. done.
Qed.

Lemma split_at_last (x : N) (a a' b b' : jsstring) :
  x ∉ b → x ∉ b' → a ++ x :: b = a' ++ x :: b' → a = a' ∧ b = b'.
Proof.
  intros Hb Hb' Heq.
  apply (f_equal reverse) in Heq.
  rewrite !reverse_app, !reverse_cons, <- !app_assoc in Heq. simpl in Heq.
  apply split_at_first in Heq as [H1 H2]; [|by rewrite elem_of_reverse..].
  split.
  - apply (f_equal reverse) in H2. by rewrite !reverse_involutive in H2.
  - apply (f_equal reverse) in H1. by rewrite !reverse_involutive in H1.
Qed.

Lemma newEntry_id_inj componentId e e' t t' n n' :
  LocalizationEntry.id (newEntry componentId e t n) =
  LocalizationEntry.id (newEntry componentId e' t' n') →
  key e = key e' ∧ n = n'.
Proof.
  unfold newEntry. simpl. intros H.
  apply app_inv_head in H. injection H as H.
  apply split_at_last in H as [H1 H2];
    [|apply numberToString_no_underscore..].
  split; [done|by apply numberToString_inj].
Qed.

(** X11: the identifier given to a new record,
    [<componentId>_<key>_<Date.now()>] with the component id [comp_<time>] of
    the editor, determines the component, the key and the time: two such
    identifiers are equal only when all three are. *)
Theorem record_id_determines_key d d' e e' t t' n n' :
  LocalizationEntry.id (newEntry (js "comp_" ++ numberToString d) e t n) =
  LocalizationEntry.id (newEntry (js "comp_" ++ numberToString d') e' t' n') →
  d = d' ∧ key e = key e' ∧ n = n'.
Proof.
  intros H.
  assert (d = d') as <-.
  { unfold newEntry in H. cbn [LocalizationEntry.id] in H.
    rewrite <- !app_assoc in H. apply app_inv_head in H.
    change (js "_" ++ ?x) with (95 :: x) in H.
    apply split_at_first in H as [H _];
      [by apply numberToString_inj|apply numberToString_no_underscore..]. }
  split; [done|]. by eapply newEntry_id_inj.
Qed.

Section Recording.
Variable clock : nat → N.
Variable componentId : jsstring.

(** An item with translations whose key has no record gets one, with the key
    in the manifest, once no record has an identifier of its form. *)
Lemma persist_records items : ∀ i saved rows e t,
  NoDup (map key items) → e ∈ items → translations e = Some t →
  key e ∉ keys rows →
  (∀ n, LocalizationEntry.id (newEntry componentId e t n) ∉ ids rows) →
  ∃ j, newEntry componentId e t (clock j)
         ∈ snd (persist clock componentId i items saved rows) ∧
       key e ∈ fst (persist clock componentId i items saved rows).
Proof.
  induction items as [|e0 items IH]; intros i saved rows e t Hnd He Ht Hk Hid.
  { by apply elem_of_nil in He. }
  simpl in Hnd. apply NoDup_cons in Hnd as [Hfirst Hnd].
  apply elem_of_cons in He as [->|He].
  - exists i. simpl.
    rewrite (bool_decide_eq_false_2 _ Hk), Ht.
    rewrite sqlInsert_fresh by done.
    destruct (persist_grows clock componentId items (S i) (saved ++ [key e0])
                (rows ++ [newEntry componentId e0 t (clock i)]))
      as (added & -> & _).
    destruct (persist_saved_prefix clock componentId items (S i)
                (saved ++ [key e0])
                (rows ++ [newEntry componentId e0 t (clock i)]))
      as (more & -> & _).
    split.
    + rewrite <- app_assoc. apply elem_of_app. right. left.
    + rewrite <- app_assoc. apply elem_of_app. right. left.
  - assert (key e0 ≠ key e) as Hne.
    { intros Heq. apply Hfirst. rewrite Heq.
      apply list_elem_of_fmap. by exists e. }
    simpl.
    destruct (bool_decide (key e0 ∈ keys rows)); [by apply IH|].
    destruct (translations e0) as [t0|] eqn:Et0; [|by apply IH].
    destruct (sqlInsert _ rows) as [rows'|err] eqn:Ei; [|by apply IH].
    apply sqlInsert_Ok in Ei as (-> & _ & _).
    apply IH; [done..| |].
    + rewrite keys_app. simpl. rewrite elem_of_app, list_elem_of_singleton.
      intros [?|?]; [done|]. by apply Hne.
    + intros n. unfold ids. rewrite map_app. cbn [map].
      rewrite elem_of_app, list_elem_of_singleton.
      intros [Hin|Heq]; [by apply (Hid n)|].
      apply (newEntry_id_inj componentId e e0 t t0) in Heq as [Heq _].
      by apply Hne.
Qed.

End Recording.

(** ** More on the orchestrator *)

Lemma saveOne_result turn componentId e saved w :
  ∃ w', try_catch (saveOne turn componentId e saved)
                  (fun _ => ret saved) w = (Ok saved, w') ∨
        try_catch (saveOne turn componentId e saved)
                  (fun _ => ret saved) w = (Ok (saved ++ [key e]), w').
Proof.
  unfold try_catch, saveOne, bind.
  destruct (runOthers_returns (before turn) w) as (w0 & ->).
  destruct (LocalizationDB.getAll w0) as [[rows|err] w1]; [|by eexists; left].
  destruct (find _ rows); [by eexists; right|].
  destruct (translations e) as [t|]; [|by eexists; left].
  destruct (runOthers_returns (between turn) w1) as (w2 & ->).
  destruct (LocalizationDB.create _ w2) as [[[]|err] w3].
  - by eexists; right.
  - by eexists; left.
Qed.

Lemma saveLoop_sublist env componentId items : ∀ i saved w,
  ∃ more w',
    saveLoop env componentId i items saved w = (Ok (saved ++ more), w') ∧
    more `sublist_of` map key items.
Proof.
  induction items as [|e items IH]; intros i saved w; simpl.
  - exists [], w. by rewrite app_nil_r.
  - unfold bind at 1.
    destruct (saveOne_result (env i) componentId e saved w) as (w1 & [->| ->]).
    + destruct (IH (S i) saved w1) as (more & w' & -> & Hm).
      exists more, w'. split; [done|]. by apply sublist_cons.
    + destruct (IH (S i) (saved ++ [key e]) w1) as (more & w' & -> & Hm).
      exists (key e :: more), w'. rewrite <- app_assoc. split; [done|].
      by apply sublist_skip.
Qed.

Lemma withOffers_request outcome l :
  map (fun e => (key e, context e)) (withOffers outcome l) =
  map (fun e => (key e, context e)) l.
Proof. unfold withOffers. rewrite map_map. done. Qed.

Section Orchestrator.
Variable toLowerCase : jsstring → jsstring.

Lemma extractedCalls_NoDup code :
  NoDup (map key (extractedCalls toLowerCase code)).
Proof.
  destruct (callSites_exist code 0) as (sites & Hs).
  rewrite (extractedCalls_sites _ _ _ Hs), collect_keys.
  apply NoDup_filter, firstSeen_NoDup.
Qed.

(** X12: when no other task runs and the store can be opened, a key of the
    code for which the service offers translations and which has no record
    gets one: the key is in the manifest, and afterwards the store has a
    record with that key, the six offered texts and an identifier of the
    form [<componentId>_<key>_<time>] (provided no record has such an
    identifier already). *)
Theorem offered_key_is_recorded outcome clock code componentId w k t :
  canOpen w = true →
  k ∈ map key (extractedCalls toLowerCase code) →
  offered outcome k = Some t →
  k ∉ keys (stored w) →
  (∀ n, componentId ++ js "_" ++ k ++ js "_" ++ numberToString n
        ∉ ids (stored w)) →
  ∃ r w' n,
    processComponentWithTranslations toLowerCase outcome (alone clock) code
      componentId w = (Ok r, w') ∧
    k ∈ savedKeys r ∧
    LocalizationEntry.mk
      (componentId ++ js "_" ++ k ++ js "_" ++ numberToString n) k
      (en t) (es t) (fr t) (de t) (ja t) (zh t) ∈ stored w'.
Proof.
  intros Hc Hk Ht Hnew Hid.
  destruct (process_alone toLowerCase outcome clock code componentId w)
    as (w' & Hrun & Hst & _).
  rewrite Hc in Hrun, Hst.
  apply list_elem_of_fmap in Hk as (e & -> & He).
  set (items := withOffers outcome (extractedCalls toLowerCase code)) in *.
  set (e' := {| key := key e; text := text e; context := context e;
                translations := offered outcome (key e) |}).
  assert (e' ∈ items) as He'.
  { unfold items, withOffers. apply list_elem_of_fmap. by exists e. }
  destruct (persist_records clock componentId items 0 [] (stored w) e' t)
    as (j & Hrow & Hsaved);
    [|exact He'|exact Ht|exact Hnew|exact Hid|].
  { unfold items. rewrite withOffers_key. apply extractedCalls_NoDup. }
  eexists _, w', (clock j). split; [exact Hrun|]. split; [exact Hsaved|].
  rewrite Hst. exact Hrow.
Qed.

(** X13: when no other task runs and the store can be opened, the manifest
    is made of exactly the extracted keys that have a record after the run,
    in the order of extraction. *)
Theorem manifest_keys_have_records outcome clock code componentId w :
  canOpen w = true →
  ∃ r w',
    processComponentWithTranslations toLowerCase outcome (alone clock) code
      componentId w = (Ok r, w') ∧
    savedKeys r =
      filter (fun k => k ∈ keys (stored w')) (map key (extractedTexts r)).
Proof.
  intros Hc.
  destruct (process_alone toLowerCase outcome clock code componentId w)
    as (w' & Hrun & Hst & _).
  rewrite Hc in Hrun, Hst.
  eexists _, w'. split; [exact Hrun|]. simpl. rewrite Hst.
  rewrite persist_manifest; [done|].
  rewrite withOffers_key. apply extractedCalls_NoDup.
Qed.

(** X14: whatever other tasks do and however the calls of the store end,
    the manifest is a sublist of the extracted keys: it holds only keys of the
    code, in the order of their first call, each at most once. *)
Theorem manifest_within_extracted_keys outcome env code componentId w :
  ∃ r w',
    processComponentWithTranslations toLowerCase outcome env code componentId w
      = (Ok r, w') ∧
    savedKeys r `sublist_of` map key (extractedTexts r) ∧
    NoDup (savedKeys r).
Proof.
  unfold processComponentWithTranslations, bind.
  rewrite extractLocalizationKeys_eq.
  unfold processAndSaveExtractedTexts.
  edestruct saveLoop_sublist as (more & w' & -> & Hm).
  eexists _, w'. split; [done|]. simpl. split; [done|].
  eapply sublist_NoDup; [|exact Hm].
  rewrite withOffers_key. apply extractedCalls_NoDup.
Qed.

(** X15: a run of the orchestrator sends exactly one request to the
    translation service when the code has calls, and none when it has none,
    whatever the store holds and whatever other tasks do; the request lists
    every extracted key with its label, in order. *)
Theorem one_request_per_run outcome env code componentId w :
  ∃ r w',
    processComponentWithTranslations toLowerCase outcome env code componentId w
      = (Ok r, w') ∧
    requests w' =
      requests w ++
      match extractedTexts r with
      | [] => []
      | _ :: _ => [map (fun e => (key e, context e)) (extractedTexts r)]
      end.
Proof.
  unfold processComponentWithTranslations, bind.
  rewrite extractLocalizationKeys_eq.
  unfold processAndSaveExtractedTexts.
  set (items := withOffers outcome (extractedCalls toLowerCase code)).
  set (w1 := match extractedCalls toLowerCase code with
             | [] => w
             | e :: l => logged (map (fun e0 => (key e0, context e0)) (e :: l)) w
             end).
  pose proof (saveLoop_keeps (fun w' => requests w' = requests w1)) as Hkeep.
  specialize (Hkeep (fun _ _ _ H => H) (fun _ _ _ _ H => H)
                env componentId items 0%nat [] w1 eq_refl).
  destruct (saveLoop_returns env componentId items 0 [] w1) as (saved & w' & Hrun).
  rewrite Hrun in Hkeep |- *. simpl in Hkeep.
  eexists _, w'. split; [done|]. simpl. rewrite Hkeep.
  subst w1 items.
  rewrite withOffers_request.
  destruct (extractedCalls toLowerCase code) as [|e l]; simpl.
  - by rewrite app_nil_r.
  - done.
Qed.

End Orchestrator.

(** ** When the SQL engine cannot be loaded *)

Lemma method_broken {A} (body : M A) w :
  db w = None → sqlJsLoads w = false →
  bind LocalizationDB.init (fun _ => body) w = (Throw LoadFailure, w).
Proof. intros Hdb Hl. by rewrite (method_closed _ _ Hdb), Hl. Qed.

Lemma runOthers_broken ops w :
  db w = None → sqlJsLoads w = false → runOthers ops w = (Ok tt, w).
Proof.
  intros Hdb Hl. unfold runOthers.
  induction ops as [|op ops IH]; simpl; [done|].
  unfold bind at 1. unfold runOther, try_catch.
  destruct op; unfold LocalizationDB.create, LocalizationDB.update,
    LocalizationDB.delete; rewrite method_broken by done; exact IH.
Qed.

Lemma saveLoop_broken env componentId items : ∀ i saved w,
  db w = None → sqlJsLoads w = false →
  saveLoop env componentId i items saved w = (Ok saved, w).
Proof.
  induction items as [|e items IH]; intros i saved w Hdb Hl; simpl; [done|].
  unfold bind at 1. unfold try_catch, saveOne. unfold bind at 1.
  rewrite runOthers_broken by done. unfold bind at 1.
  unfold LocalizationDB.getAll. rewrite method_broken by done.
  by apply IH.
Qed.

Section Broken.
Variable toLowerCase : jsstring → jsstring.

(** X16: when the SQL engine cannot be loaded, every method of the store
    throws the load failure and changes nothing, and the orchestrator still
    returns, with an empty manifest and the database still closed. *)
Theorem load_failure_degrades outcome env code componentId w :
  db w = None → sqlJsLoads w = false →
  LocalizationDB.getAll w = (Throw LoadFailure, w) ∧
  (∀ locale, LocalizationDB.getTranslations locale w = (Throw LoadFailure, w)) ∧
  (∀ entry, LocalizationDB.create entry w = (Throw LoadFailure, w)) ∧
  (∀ id field value,
     LocalizationDB.update id field value w = (Throw LoadFailure, w)) ∧
  (∀ id, LocalizationDB.delete id w = (Throw LoadFailure, w)) ∧
  ∃ r w',
    processComponentWithTranslations toLowerCase outcome env code componentId w
      = (Ok r, w') ∧
    savedKeys r = [] ∧ db w' = None ∧ localStorage w' = localStorage w.
Proof.
  intros Hdb Hl. split_and!; try (intros; by apply method_broken).
  unfold processComponentWithTranslations, bind.
  rewrite extractLocalizationKeys_eq.
  unfold processAndSaveExtractedTexts.
  rewrite saveLoop_broken.
  - eexists _, _. split; [done|]. simpl.
    by destruct (extractedCalls toLowerCase code).
  - by destruct (extractedCalls toLowerCase code).
  - by destruct (extractedCalls toLowerCase code).
Qed.

(** X17: whatever the service answers and whatever other tasks do, every
    reference that the orchestrator returns has its key as text and one of
    the six labels as context. *)
Theorem references_as_extracted outcome env code componentId w :
  ∃ r w',
    processComponentWithTranslations toLowerCase outcome env code componentId w
      = (Ok r, w') ∧
    Forall (fun e => text e = key e ∧
                     ∃ label, context e = Some label ∧ label ∈ contextLabels)
           (extractedTexts r).
Proof.
  destruct (processComponentWithTranslations_returns toLowerCase outcome env code
              componentId w) as (r & w' & Hrun).
  exists r, w'. split; [done|].
  revert Hrun. unfold processComponentWithTranslations, bind.
  rewrite extractLocalizationKeys_eq.
  destruct (processAndSaveExtractedTexts _ _ _ _) as [[saved|err] w2]; [|done].
  intros [= <- _]. simpl.
  destruct (callSites_exist code 0) as (sites & Hs).
  rewrite (extractedCalls_sites _ _ _ Hs).
  unfold withOffers. rewrite Forall_fmap. simpl.
  generalize (∅ : gset jsstring).
  clear Hs. induction sites as [|[p k] sites IH]; intros used; simpl; [done|].
  case_bool_decide; [apply IH|]. constructor; [|apply IH]. simpl.
  split; [done|]. eexists. split; [done|].
  apply determineContext_label.
Qed.

End Broken.

(** ** The interface added to the code *)

Lemma star_greedy {R} p (k : jsstring → option R) s r :
  k (after_run p s) = Some r → star p k s = Some r.
Proof.
  intros Hk. induction s as [|c s IH]; simpl in *; [done|].
  destruct (p c); [by rewrite IH|done].
Qed.

Lemma matchAtoms_literal pre r opened captured s :
  matchAtoms (map Chr pre ++ r) opened captured s =
    if startsWith pre s then matchAtoms r opened captured (drop (length pre) s)
    else None.
Proof.
  revert s. induction pre as [|c pre IH]; intros s; simpl; [done|].
  destruct s as [|x s]; [done|]. rewrite (N.eqb_sym c x).
  destruct (x =? c); simpl; [apply IH|done].
Qed.

Lemma matchAt_export_eq s :
  matchAt exportRegex s =
    if startsWith (js "export default function ") s then
      match drop 24 s with
      | c :: s' =>
          if isWordChar c
          then Some (c :: run_of isWordChar s', after_run isWordChar s')
          else None
      | [] => None
      end
    else None.
Proof.
  unfold matchAt, exportRegex. rewrite matchAtoms_literal.
  destruct (startsWith _ s); [|done].
  change (length (js "export default function ")) with 24%nat.
  destruct (drop 24 s) as [|c s']; cbn [matchAtoms]; [done|].
  destruct (isWordChar c); [|done].
  apply star_greedy. cbn [matchAtoms].
  pose proof (run_of_after_run isWordChar s') as Hs.
  remember (run_of isWordChar s') as a eqn:Ea.
  remember (after_run isWordChar s') as b eqn:Eb.
  clear Ea Eb. subst s'. by rewrite take_capture.
Qed.

Lemma matchAt_export s name rest :
  matchAt exportRegex s = Some (name, rest) ↔
  s = js "export default function " ++ name ++ rest ∧ name ≠ [] ∧
  Forall (fun c => isWordChar c = true) name ∧
  (∀ c, head rest = Some c → isWordChar c = false).
Proof.
  rewrite matchAt_export_eq. split.
  - destruct (startsWith _ s) eqn:Hs; [|done].
    apply startsWith_spec in Hs as (post & ->).
    rewrite drop_app_length'; [|done].
    destruct post as [|c s']; [done|].
    destruct (isWordChar c) eqn:Hc; [|done]. intros [= <- <-].
    split_and!.
    + by rewrite <- app_comm_cons, run_of_after_run.
    + done.
    + constructor; [done|apply run_of_forall].
    + intros c'. destruct (after_run isWordChar s') as [|x l] eqn:E; [done|].
      intros [= <-]. by eapply after_run_head.
  - intros (-> & Hne & Hw & Hrest).
    rewrite (proj2 (startsWith_spec _ _)) by eauto.
    rewrite drop_app_length'; [|done].
    destruct name as [|c name]; [done|].
    inversion Hw as [|? ? Hc Hw']; subst. simpl. rewrite Hc.
    destruct rest as [|x rest].
    + rewrite app_nil_r.
      assert (run_of isWordChar name = name ∧ after_run isWordChar name = [])
        as [-> ->]; [|done].
      clear -Hw'. induction Hw' as [|y l Hy _ [IH1 IH2]]; simpl; [done|].
      by rewrite Hy, IH1, IH2.
    + destruct (run_of_app isWordChar name x rest Hw' (Hrest x eq_refl))
        as [-> ->]. done.
Qed.

Lemma exportAt_matchAt code p name :
  exportAt code p name ↔
  ∃ rest, matchAt exportRegex (drop p code) = Some (name, rest).
Proof.
  split.
  - intros (pre & post & -> & <- & Hne & Hw & Hpost).
    exists post. rewrite drop_app_length. apply matchAt_export. done.
  - intros (rest & (H & Hne & Hw & Hrest)%matchAt_export).
    exists (take p code), rest. split_and!; try done.
    + by rewrite <- H, take_drop.
    + apply length_take_le. destruct (decide (p ≤ length code)%nat); [done|].
      rewrite drop_ge in H by lia. done.
Qed.

Lemma regexMatch_export code :
  match regexMatch exportRegex code with
  | Some m =>
      exportAt code (index m) (group1 m) ∧
      ∀ p name, (p < index m)%nat → ¬ exportAt code p name
  | None => ∀ p name, ¬ exportAt code p name
  end.
Proof.
  unfold regexMatch.
  destruct (searchFrom exportRegex code 0) as [[m e]|] eqn:E; simpl.
  - apply searchFrom_Some in E as (n & rest & H1 & H2 & _ & H4).
    simpl in H2. subst n. split.
    + apply exportAt_matchAt. by exists rest.
    + intros p name Hp (rest' & Hm)%exportAt_matchAt.
      by rewrite H4 in Hm.
  - intros p name (rest' & Hm)%exportAt_matchAt.
    by rewrite (searchFrom_None _ _ _ E) in Hm.
Qed.

Lemma replaceFirst_at pat replacement : ∀ s p,
  (p ≤ length s)%nat →
  (∀ n, (n < p)%nat → startsWith pat (drop n s) = false) →
  startsWith pat (drop p s) = true →
  replaceFirst s pat replacement =
    take p s ++ replacement ++ drop (p + length pat) s.
Proof.
  intros s p. revert s. induction p as [|p IH]; intros s Hlen Hbefore Hat.
  - simpl in *. destruct s; simpl in *; by rewrite Hat.
  - destruct s as [|c s]; [simpl in Hlen; lia|].
    pose proof (Hbefore 0%nat ltac:(lia)) as H0. simpl in H0.
    simpl. rewrite H0.
    rewrite (IH s); [done|simpl in Hlen; lia| |done].
    intros n Hn. apply (Hbefore (S n)). lia.
Qed.

Lemma startsWith_app pat s post :
  startsWith pat s = true → startsWith pat (s ++ post) = true.
Proof.
  intros (x & ->)%startsWith_spec. apply startsWith_spec.
  exists (x ++ post). by rewrite app_assoc.
Qed.

(** Where the name is followed by more word characters the regular expression
    matches all the same, with a longer name. *)
Lemma export_literal_matches s name :
  name ≠ [] → Forall (fun c => isWordChar c = true) name →
  startsWith (js "export default function " ++ name) s = true →
  matchAt exportRegex s ≠ None.
Proof.
  intros Hne Hw (post & ->)%startsWith_spec.
  rewrite matchAt_export_eq, <- app_assoc.
  rewrite (proj2 (startsWith_spec _ _)) by eauto.
  rewrite drop_app_length'; [|done].
  destruct name as [|c name]; [done|].
  inversion Hw as [|? ? Hc _]; subst. simpl. by rewrite Hc.
Qed.

Lemma transformComponentCode_eq code items :
  transformComponentCode code items =
    if includes code (js "interface") then code
    else match regexMatch exportRegex code with
         | Some m => take (index m) code ++ interfaceFor (group1 m)
                     ++ drop (index m) code
         | None => code
         end.
Proof.
  unfold transformComponentCode.
  destruct (includes code (js "interface")); cbn [negb orb].
  { by destruct (negb _). }
  pose proof (regexMatch_export code) as Hm.
  destruct (regexMatch exportRegex code) as [m|]; [|done].
  destruct Hm as [Hat Hfirst].
  pose proof Hat as (pre & post & Hcode & Hlen & Hne & Hw & Hpost).
  rewrite (replaceFirst_at _ _ code (index m)).
  - assert (drop (index m) code =
            js "export default function " ++ group1 m
            ++ drop (index m + length (js "export default function " ++ group1 m))
                 code) as Hdrop.
    { rewrite Hcode, <- Hlen, drop_app_length.
      rewrite (app_assoc (js _) (group1 m) post).
      rewrite (app_assoc pre), drop_app_length'; [|rewrite !length_app; lia].
      by rewrite <- app_assoc. }
    unfold interfaceFor. rewrite <- !app_assoc. by rewrite Hdrop.
  - rewrite Hcode, <- Hlen, length_app. lia.
  - intros n Hn. destruct (startsWith _ (drop n code)) eqn:Hs; [|done].
    exfalso. apply export_literal_matches in Hs; [|done..].
    destruct (matchAt exportRegex (drop n code)) as [[name' rest']|] eqn:E; [|done].
    apply (Hfirst n name' Hn). apply exportAt_matchAt. by exists rest'.
  - rewrite Hcode, <- Hlen, drop_app_length.
    rewrite (app_assoc (js _) (group1 m) post). apply startsWith_spec. eauto.
Qed.

Lemma exportAt_fun code p name name' :
  exportAt code p name → exportAt code p name' → name = name'.
Proof.
  rewrite !exportAt_matchAt. intros [r H] [r' H']. congruence.
Qed.

Lemma occursIn_interfaceFor name pre post :
  occursIn (js "interface") (pre ++ interfaceFor name ++ post).
Proof.
  exists (pre ++ [10]), ([32] ++ name ++ js "Props {" ++ [10]
    ++ js "  t: (key: string) => string;" ++ [10] ++ js "}" ++ [10; 10] ++ post).
  unfold interfaceFor.
  change (js "interface ") with (js "interface" ++ [32]).
  rewrite <- !app_assoc. reflexivity.
Qed.

(** X18: when the code does not contain the word [interface],
    [transformComponentCode] inserts the interface of the component right
    before the first [export default function <Name>] and changes nothing
    else. *)
Theorem transformComponentCode_inserts code items p name :
  ¬ occursIn (js "interface") code →
  exportAt code p name →
  (∀ p' name', (p' < p)%nat → ¬ exportAt code p' name') →
  transformComponentCode code items =
    take p code ++ interfaceFor name ++ drop p code.
Proof.
  intros Hno Hat Hfirst. rewrite transformComponentCode_eq.
  rewrite (proj2 (includes_not _ _) Hno).
  pose proof (regexMatch_export code) as Hm.
  destruct (regexMatch exportRegex code) as [m|]; [|by destruct (Hm p name)].
  destruct Hm as [Hat' Hfirst'].
  assert (index m = p) as Hp.
  { destruct (Nat.lt_trichotomy (index m) p) as [Hlt|[Heq|Hgt]]; [|done|].
    - by destruct (Hfirst _ (group1 m) Hlt).
    - by destruct (Hfirst' _ name Hgt). }
  rewrite Hp in *. by rewrite (exportAt_fun _ _ _ _ Hat Hat').
Qed.

(** X19: [transformComponentCode] returns the code as it is when the word
    [interface] occurs anywhere in it, and when it has no
    [export default function <Name>]. *)
Theorem transformComponentCode_unchanged code items :
  occursIn (js "interface") code ∨ (∀ p name, ¬ exportAt code p name) →
  transformComponentCode code items = code.
Proof.
  intros H. rewrite transformComponentCode_eq.
  destruct (includes code (js "interface")) eqn:Hi; [done|].
  destruct H as [H|H]; [by apply includes_not in Hi|].
  pose proof (regexMatch_export code) as Hm.
  destruct (regexMatch exportRegex code) as [m|]; [|done].
  destruct Hm as [Hat _]. by destruct (H _ _ Hat).
Qed.

(** X20: [transformComponentCode] applied to its own result changes
    nothing. *)
Theorem transformComponentCode_idempotent code items items' :
  transformComponentCode (transformComponentCode code items) items' =
  transformComponentCode code items.
Proof.
  rewrite (transformComponentCode_eq code).
  destruct (includes code (js "interface")) eqn:Hi.
  { rewrite transformComponentCode_eq. by rewrite Hi. }
  destruct (regexMatch exportRegex code) as [m|] eqn:Hm.
  - rewrite transformComponentCode_eq.
    by rewrite (proj2 (includes_spec _ _) (occursIn_interfaceFor _ _ _)).
  - rewrite transformComponentCode_eq. by rewrite Hi, Hm.
Qed.

(** ** The demo props of the second orchestrator *)

Lemma occursIn_longer a pat s : occursIn (a ++ pat) s → occursIn pat s.
Proof.
  intros (pre & post & ->). exists (pre ++ a), post. by rewrite <- !app_assoc.
Qed.

Lemma includes_longer a pat s :
  includes s (a ++ pat) || includes s pat = includes s pat.
Proof.
  destruct (includes s (a ++ pat)) eqn:E; [|done]. simpl. symmetry.
  apply includes_spec. apply includes_spec in E. by eapply occursIn_longer.
Qed.

Lemma includes_occursIn s pat : includes s pat ↔ occursIn pat s.
Proof. rewrite <- includes_spec. by destruct (includes s pat). Qed.

Section DemoProps.
Variable toLowerCase : jsstring → jsstring.

(** X21: [determineComponentType] gives the type of the first group, in
    the order navigation, form, card, modal, button, one of whose markers
    occurs in the lower-cased code, and [component] when none does; the
    markers [<card], [<modal] and [<button] add nothing to [card], [modal]
    and [button]. *)
Theorem determineComponentType_cases componentCode :
  let code := toLowerCase componentCode in
  let navigation := occursIn (js "<nav") code ∨ occursIn (js "navigation") code ∨
                    occursIn (js "navbar") code ∨ occursIn (js "menu") code in
  let form := occursIn (js "<form") code ∨ occursIn (js "<input") code ∨
              occursIn (js "onsubmit") code in
  let card := occursIn (js "card") code in
  let modal := occursIn (js "modal") code in
  let button := occursIn (js "button") code in
  let type := V2.determineComponentType toLowerCase componentCode in
  (type = js "navigation" ↔ navigation) ∧
  (type = js "form" ↔ ¬ navigation ∧ form) ∧
  (type = js "card" ↔ ¬ navigation ∧ ¬ form ∧ card) ∧
  (type = js "modal" ↔ ¬ navigation ∧ ¬ form ∧ ¬ card ∧ modal) ∧
  (type = js "button" ↔ ¬ navigation ∧ ¬ form ∧ ¬ card ∧ ¬ modal ∧ button) ∧
  (type = js "component" ↔
     ¬ navigation ∧ ¬ form ∧ ¬ card ∧ ¬ modal ∧ ¬ button).
Proof.
  intros code navigation form card modal button type.
  subst type. unfold V2.determineComponentType. fold code.
  change (js "<card") with ([60] ++ js "card").
  change (js "<modal") with ([60] ++ js "modal").
  change (js "<button") with ([60] ++ js "button").
  rewrite !includes_longer.
  assert (navigation ↔
          includes code (js "<nav") || includes code (js "navigation")
          || includes code (js "navbar") || includes code (js "menu") = true)
    as Hn.
  { subst navigation. rewrite !orb_true_iff, !includes_spec. tauto. }
  assert (form ↔
          includes code (js "<form") || includes code (js "<input")
          || includes code (js "onsubmit") = true) as Hf.
  { subst form. rewrite !orb_true_iff, !includes_spec. tauto. }
  assert (card ↔ includes code (js "card") = true) as Hc
    by (symmetry; apply includes_spec).
  assert (modal ↔ includes code (js "modal") = true) as Hm
    by (symmetry; apply includes_spec).
  assert (button ↔ includes code (js "button") = true) as Hb
    by (symmetry; apply includes_spec).
  rewrite Hn, Hf, Hc, Hm, Hb.
  destruct (_ || includes code (js "menu"));
    [split_and!; split; (done || intuition congruence)|].
  destruct (_ || includes code (js "onsubmit"));
    [split_and!; split; (done || intuition congruence)|].
  destruct (includes code (js "card"));
    [split_and!; split; (done || intuition congruence)|].
  destruct (includes code (js "modal"));
    [split_and!; split; (done || intuition congruence)|].
  destruct (includes code (js "button"));
    split_and!; split; (done || intuition congruence).
Qed.

End DemoProps.

Lemma canOpen_false w : canOpen w = false → db w = None ∧ sqlJsLoads w = false.
Proof.
  unfold canOpen. destruct (db w), (sqlJsLoads w); simpl; by intros.
Qed.

(** An insert whose failure is caught, when no other task runs: the records
    stay, or the new one is added under a key that had none. *)
Lemma create_caught_alone entry w :
  ∃ w',
    try_catch (runOthers [] ;;; LocalizationDB.create entry)
              (fun _ => ret tt) w = (Ok tt, w') ∧
    requests w' = requests w ∧
    (stored w' = stored w ∨
     (stored w' = stored w ++ [entry] ∧
      LocalizationEntry.key entry ∉ keys (stored w))).
Proof.
  unfold try_catch, bind, runOthers. simpl forEach. unfold ret at 1.
  destruct (canOpen w) eqn:Hc.
  - destruct (method_ready (createLocalization entry) w Hc)
      as (d & w0 & Hdb & Hrows & Hrun & _ & Hrq & _).
    unfold LocalizationDB.create. rewrite Hrun.
    rewrite (createLocalization_open _ _ _ Hdb), Hrows.
    assert (stored w0 = stored w) as Hst.
    { unfold stored at 1. by rewrite Hdb. }
    destruct (sqlInsert entry (stored w)) as [rows|err] eqn:Ei.
    + apply sqlInsert_Ok in Ei as (-> & _ & Hk).
      eexists. split; [done|]. split; [done|]. right. done.
    + exists w0. split; [done|]. split; [done|]. by left.
  - apply canOpen_false in Hc as [Hdb Hl].
    unfold LocalizationDB.create. rewrite method_broken by done.
    exists w. split; [done|]. split; [done|]. by left.
Qed.

Lemma navLoop_alone clock navKeys tr : ∀ i w,
  ∃ w' added,
    V2.navLoop (alone clock) i navKeys tr w = (Ok tt, w') ∧
    requests w' = requests w ∧
    stored w' = stored w ++ added ∧
    ∀ r, r ∈ added →
      LocalizationEntry.key r ∈ map fst navKeys ∧
      (LocalizationEntry.key r ∉ keys (stored w)) ∧
      ∃ t n, tr !! LocalizationEntry.key r = Some t ∧
             r = V2.navEntry (LocalizationEntry.key r) t n.
Proof.
  induction navKeys as [|[k c] navKeys IH]; intros i w.
  - exists w, []. rewrite app_nil_r. split_and!; [done..|].
    by intros r ?%elem_of_nil.
  - cbn [V2.navLoop fst].
    change (before (alone clock i)) with (@nil StoreOp).
    change (now (alone clock i)) with (clock i).
    unfold bind at 1.
    assert (∀ w1, requests w1 = requests w → stored w1 = stored w →
      ∃ w' added,
        V2.navLoop (alone clock) (S i) navKeys tr w1 = (Ok tt, w') ∧
        requests w' = requests w ∧ stored w' = stored w ++ added ∧
        ∀ r, r ∈ added →
          LocalizationEntry.key r ∈ map fst ((k, c) :: navKeys) ∧
          (LocalizationEntry.key r ∉ keys (stored w)) ∧
          ∃ t n, tr !! LocalizationEntry.key r = Some t ∧
                 r = V2.navEntry (LocalizationEntry.key r) t n) as Hskip.
    { intros w1 Hrq Hst.
      destruct (IH (S i) w1) as (w' & added & Hrun & Hrq' & Hst' & Hadd).
      exists w', added. rewrite Hrun, Hrq', Hst', Hrq, Hst.
      split_and!; [done..|]. intros r Hr.
      destruct (Hadd r Hr) as (H1 & H2 & H3). rewrite Hst in H2.
      split_and!; [|done..]. simpl. by right. }
    destruct (tr !! k) as [t|] eqn:Et; [|by apply Hskip].
    destruct (create_caught_alone (V2.navEntry k t (clock i)) w)
      as (w1 & -> & Hrq & [Hst|[Hst Hk]]); [by apply Hskip|].
    destruct (IH (S i) w1) as (w' & added & Hrun & Hrq' & Hst' & Hadd).
    exists w', (V2.navEntry k t (clock i) :: added).
    rewrite Hrun, Hrq', Hst', Hrq, Hst, <- app_assoc.
    split_and!; [done..|].
    intros r [->|Hr]%elem_of_cons.
    + split_and!; [by left|done|]. by exists t, (clock i).
    + destruct (Hadd r Hr) as (H1 & H2 & H3).
      split_and!; [by right| |done].
      intros Hin. apply H2. rewrite Hst, keys_app. apply elem_of_app. by left.
Qed.

Lemma navLoop_returns env navKeys tr : ∀ i, returns (V2.navLoop env i navKeys tr).
Proof.
  induction navKeys as [|[k c] navKeys IH]; intros i w; cbn [V2.navLoop fst].
  - by eexists _, _.
  - unfold bind at 1. destruct (tr !! k) as [t|].
    + unfold try_catch.
      destruct (bind _ _ w) as [[[]|err] w1]; apply IH.
    + apply IH.
Qed.

Lemma navLoop_preserves env navKeys tr : ∀ i,
  preserves wellKeyed (V2.navLoop env i navKeys tr).
Proof.
  induction navKeys as [|[k c] navKeys IH]; intros i; cbn [V2.navLoop fst].
  - keeps.
  - apply preserves_bind; [|intros ?; apply IH].
    destruct (tr !! k); keeps.
Qed.

Lemma navLoop_keeps (P : World → Prop) env navKeys tr :
  (∀ w, db w = None → sqlJsLoads w = true → P w → P (opened w)) →
  (∀ rows d w, db w = Some d → P w → P (committed rows d w)) →
  ∀ i, preserves P (V2.navLoop env i navKeys tr).
Proof.
  intros Ho Hc.
  induction navKeys as [|[k c] navKeys IH]; intros i; cbn [V2.navLoop fst].
  - apply preserves_ret.
  - apply preserves_bind; [|intros ?; apply IH].
    destruct (tr !! k); [|apply preserves_ret].
    apply preserves_try_catch; [|intros ?; apply preserves_ret].
    apply preserves_bind; [|intros ?].
    + by apply runOthers_keeps.
    + by apply create_keeps.
Qed.

Lemma ensureNavigationTranslations_returns outcome env :
  returns (V2.ensureNavigationTranslations outcome env).
Proof.
  intros w. unfold V2.ensureNavigationTranslations, try_catch, bind, log_request.
  destruct outcome as [| |[] [tr|]]; try by eexists _, _.
  edestruct navLoop_returns as (a & w' & ->). destruct a. by eexists _, _.
Qed.

Lemma ensureNavigationTranslations_preserves outcome env :
  preserves wellKeyed (V2.ensureNavigationTranslations outcome env).
Proof.
  unfold V2.ensureNavigationTranslations.
  apply preserves_try_catch; [|intros ?; apply preserves_ret].
  apply preserves_bind; [by intros w Hw|intros _].
  destruct outcome as [| |[] [tr|]];
    first [apply navLoop_preserves|apply preserves_ret|apply preserves_throw].
Qed.

(** X22: [ensureNavigationTranslations] never throws and sends exactly one
    request, which lists the four navigation keys with the label
    [navigation], whatever the service answers and whatever other tasks do
    to the store meanwhile.  When no other task runs it leaves every record
    as it was and adds records only under navigation keys that had none,
    each with an id [nav_<key>_<time>] and the six texts that the service
    offered for its key. *)
Theorem ensureNavigationTranslations_effect outcome w :
  (∀ env, ∃ w',
     V2.ensureNavigationTranslations outcome env w = (Ok tt, w') ∧
     requests w' =
       requests w ++
       [[(js "nav_home", Some (js "navigation"));
         (js "nav_about", Some (js "navigation"));
         (js "nav_services", Some (js "navigation"));
         (js "nav_contact", Some (js "navigation"))]]) ∧
  (∀ clock, ∃ w' added,
     V2.ensureNavigationTranslations outcome (alone clock) w = (Ok tt, w') ∧
     stored w' = stored w ++ added ∧
     ∀ r, r ∈ added →
       LocalizationEntry.key r ∈
         [js "nav_home"; js "nav_about"; js "nav_services"; js "nav_contact"] ∧
       (LocalizationEntry.key r ∉ keys (stored w)) ∧
       ∃ t n, offered outcome (LocalizationEntry.key r) = Some t ∧
              r = LocalizationEntry.mk
                    (js "nav_" ++ LocalizationEntry.key r ++ js "_" ++
                     numberToString n)
                    (LocalizationEntry.key r)
                    (en t) (es t) (fr t) (de t) (ja t) (zh t)).
Proof.
  split.
  - intros env.
    unfold V2.ensureNavigationTranslations, try_catch, bind, log_request.
    set (w1 := {| db := db w; localStorage := localStorage w;
                  sqlJsLoads := sqlJsLoads w;
                  requests := requests w ++ [_] |}).
    destruct outcome as [| |[] [tr|]]; try (by exists w1).
    pose proof (navLoop_keeps (fun w' => requests w' = requests w1) env
                  V2.commonNavKeys tr (fun _ _ _ H => H) (fun _ _ _ _ H => H)
                  0%nat w1 eq_refl) as Hkeep.
    destruct (navLoop_returns env V2.commonNavKeys tr 0 w1) as ([] & w' & Hrun).
    rewrite Hrun in Hkeep |- *. by exists w'.
  - intros clock.
    unfold V2.ensureNavigationTranslations, try_catch, bind, log_request.
    set (w1 := {| db := db w; localStorage := localStorage w;
                  sqlJsLoads := sqlJsLoads w;
                  requests := requests w ++ [_] |}).
    assert (stored w1 = stored w) as Hw1 by done.
    destruct outcome as [| |[] [tr|]];
      try (exists w1, []; rewrite app_nil_r; split_and!; [done..|];
           by intros r ?%elem_of_nil).
    destruct (navLoop_alone clock V2.commonNavKeys tr 0 w1)
      as (w' & added & -> & Hrq & Hst & Hadd).
    exists w', added. split_and!; [done|by rewrite Hst|].
    intros r Hr. destruct (Hadd r Hr) as (H1 & H2 & t & n & Ht & Hn).
    split_and!; [exact H1|done|]. exists t, n. split; [done|].
    rewrite Hn at 1. reflexivity.
Qed.

Section DemoPropsResult.
Variable toLowerCase : jsstring → jsstring.

(** X23: [generateDemoProps] never throws, whatever the service and the
    store do; it returns the JSON text of the props of the component's type,
    which always hold [t]; it changes nothing unless the type is
    [navigation], and keeps the two constraints of the schema when it is. *)
Theorem generateDemoProps_result outcome env componentCode w :
  let type := V2.determineComponentType toLowerCase componentCode in
  ∃ w',
    V2.generateDemoProps toLowerCase outcome env componentCode w =
      (Ok (JSON_stringify
             ((js "t", js "t") ::
              if bool_decide (type = js "button")
              then [(js "onClick", js "() => console.log('Button clicked!')")]
              else if bool_decide (type = js "form")
              then [(js "onSubmit", js "() => console.log('Form submitted!')")]
              else [])), w') ∧
    (type ≠ js "navigation" → w' = w) ∧
    (wellKeyed w → wellKeyed w').
Proof.
  intros type. unfold V2.generateDemoProps. fold type.
  destruct (bool_decide (type = js "button")); [by exists w|].
  destruct (bool_decide (type = js "form")); [by exists w|].
  case_bool_decide as Hn; [|by exists w].
  unfold bind.
  destruct (ensureNavigationTranslations_returns outcome env w)
    as ([] & w' & Hrun).
  pose proof (ensureNavigationTranslations_preserves outcome env w) as Hkeep.
  rewrite Hrun in Hkeep |- *. exists w'. split_and!; done.
Qed.

(** The demo props are returned whatever happens, and the world is touched
    for a navigation component only. *)
Lemma generateDemoProps_runs outcome env componentCode w :
  ∃ props w',
    V2.generateDemoProps toLowerCase outcome env componentCode w
      = (Ok props, w') ∧
    (V2.determineComponentType toLowerCase componentCode ≠ js "navigation" →
     w' = w).
Proof.
  unfold V2.generateDemoProps.
  destruct (bool_decide (_ = js "button")); [by eexists _, w|].
  destruct (bool_decide (_ = js "form")); [by eexists _, w|].
  case_bool_decide as Hn; [|by eexists _, w].
  unfold bind.
  destruct (ensureNavigationTranslations_returns outcome env w)
    as ([] & w' & ->).
  by eexists _, w'.
Qed.

(** X24: the second orchestrator returns the transformed code, the
    references and the manifest that the first one returns, followed by the
    demo props; the world it leaves is the one the first leaves unless the
    component is of type [navigation]. *)
Theorem second_orchestrator_same_fields outcome env navOutcome navEnv
    code componentId w :
  ∃ r w1 props w2,
    processComponentWithTranslations toLowerCase outcome env code componentId w
      = (Ok r, w1) ∧
    V2.generateDemoProps toLowerCase navOutcome navEnv code w1
      = (Ok props, w2) ∧
    V2.processComponentWithTranslations toLowerCase outcome env navOutcome
      navEnv code componentId w =
      (Ok {| V2.transformedCode := transformedCode r;
             V2.extractedTexts := extractedTexts r;
             V2.savedKeys := savedKeys r;
             V2.demoProps := props |}, w2) ∧
    (V2.determineComponentType toLowerCase code ≠ js "navigation" → w2 = w1).
Proof.
  unfold processComponentWithTranslations, V2.processComponentWithTranslations,
    bind.
  rewrite extractLocalizationKeys_eq.
  destruct (saveLoop_returns env componentId
              (withOffers outcome (extractedCalls toLowerCase code)) 0 []
              (match extractedCalls toLowerCase code with
               | [] => w
               | e :: l => logged (map (fun e0 => (key e0, context e0)) (e :: l)) w
               end)) as (saved & w1 & Hrun).
  unfold processAndSaveExtractedTexts. rewrite Hrun.
  eexists _, w1.
  destruct (generateDemoProps_runs navOutcome navEnv code w1)
    as (props & w2 & Hprops & Hsame).
  rewrite Hprops. exists props, w2. split_and!; done.
Qed.

End DemoPropsResult.

(** ** Escaping a text for a pattern *)

Lemma regExpSpecials_syntax c : c ∈ regExpSpecials ↔ c ∈ syntaxCharacters.
Proof.
  unfold regExpSpecials, syntaxCharacters.
  rewrite !elem_of_cons, !elem_of_nil. tauto.
Qed.

Lemma readEscaped_escapeRegExp s :
  readEscaped (escapeRegExp s) = Some (map Chr s).
Proof.
  induction s as [|c s IH]; [done|].
  unfold escapeRegExp, replaceEach in *. cbn [flat_map].
  case_bool_decide as Hc.
  - cbn [app readEscaped]. rewrite N.eqb_refl.
    rewrite bool_decide_eq_true_2 by by apply regExpSpecials_syntax.
    by rewrite IH.
  - cbn [app readEscaped].
    destruct (c =? 92) eqn:E.
    { apply N.eqb_eq in E as ->. destruct Hc.
      apply (bool_decide_unpack _). vm_compute. exact I. }
    rewrite bool_decide_eq_false_2 by by rewrite <- regExpSpecials_syntax.
    by rewrite IH.
Qed.

Lemma Chr_inj s s' : map Chr s = map Chr s' → s = s'.
Proof.
  revert s'. induction s as [|c s IH]; intros [|c' s']; simpl; try done.
  intros [= -> H]. f_equal. by apply IH.
Qed.

(** X25: the text that [escapeRegExp] returns, read as a pattern, is the
    sequence of the characters of the text it was given, each standing for
    itself, so it matches that text and nothing else at the head of a text;
    and two texts with the same escaped text are equal. *)
Theorem escapeRegExp_reads_back string :
  readEscaped (escapeRegExp string) = Some (map Chr string) ∧
  (∀ text, matchAt (map Chr string) text =
           if startsWith string text
           then Some ([], drop (length string) text) else None) ∧
  (∀ string', escapeRegExp string = escapeRegExp string' → string = string').
Proof.
  split; [apply readEscaped_escapeRegExp|]. split.
  - intros text. unfold matchAt.
    rewrite <- (app_nil_r (map Chr string)). by rewrite matchAtoms_literal.
  - intros s' H. apply Chr_inj.
    pose proof (readEscaped_escapeRegExp string) as H1.
    rewrite H, readEscaped_escapeRegExp in H1. congruence.
Qed.

(** ** Looking a key up *)

Lemma last_filter_elem {A} (P : A → Prop) `{∀ x, Decision (P x)} (l : list A) x :
  last (filter P l) = Some x → x ∈ l ∧ P x.
Proof.
  intros Hl. rewrite last_lookup in Hl.
  apply list_elem_of_lookup_2, list_elem_of_filter in Hl as [HP Hx]. done.
Qed.

Lemma loadTranslations_eq locale translations w :
  ∃ w', useTranslations.loadTranslations locale translations w =
          (Ok (if canOpen w && bool_decide (locale ∈ validLocales)
               then sqlSelectTranslations locale (stored w)
               else translations), w').
Proof.
  unfold useTranslations.loadTranslations, try_catch,
    LocalizationDB.getTranslations.
  destruct (canOpen w) eqn:Hc.
  - destruct (method_ready (getTranslations locale) w Hc)
      as (d & w0 & Hdb & Hrows & -> & _).
    rewrite (getTranslations_open _ _ _ Hdb), Hrows.
    case_bool_decide; by eexists.
  - apply canOpen_false in Hc as [Hdb Hl].
    rewrite method_broken by done. by eexists.
Qed.

(** X26: for a key that is no property of [Object.prototype], the lookup
    [t] of the hook returns a string: the key itself, or the text, not empty,
    of a record with that key in the locale; before the translations are
    loaded, and when the first load fails, it returns the key. *)
Theorem t_gives_text_or_key locale key w :
  key ∉ useTranslations.objectPrototypeNames →
  ∃ translations w' value,
    useTranslations.loadTranslations locale ∅ w = (Ok translations, w') ∧
    useTranslations.t translations key = Some value ∧
    useTranslations.t ∅ key = Some key ∧
    (value = key ∨
     (value ≠ [] ∧
      ∃ r, r ∈ stored w ∧ LocalizationEntry.key r = key ∧
           getField locale r = value)).
Proof.
  intros Hk.
  destruct (loadTranslations_eq locale ∅ w) as (w' & Hload).
  assert (useTranslations.t ∅ key = Some key) as Hempty.
  { unfold useTranslations.t. rewrite lookup_empty.
    by rewrite bool_decide_eq_false_2. }
  destruct (canOpen w && bool_decide (locale ∈ validLocales)).
  - eexists _, w'. unfold useTranslations.t at 1.
    rewrite sqlSelectTranslations_lookup.
    case_bool_decide as Hp.
    { rewrite bool_decide_eq_false_2 by done. eexists.
      split_and!; [done..|]. by left. }
    destruct (last _) as [r|] eqn:Hlast; simpl.
    + apply last_filter_elem in Hlast as [Hr Hkey].
      destruct (getField locale r) as [|c v] eqn:Hv.
      * eexists. split_and!; [done..|]. by left.
      * eexists. split_and!; [done..|]. right. split; [done|]. by exists r.
    + rewrite bool_decide_eq_false_2 by done. eexists.
      split_and!; [done..|]. by left.
  - exists ∅, w', key. split_and!; [done..|]. by left.
Qed.

(** ** The name of a component *)

Lemma replaceEach_remove class s :
  Forall (fun c => class c = false) (replaceEach class (fun _ => []) s) ∧
  (length (replaceEach class (fun _ => []) s) ≤ length s)%nat.
Proof.
  unfold replaceEach. induction s as [|c s [IH1 IH2]]; simpl; [done|].
  destruct (class c) eqn:E; simpl; split; auto; lia.
Qed.

Lemma split_words (P : N → Prop) sep s :
  Forall P s →
  Forall (Forall (fun c => P c ∧ c ≠ sep)) (Editor.split sep s) ∧
  (length (concat (Editor.split sep s)) ≤ length s)%nat ∧
  Editor.split sep s ≠ [].
Proof.
  induction 1 as [|c s Hc Hs (IH1 & IH2 & IH3)]; simpl.
  { split_and!; [by repeat constructor|done|done]. }
  destruct (c =? sep) eqn:E.
  - split_and!; [by constructor|simpl; lia|done].
  - apply N.eqb_neq in E.
    destruct (Editor.split sep s) as [|word words]; [done|].
    apply Forall_cons in IH1 as [Hw Hws]. simpl in *.
    split_and!; [|lia|done]. constructor; [|done]. by constructor.
Qed.

Lemma capitalize_word (word : jsstring) :
  Forall (fun c => Editor.isKept c = true ∧ c ≠ 32) word →
  Forall (fun c => Editor.isAlphanumeric c = true ∨
                   (Editor.isWhiteSpace c = true ∧ c ≠ 32))
         (Editor.capitalize word) ∧
  length (Editor.capitalize word) = length word.
Proof.
  intros Hw. split; [|by destruct word].
  assert (Forall (fun c => Editor.isAlphanumeric c = true ∨
                           (Editor.isWhiteSpace c = true ∧ c ≠ 32)) word)
    as Hw'.
  { eapply Forall_impl; [exact Hw|].
    intros c [[?|?]%orb_true_iff ?]; auto. }
  destruct word as [|c rest]; [done|]. simpl.
  apply Forall_cons in Hw' as [Hc Hrest]. constructor; [|done].
  destruct ((97 <=? c) && (c <=? 122)) eqn:E; [|done].
  left. apply andb_true_iff in E as [E1%N.leb_le E2%N.leb_le].
  unfold Editor.isAlphanumeric.
  assert ((65 <=? c - 32) && (c - 32 <=? 90) = true) as ->;
    [|by destruct (_ && _)].
  apply andb_true_iff. split; apply N.leb_le; lia.
Qed.

Lemma concat_take_length {A} n (l : list (list A)) :
  (length (concat (take n l)) ≤ length (concat l))%nat.
Proof.
  revert n. induction l as [|x l IH]; intros [|n]; simpl; try lia.
  rewrite !length_app. specialize (IH n). lia.
Qed.

(** X27: the name given to a component ends in [Component]; what comes
    before is made of letters, digits and white space other than the space
    character, and is no longer than the prompt. *)
Theorem componentName_characters userPrompt :
  ∃ stem,
    Editor.componentName userPrompt = stem ++ js "Component" ∧
    Forall (fun c => Editor.isAlphanumeric c = true ∨
                     (Editor.isWhiteSpace c = true ∧ c ≠ 32)) stem ∧
    (length stem ≤ length userPrompt)%nat.
Proof.
  eexists. split; [reflexivity|].
  destruct (replaceEach_remove (fun c => negb (Editor.isKept c)) userPrompt)
    as [Hkept Hlen].
  set (kept := replaceEach _ _ userPrompt) in *.
  assert (Forall (fun c => Editor.isKept c = true) kept) as Hk.
  { eapply Forall_impl; [exact Hkept|]. intros c Hc. simpl in Hc.
    by apply negb_false_iff in Hc. }
  destruct (split_words _ 32 kept Hk) as (Hwords & Hlen' & _).
  assert (∀ words : list jsstring,
    Forall (Forall (fun c => Editor.isKept c = true ∧ c ≠ 32)) words →
    Forall (fun c => Editor.isAlphanumeric c = true ∨
                     (Editor.isWhiteSpace c = true ∧ c ≠ 32))
           (concat (map Editor.capitalize words)) ∧
    length (concat (map Editor.capitalize words)) = length (concat words))
    as Hcap.
  { induction 1 as [|word words Hw _ [IH1 IH2]]; simpl; [done|].
    destruct (capitalize_word word Hw) as [H1 H2].
    rewrite !length_app, Forall_app. split; [done|lia]. }
  destruct (Hcap (take 3 (Editor.split 32 kept))) as [H1 H2].
  { by apply Forall_take. }
  split; [done|].
  rewrite H2. pose proof (concat_take_length 3 (Editor.split 32 kept)). lia.
Qed.

(** ** The label of a key *)

Lemma collect_avoids contextAt used sites e :
  e ∈ collect contextAt used sites → key e ∉ used.
Proof.
  intros He.
  assert (key e ∈ map key (collect contextAt used sites)) as Hk.
  { apply list_elem_of_fmap. by exists e. }
  rewrite collect_keys in Hk. by apply list_elem_of_filter in Hk as [Hk _].
Qed.

Lemma collect_first contextAt sites : ∀ used e,
  e ∈ collect contextAt used sites →
  ∃ before p after,
    sites = before ++ (p, key e) :: after ∧
    (key e ∉ map snd before) ∧
    context e = Some (contextAt p).
Proof.
  induction sites as [|[p k] sites IH]; intros used e; simpl.
  { by intros ?%elem_of_nil. }
  assert (∀ used', key e ≠ k → e ∈ collect contextAt used' sites →
    ∃ before p0 after,
      (p, k) :: sites = before ++ (p0, key e) :: after ∧
      (key e ∉ map snd before) ∧ context e = Some (contextAt p0)) as Hlater.
  { intros used' Hne He.
    destruct (IH used' e He) as (before & p0 & after & -> & Hfirst & Hctx).
    exists ((p, k) :: before), p0, after. split_and!; [done| |done].
    simpl. by apply not_elem_of_cons. }
  case_bool_decide as Hused.
  - intros He. apply (Hlater used); [|done].
    intros <-. by apply collect_avoids in He.
  - intros [->|He]%elem_of_cons.
    + exists [], p, sites. simpl. split_and!; [done| |done]. apply not_elem_of_nil.
    + apply (Hlater ({[k]} ∪ used)); [|done].
      intros <-. apply collect_avoids in He. apply He.
      apply elem_of_union. left. by apply elem_of_singleton.
Qed.

Section Label.
Variable toLowerCase : jsstring → jsstring.

(** X28: the context of a reference is the label at the first call of its
    key: the calls of the code being read from left to right, a reference
    has the label that [determineContext] gives at the position of the first
    of them with its key. *)
Theorem context_of_first_call outcome code w sites :
  CallSites code 0 sites →
  ∃ l w',
    extractLocalizationKeys toLowerCase outcome code w = (Ok l, w') ∧
    ∀ e, e ∈ l →
      ∃ before p after,
        sites = before ++ (p, key e) :: after ∧
        (key e ∉ map snd before) ∧
        context e = Some (determineContext toLowerCase code (Z.of_nat p)).
Proof.
  intros Hs. rewrite extractLocalizationKeys_eq. eexists _, _.
  split; [done|]. intros e He.
  unfold withOffers in He. apply list_elem_of_fmap in He as (e0 & -> & He0).
  simpl. rewrite (extractedCalls_sites _ _ _ Hs) in He0.
  apply collect_first in He0. exact He0.
Qed.

End Label.

(** ** Opening a saved database *)

(** X29: opening a database saved by this or an earlier version of the
    application, with or without the table of the components and its column
    of demo props, keeps the saved records as they are and seeds nothing;
    the open database is saved, and opening again changes nothing. *)
Theorem saved_database_opens_as_saved saved w :
  db w = None → localStorage w = Some saved → sqlJsLoads w = true →
  ∃ w',
    initializeDatabase w = (Ok tt, w') ∧
    db w' = Some {| localizations := localizations saved;
                    components := ComponentsPresent |} ∧
    localStorage w' = db w' ∧
    initializeDatabase w' = (Ok tt, w').
Proof.
  intros Hdb Hls Hl. rewrite (initializeDatabase_closed _ Hdb), Hl.
  exists (opened w). split; [done|].
  unfold opened, initialTables. rewrite Hls. simpl. split_and!; [done..|].
  by eapply initializeDatabase_open.
Qed.

(** ** The claims at concrete inputs *)

Lemma failed_translation_keeps_store_witness :
  failed FetchThrows ∧
  (∀ env, returns (processComponentWithTranslations asciiLower FetchThrows env
                     sampleCode (js "comp_1"))) ∧
  ∃ r w',
    processComponentWithTranslations asciiLower FetchThrows (alone noClock)
      sampleCode (js "comp_1") seededWorld = (Ok r, w') ∧
    Forall (fun e => text e = key e ∧ translations e = None) (extractedTexts r) ∧
    stored w' = stored seededWorld ∧
    savedKeys r =
      (if canOpen seededWorld
       then filter (fun k => k ∈ keys (stored seededWorld))
                   (map key (extractedTexts r))
       else []).
Proof.
  split; [by left|].
  exact (failed_translation_keeps_store asciiLower FetchThrows noClock sampleCode
           (js "comp_1") seededWorld (or_introl eq_refl)).
Defined.

(** C1 as stated fails: with a failing translation call, the new key [title]
    of the sample source is extracted, the orchestrator returns, and the
    store has no record under [title] afterwards. *)
Lemma failed_translation_no_record :
  ∃ r w',
    processComponentWithTranslations asciiLower FetchThrows (alone noClock)
      sampleCode (js "comp_1") seededWorld = (Ok r, w') ∧
    js "title" ∈ map key (extractedTexts r) ∧
    (js "title" ∉ keys (stored seededWorld)) ∧
    (js "title" ∉ keys (stored w')) ∧
    savedKeys r = [].
Proof.
  eexists _, _. split; [vm_compute; reflexivity|].
  cbn [extractedTexts savedKeys].
  split_and!; [| | |reflexivity]; apply (bool_decide_unpack _); vm_compute; exact I.
Qed.

(** C6 as stated fails: the orchestrator run twice on the sample source, the
    translation call failing the first time and answering the second time,
    returns two different manifests, and the key [title] has no record after
    the first run and one after the second. *)
Lemma rerun_changes_manifest :
  ∃ r1 w1 r2 w2,
    processComponentWithTranslations asciiLower FetchThrows (alone noClock)
      sampleCode (js "comp_1") seededWorld = (Ok r1, w1) ∧
    processComponentWithTranslations asciiLower
      (ResponseJson true (Some sampleOffer)) (alone noClock)
      sampleCode (js "comp_1") w1 = (Ok r2, w2) ∧
    savedKeys r1 = [] ∧ savedKeys r2 = [js "title"] ∧
    length (filter (fun row => LocalizationEntry.key row = js "title") (stored w1))
      = 0%nat ∧
    length (filter (fun row => LocalizationEntry.key row = js "title") (stored w2))
      = 1%nat.
Proof.
  eexists _, _, _, _. split; [vm_compute; reflexivity|].
  split; [vm_compute; reflexivity|].
  split_and!; vm_compute; reflexivity.
Qed.

Lemma rerun_same_manifest_witness :
  ∃ r1 w1 r2 w2,
    processComponentWithTranslations asciiLower
      (ResponseJson true (Some sampleOffer)) (alone noClock)
      sampleCode (js "comp_1") seededWorld = (Ok r1, w1) ∧
    processComponentWithTranslations asciiLower
      (ResponseJson true (Some sampleOffer)) (alone (fun _ => 1))
      sampleCode (js "comp_2") w1 = (Ok r2, w2) ∧
    (∀ k, k ∈ map key (extractedTexts r1) → k ∉ savedKeys r1 →
          offered (ResponseJson true (Some sampleOffer)) k = None) ∧
    savedKeys r2 = savedKeys r1 ∧ stored w2 = stored w1.
Proof.
  destruct (rerun_same_manifest asciiLower (ResponseJson true (Some sampleOffer))
              (ResponseJson true (Some sampleOffer)) noClock (fun _ => 1)
              sampleCode (js "comp_1") (js "comp_2") seededWorld)
    as (r1 & w1 & r2 & w2 & H1 & H2 & _ & H3).
  assert (H : ∀ k, k ∈ map key (extractedTexts r1) → k ∉ savedKeys r1 →
                   offered (ResponseJson true (Some sampleOffer)) k = None).
  { clear H2 H3. vm_compute in H1. injection H1 as <- <-.
    cbn [extractedTexts savedKeys map key].
    intros k Hin Hout.
    apply elem_of_cons in Hin as [->|Hin];
      [by destruct Hout; apply list_elem_of_here|].
    apply list_elem_of_singleton in Hin as ->. vm_compute. reflexivity. }
  destruct (H3 H) as (H4 & H5 & _).
  exists r1, w1, r2, w2. split_and!; done.
Defined.

(** C9 as stated fails: when another task creates the record of [save_btn]
    between this task's reading of the store and its insert, the insert
    fails with the conflict on [key]; the loop returns, the record exists,
    and the key is not in the manifest. *)
Lemma conflict_leaves_key_out :
  ∃ w',
    processAndSaveExtractedTexts (fun _ => raceTurn) [raceItem] (js "comp_2")
      seededWorld = (Ok [], w') ∧
    js "save_btn" ∈ keys (stored w') ∧
    LocalizationDB.create
      (newEntry (js "comp_2") raceItem (sampleTexts "Save") 7) w'
    = (Throw (constraintFailed "key"), w').
Proof.
  eexists. split; [vm_compute; reflexivity|].
  split; [apply (bool_decide_unpack _); vm_compute; exact I|].
  vm_compute. reflexivity.
Qed.

Lemma one_record_per_key_witness :
  Reachable asciiLower seededWorld ∧
  NoDup (keys (stored seededWorld)) ∧ NoDup (ids (stored seededWorld)).
Proof.
  assert (H : Reachable asciiLower seededWorld)
    by exact (reach_getAll asciiLower freshWorld (reach_fresh asciiLower true)).
  split; [exact H|].
  exact (proj1 (one_record_per_key asciiLower) seededWorld H).
Defined.

Lemma call_recognized_iff_witness :
  39 ∈ quoteChars ∧ 34 ∈ quoteChars ∧
  (js "save" ≠ [] ∧ ∀ c, c ∈ quoteChars → c ∉ js "save") ∧
  ∃ l w',
    extractLocalizationKeys asciiLower ResponseNotOk (tCall (js "save") 39 34)
      freshWorld = (Ok l, w') ∧
    map key l = [js "save"].
Proof.
  assert (H1 : 39 ∈ quoteChars) by (apply (bool_decide_unpack _); vm_compute; exact I).
  assert (H2 : 34 ∈ quoteChars) by (apply (bool_decide_unpack _); vm_compute; exact I).
  assert (H3 : js "save" ≠ [] ∧ ∀ c, c ∈ quoteChars → c ∉ js "save").
  { split; [done|]. intros c Hc Hin.
    apply isQuote_quoteChars in Hc.
    assert (Hall : Forall (fun x => isQuote x = false) (js "save"))
      by (by repeat constructor).
    rewrite Forall_forall in Hall. specialize (Hall c Hin). congruence. }
  split; [exact H1|]. split; [exact H2|]. split; [exact H3|].
  exact (proj2 (call_recognized_iff asciiLower (tCall (js "save") 39 34)
                  (js "save") [] ResponseNotOk freshWorld) 39 34 H1 H2 H3).
Defined.

Lemma existing_key_kept_error_caught_witness :
  canOpen seededWorld = true ∧
  ∃ saved w' added,
    processAndSaveExtractedTexts (alone noClock) [raceItem; existingItem]
      (js "comp_3") seededWorld = (Ok saved, w') ∧
    (∀ e, e ∈ [raceItem; existingItem] → key e ∈ keys (stored seededWorld) →
          key e ∈ saved) ∧
    stored w' = stored seededWorld ++ added.
Proof.
  split; [reflexivity|].
  exact (proj1 (proj2 (proj2 existing_key_kept_error_caught)) noClock
           [raceItem; existingItem] (js "comp_3") seededWorld eq_refl).
Defined.

(** ** The further properties at concrete inputs *)

Ltac decided := apply (bool_decide_unpack _); vm_compute; exact I.

Lemma create_then_getAll_witness :
  canOpen seededWorld = true ∧
  (LocalizationEntry.id sampleEntry ∉ ids (stored seededWorld)) ∧
  (LocalizationEntry.key sampleEntry ∉ keys (stored seededWorld)) ∧
  ∃ w' rows,
    LocalizationDB.create sampleEntry seededWorld = (Ok tt, w') ∧
    stored w' = stored seededWorld ++ [sampleEntry] ∧
    LocalizationDB.getAll w' = (Ok rows, w') ∧
    rows ≡ₚ stored seededWorld ++ [sampleEntry].
Proof.
  assert (H1 : canOpen seededWorld = true) by reflexivity.
  assert (H2 : LocalizationEntry.id sampleEntry ∉ ids (stored seededWorld))
    by decided.
  assert (H3 : LocalizationEntry.key sampleEntry ∉ keys (stored seededWorld))
    by decided.
  split; [exact H1|]. split; [exact H2|]. split; [exact H3|].
  exact (create_then_getAll sampleEntry seededWorld H1 H2 H3).
Defined.

Lemma create_then_getTranslations_witness :
  canOpen seededWorld = true ∧
  (LocalizationEntry.id sampleEntry ∉ ids (stored seededWorld)) ∧
  (LocalizationEntry.key sampleEntry ∉ keys (stored seededWorld)) ∧
  js "es" ∈ validLocales ∧
  LocalizationEntry.key sampleEntry ≠ js "__proto__" ∧
  ∃ w0 w' m,
    LocalizationDB.getTranslations (js "es") seededWorld = (Ok m, w0) ∧
    LocalizationDB.create sampleEntry seededWorld = (Ok tt, w') ∧
    LocalizationDB.getTranslations (js "es") w' =
      (Ok (<[LocalizationEntry.key sampleEntry :=
               getField (js "es") sampleEntry]> m), w').
Proof.
  assert (H1 : canOpen seededWorld = true) by reflexivity.
  assert (H2 : LocalizationEntry.id sampleEntry ∉ ids (stored seededWorld))
    by decided.
  assert (H3 : LocalizationEntry.key sampleEntry ∉ keys (stored seededWorld))
    by decided.
  assert (H4 : js "es" ∈ validLocales) by decided.
  assert (H5 : LocalizationEntry.key sampleEntry ≠ js "__proto__") by decided.
  split_and!; [exact H1|exact H2|exact H3|exact H4|exact H5|].
  exact (create_then_getTranslations sampleEntry (js "es") seededWorld
           H1 H2 H3 H4 H5).
Defined.

Lemma create_conflict_keeps_store_witness :
  canOpen seededWorld = true ∧
  (LocalizationEntry.id saveDocumentRow ∈ ids (stored seededWorld) ∨
   LocalizationEntry.key saveDocumentRow ∈ keys (stored seededWorld)) ∧
  ∃ column w',
    (column = "id"%string ∨ column = "key"%string) ∧
    LocalizationDB.create saveDocumentRow seededWorld
      = (Throw (constraintFailed column), w') ∧
    stored w' = stored seededWorld ∧ (db seededWorld ≠ None → w' = seededWorld).
Proof.
  assert (H1 : canOpen seededWorld = true) by reflexivity.
  assert (H2 : LocalizationEntry.id saveDocumentRow ∈ ids (stored seededWorld) ∨
               LocalizationEntry.key saveDocumentRow ∈ keys (stored seededWorld))
    by (right; decided).
  split; [exact H1|]. split; [exact H2|].
  exact (create_conflict_keeps_store saveDocumentRow seededWorld H1 H2).
Defined.

Lemma seeded_wellKeyed : wellKeyedTable (stored seededWorld).
Proof. exact initialData_wellKeyed. Qed.

Lemma update_then_getTranslations_witness :
  canOpen seededWorld = true ∧ wellKeyedTable (stored seededWorld) ∧
  saveDocumentRow ∈ stored seededWorld ∧
  LocalizationEntry.id saveDocumentRow = js "13" ∧
  js "fr" ∈ validLocales ∧
  ∃ w0 m w' m',
    LocalizationDB.getTranslations (js "fr") seededWorld = (Ok m, w0) ∧
    LocalizationDB.update (js "13") (js "fr") (js "Sauvegarder") seededWorld
      = (Ok tt, w') ∧
    LocalizationDB.getTranslations (js "fr") w' = (Ok m', w') ∧
    (LocalizationEntry.key saveDocumentRow ≠ js "__proto__" →
     m' = <[LocalizationEntry.key saveDocumentRow := js "Sauvegarder"]> m) ∧
    (LocalizationEntry.key saveDocumentRow = js "__proto__" → m' = m) ∧
    ∀ locale', locale' ≠ js "fr" →
      fst (LocalizationDB.getTranslations locale' w') =
      fst (LocalizationDB.getTranslations locale' seededWorld).
Proof.
  assert (H1 : canOpen seededWorld = true) by reflexivity.
  assert (H3 : saveDocumentRow ∈ stored seededWorld) by decided.
  assert (H4 : LocalizationEntry.id saveDocumentRow = js "13") by reflexivity.
  assert (H5 : js "fr" ∈ validLocales) by decided.
  split_and!; [exact H1|exact seeded_wellKeyed|exact H3|exact H4|exact H5|].
  exact (update_then_getTranslations (js "13") (js "fr") (js "Sauvegarder")
           saveDocumentRow seededWorld H1 seeded_wellKeyed H3 H4 H5).
Defined.

Lemma update_unknown_id_witness :
  canOpen seededWorld = true ∧ NoDup (keys (stored seededWorld)) ∧
  js "en" ∈ validFields ∧ (js "99" ∉ ids (stored seededWorld)) ∧
  ∃ w', LocalizationDB.update (js "99") (js "en") (js "Hi") seededWorld
          = (Ok tt, w') ∧
        stored w' = stored seededWorld.
Proof.
  assert (H1 : canOpen seededWorld = true) by reflexivity.
  assert (H2 : NoDup (keys (stored seededWorld))) by exact (proj2 seeded_wellKeyed).
  assert (H3 : js "en" ∈ validFields) by decided.
  assert (H4 : js "99" ∉ ids (stored seededWorld)) by decided.
  split_and!; [exact H1|exact H2|exact H3|exact H4|].
  exact (update_unknown_id (js "99") (js "en") (js "Hi") seededWorld H1 H2 H3 H4).
Defined.

Lemma update_key_conflict_witness :
  canOpen seededWorld = true ∧ NoDup (ids (stored seededWorld)) ∧
  saveDocumentRow ∈ stored seededWorld ∧
  LocalizationEntry.id saveDocumentRow = js "13" ∧
  js "click_me" ∈ keys (stored seededWorld) ∧
  js "click_me" ≠ LocalizationEntry.key saveDocumentRow ∧
  ∃ w', LocalizationDB.update (js "13") (js "key") (js "click_me") seededWorld
          = (Throw (constraintFailed "key"), w') ∧
        stored w' = stored seededWorld ∧
        (db seededWorld ≠ None → w' = seededWorld).
Proof.
  assert (H1 : canOpen seededWorld = true) by reflexivity.
  assert (H2 : NoDup (ids (stored seededWorld))) by exact (proj1 seeded_wellKeyed).
  assert (H3 : saveDocumentRow ∈ stored seededWorld) by decided.
  assert (H4 : LocalizationEntry.id saveDocumentRow = js "13") by reflexivity.
  assert (H5 : js "click_me" ∈ keys (stored seededWorld)) by decided.
  assert (H6 : js "click_me" ≠ LocalizationEntry.key saveDocumentRow) by decided.
  split_and!; [exact H1|exact H2|exact H3|exact H4|exact H5|exact H6|].
  exact (update_key_conflict (js "13") (js "click_me") saveDocumentRow
           seededWorld H1 H2 H3 H4 H5 H6).
Defined.

Lemma delete_removes_record_witness :
  canOpen seededWorld = true ∧
  ∃ w', LocalizationDB.delete (js "13") seededWorld = (Ok tt, w') ∧
        (∀ r, r ∈ stored w' ↔
              r ∈ stored seededWorld ∧ LocalizationEntry.id r ≠ js "13") ∧
        (js "13" ∉ ids (stored seededWorld) → stored w' = stored seededWorld).
Proof.
  split; [reflexivity|].
  exact (delete_removes_record (js "13") seededWorld eq_refl).
Defined.

Lemma create_then_delete_witness :
  canOpen seededWorld = true ∧
  (LocalizationEntry.id sampleEntry ∉ ids (stored seededWorld)) ∧
  (LocalizationEntry.key sampleEntry ∉ keys (stored seededWorld)) ∧
  ∃ w1 w2,
    LocalizationDB.create sampleEntry seededWorld = (Ok tt, w1) ∧
    LocalizationDB.delete (LocalizationEntry.id sampleEntry) w1 = (Ok tt, w2) ∧
    stored w2 = stored seededWorld.
Proof.
  assert (H1 : canOpen seededWorld = true) by reflexivity.
  assert (H2 : LocalizationEntry.id sampleEntry ∉ ids (stored seededWorld))
    by decided.
  assert (H3 : LocalizationEntry.key sampleEntry ∉ keys (stored seededWorld))
    by decided.
  split; [exact H1|]. split; [exact H2|]. split; [exact H3|].
  exact (create_then_delete sampleEntry seededWorld H1 H2 H3).
Defined.

Lemma seeded_reachable : Reachable asciiLower seededWorld.
Proof. exact (reach_getAll asciiLower freshWorld (reach_fresh asciiLower true)). Qed.

Lemma closeDatabase_keeps_records_witness :
  Reachable asciiLower seededWorld ∧ sqlJsLoads seededWorld = true ∧
  ∃ w1 rows w2 w3,
    closeDatabase seededWorld = (Ok tt, w1) ∧ db w1 = None ∧
    LocalizationDB.getAll seededWorld = (Ok rows, w2) ∧
    LocalizationDB.getAll w1 = (Ok rows, w3) ∧
    stored w3 = stored seededWorld.
Proof.
  split; [exact seeded_reachable|]. split; [reflexivity|].
  exact (closeDatabase_keeps_records asciiLower seededWorld seeded_reachable
           eq_refl).
Defined.

Lemma resetDatabase_restores_seed_witness :
  sqlJsLoads seededWorld = true ∧
  ∃ w1 w2,
    resetDatabase seededWorld = (Ok tt, w1) ∧ db w1 = None ∧
    localStorage w1 = None ∧
    LocalizationDB.getAll w1 = (Ok (sqlSelectAllOrderByKey initialData), w2) ∧
    stored w2 = initialData ∧ localStorage w2 = db w2.
Proof.
  split; [reflexivity|].
  exact (resetDatabase_restores_seed seededWorld eq_refl).
Defined.

Lemma load_failure_degrades_witness :
  db brokenWorld = None ∧ sqlJsLoads brokenWorld = false ∧
  LocalizationDB.getAll brokenWorld = (Throw LoadFailure, brokenWorld) ∧
  (∀ locale, LocalizationDB.getTranslations locale brokenWorld
             = (Throw LoadFailure, brokenWorld)) ∧
  (∀ entry, LocalizationDB.create entry brokenWorld
            = (Throw LoadFailure, brokenWorld)) ∧
  (∀ id field value,
     LocalizationDB.update id field value brokenWorld
     = (Throw LoadFailure, brokenWorld)) ∧
  (∀ id, LocalizationDB.delete id brokenWorld = (Throw LoadFailure, brokenWorld)) ∧
  ∃ r w',
    processComponentWithTranslations asciiLower
      (ResponseJson true (Some sampleOffer)) (alone noClock) sampleCode
      (js "comp_1") brokenWorld = (Ok r, w') ∧
    savedKeys r = [] ∧ db w' = None ∧ localStorage w' = localStorage brokenWorld.
Proof.
  split; [reflexivity|]. split; [reflexivity|].
  exact (load_failure_degrades asciiLower (ResponseJson true (Some sampleOffer))
           (alone noClock) sampleCode (js "comp_1") brokenWorld eq_refl eq_refl).
Defined.

Lemma record_id_determines_key_witness :
  LocalizationEntry.id
    (newEntry (js "comp_" ++ numberToString 1) raceItem (sampleTexts "Save") 7) =
  LocalizationEntry.id
    (newEntry (js "comp_" ++ numberToString 1) raceItem (sampleTexts "Save") 7) ∧
  1 = 1 ∧ key raceItem = key raceItem ∧ 7 = 7.
Proof.
  split; [reflexivity|].
  exact (record_id_determines_key 1 1 raceItem raceItem (sampleTexts "Save")
           (sampleTexts "Save") 7 7 eq_refl).
Defined.

Lemma offered_key_is_recorded_witness :
  canOpen seededWorld = true ∧
  js "title" ∈ map key (extractedCalls asciiLower sampleCode) ∧
  offered (ResponseJson true (Some sampleOffer)) (js "title")
    = Some (sampleTexts "Title") ∧
  (js "title" ∉ keys (stored seededWorld)) ∧
  (∀ n, js "comp_1" ++ js "_" ++ js "title" ++ js "_" ++ numberToString n
        ∉ ids (stored seededWorld)) ∧
  ∃ r w' n,
    processComponentWithTranslations asciiLower
      (ResponseJson true (Some sampleOffer)) (alone noClock) sampleCode
      (js "comp_1") seededWorld = (Ok r, w') ∧
    js "title" ∈ savedKeys r ∧
    LocalizationEntry.mk
      (js "comp_1" ++ js "_" ++ js "title" ++ js "_" ++ numberToString n)
      (js "title")
      (en (sampleTexts "Title")) (es (sampleTexts "Title"))
      (fr (sampleTexts "Title")) (de (sampleTexts "Title"))
      (ja (sampleTexts "Title")) (zh (sampleTexts "Title")) ∈ stored w'.
Proof.
  assert (H1 : canOpen seededWorld = true) by reflexivity.
  assert (H2 : js "title" ∈ map key (extractedCalls asciiLower sampleCode))
    by decided.
  assert (H3 : offered (ResponseJson true (Some sampleOffer)) (js "title")
               = Some (sampleTexts "Title")) by (vm_compute; reflexivity).
  assert (H4 : js "title" ∉ keys (stored seededWorld)) by decided.
  assert (H5 : ∀ n, js "comp_1" ++ js "_" ++ js "title" ++ js "_"
                    ++ numberToString n ∉ ids (stored seededWorld)).
  { intros n Hin. change (stored seededWorld) with initialData in Hin.
    unfold ids, initialData in Hin. cbn [map LocalizationEntry.id] in Hin.
    repeat (apply elem_of_cons in Hin as [Hin|Hin]; [discriminate Hin|]).
    by apply elem_of_nil in Hin. }
  split_and!; [exact H1|exact H2|exact H3|exact H4|exact H5|].
  exact (offered_key_is_recorded asciiLower (ResponseJson true (Some sampleOffer))
           noClock sampleCode (js "comp_1") seededWorld (js "title")
           (sampleTexts "Title") H1 H2 H3 H4 H5).
Defined.

Lemma manifest_keys_have_records_witness :
  canOpen seededWorld = true ∧
  ∃ r w',
    processComponentWithTranslations asciiLower
      (ResponseJson true (Some sampleOffer)) (alone noClock) sampleCode
      (js "comp_1") seededWorld = (Ok r, w') ∧
    savedKeys r =
      filter (fun k => k ∈ keys (stored w')) (map key (extractedTexts r)).
Proof.
  split; [reflexivity|].
  exact (manifest_keys_have_records asciiLower
           (ResponseJson true (Some sampleOffer)) noClock sampleCode
           (js "comp_1") seededWorld eq_refl).
Defined.

Lemma exportCode_plain : ¬ occursIn (js "interface") exportCode.
Proof. apply includes_not. vm_compute. reflexivity. Qed.

Lemma exportCode_export : exportAt exportCode 0 (js "Hello").
Proof.
  exists [], (js "({ t }) { return <p>{t('hi')}</p>; }").
  split; [vm_compute; reflexivity|]. split; [reflexivity|].
  split; [by vm_compute|]. split.
  - apply Forall_forall. intros c Hc. vm_compute in Hc.
    repeat (apply elem_of_cons in Hc as [->|Hc]; [reflexivity|]).
    by apply elem_of_nil in Hc.
  - intros c Hc. vm_compute in Hc. injection Hc as <-. reflexivity.
Qed.

Lemma transformComponentCode_inserts_witness :
  ¬ occursIn (js "interface") exportCode ∧
  exportAt exportCode 0 (js "Hello") ∧
  (∀ p' name', (p' < 0)%nat → ¬ exportAt exportCode p' name') ∧
  transformComponentCode exportCode [] =
    take 0 exportCode ++ interfaceFor (js "Hello") ++ drop 0 exportCode.
Proof.
  assert (H3 : ∀ p' name', (p' < 0)%nat → ¬ exportAt exportCode p' name')
    by (intros p' name' Hp; lia).
  split_and!; [exact exportCode_plain|exact exportCode_export|exact H3|].
  exact (transformComponentCode_inserts exportCode [] 0 (js "Hello")
           exportCode_plain exportCode_export H3).
Defined.

Lemma transformComponentCode_unchanged_witness :
  (occursIn (js "interface") (js "interface Props {}") ∨
   (∀ p name, ¬ exportAt (js "interface Props {}") p name)) ∧
  transformComponentCode (js "interface Props {}") [] = js "interface Props {}".
Proof.
  assert (H : occursIn (js "interface") (js "interface Props {}") ∨
              (∀ p name, ¬ exportAt (js "interface Props {}") p name)).
  { left. by exists [], (js " Props {}"). }
  split; [exact H|].
  exact (transformComponentCode_unchanged (js "interface Props {}") [] H).
Defined.

Lemma t_gives_text_or_key_witness :
  (js "save_document" ∉ useTranslations.objectPrototypeNames) ∧
  ∃ translations w' value,
    useTranslations.loadTranslations (js "es") ∅ seededWorld = (Ok translations, w') ∧
    useTranslations.t translations (js "save_document") = Some value ∧
    useTranslations.t ∅ (js "save_document") = Some (js "save_document") ∧
    (value = js "save_document" ∨
     (value ≠ [] ∧
      ∃ r, r ∈ stored seededWorld ∧
           LocalizationEntry.key r = js "save_document" ∧
           getField (js "es") r = value)).
Proof.
  assert (H : js "save_document" ∉ useTranslations.objectPrototypeNames) by decided.
  split; [exact H|].
  exact (t_gives_text_or_key (js "es") (js "save_document") seededWorld H).
Defined.

Lemma saved_database_opens_as_saved_witness :
  db savedByEarlierVersion = None ∧
  localStorage savedByEarlierVersion
    = Some {| localizations := [saveDocumentRow];
              components := ComponentsMissing |} ∧
  sqlJsLoads savedByEarlierVersion = true ∧
  ∃ w',
    initializeDatabase savedByEarlierVersion = (Ok tt, w') ∧
    db w' = Some {| localizations := [saveDocumentRow];
                    components := ComponentsPresent |} ∧
    localStorage w' = db w' ∧
    initializeDatabase w' = (Ok tt, w').
Proof.
  split_and!; [reflexivity..|].
  exact (saved_database_opens_as_saved
           {| localizations := [saveDocumentRow];
              components := ComponentsMissing |}
           savedByEarlierVersion eq_refl eq_refl eq_refl).
Defined.

Lemma sampleCode_sites : CallSites sampleCode 0 sampleSites.
Proof.
  apply (callSites_step sampleCode 0 {| index := 5; group1 := js "title" |} 15);
    [vm_compute; reflexivity|].
  apply (callSites_step sampleCode 15 {| index := 25; group1 := js "body" |} 34);
    [vm_compute; reflexivity|].
  apply (callSites_step sampleCode 34 {| index := 37; group1 := js "title" |} 47);
    [vm_compute; reflexivity|].
  apply (callSites_stop sampleCode 47 0). vm_compute; reflexivity.
Qed.


Lemma context_of_first_call_witness :
  CallSites sampleCode 0 sampleSites ∧
  ∃ l w',
    extractLocalizationKeys asciiLower ResponseNotOk sampleCode freshWorld
      = (Ok l, w') ∧
    ∀ e, e ∈ l →
      ∃ before p after,
        sampleSites = before ++ (p, key e) :: after ∧
        (key e ∉ map snd before) ∧
        context e = Some (determineContext asciiLower sampleCode (Z.of_nat p)).
Proof.
  split; [exact sampleCode_sites|].
  exact (context_of_first_call asciiLower ResponseNotOk sampleCode freshWorld
           sampleSites sampleCode_sites).
Defined.

(** A button, a prompt and a text with two special characters. *)
Example generateDemoProps_button :
  V2.generateDemoProps asciiLower FetchThrows (alone noClock)
    (js "<button onClick={go}>{t('go')}</button>") freshWorld
  = (Ok ([123; 34] ++ js "t" ++ [34; 58; 34] ++ js "t" ++ [34; 44; 34]
         ++ js "onClick" ++ [34; 58; 34]
         ++ js "() => console.log('Button clicked!')" ++ [34; 125]),
     freshWorld).
Proof. vm_compute. reflexivity. Qed.

Example componentName_login :
  Editor.componentName (js "Create a login form, please!")
  = js "CreateALoginComponent".
Proof. vm_compute. reflexivity. Qed.

Example escapeRegExp_price :
  escapeRegExp (js "1.5$") = [49; 92; 46; 53; 92; 36].
Proof. vm_compute. reflexivity. Qed.
